(** * IRONY: a miniature compiler and virtual machine (pathos/irony.py)

    A shallow embedding of the parser, the code generator and the virtual
    machine of [pathos/irony.py], and the properties of its specification
    checked against it.  The first part holds the definitions, function by
    function as in the source; the second part holds the properties, one
    section for each claim C1 to C10 of the specification, and after them
    further properties of the code, X1 to X20.

    Modelling conventions.
    - Python [str] values are [string]s whose characters are ASCII code
      points; the character classes below ([isspace], [isdigit], the regex
      class [\w]) are Python's, restricted to ASCII.
    - Python [int] is [Z] (unbounded).  The interpreter's own limits (the
      recursion limit, the digit limit of [int()]/[str()]) are not modelled:
      no exception stands for them.  A property that says a conversion
      succeeds is stated within [max_str_digits], and the exceptions of
      [compile] are traced to their causes one by one.
    - A raised exception is an [Err] result carrying the exception's kind and
      the place that raised it.
    - Assembly instructions are text lines, as in the source.
    - The loop of [run] may not end; it is run for a given number of
      iterations, and [Running] is the outcome when these do not suffice.
    - The debug trace of [run] is left out: it changes neither the machine
      nor the output. *)

From Stdlib Require Import ZArith Ascii DecimalString DecimalNat DecimalPos DecimalZ.
From stdpp Require Import gmap strings list relations.

Local Open Scope Z_scope.
#[local] Set Warnings "-clear-no-such-hyp".

(** ** Exceptions and results *)

(** Where an [IndexError] was raised. *)
Inductive index_site : Type :=
  | AtParts        (* parts[k]: an instruction with too few tokens *)
  | AtLabelName    (* line.split()[1] in load_program *)
  | AtMemory       (* self.memory[addr] *)
  | AtScopeTop     (* self.scope_stack[-1] on an empty scope stack *)
  | AtScopePop     (* self.scope_stack.pop() on an empty scope stack *)
  | AtProgram      (* self.program[self.pc] with pc below -len(program) *)
  | AtRegisters    (* self.registers[reg_num] *)
  | AtStack        (* self.stack[self.sp] *)
  | AtParseStack.  (* stack[-1] / stack.pop() in parse on an emptied stack *)

Inductive exn : Type :=
  | SyntaxError (line : string)          (* raise SyntaxError(f"Unknown line: {line}") *)
  | ValueError (what : string)           (* the message of an unpacking, or the token that int() rejects *)
  | IndexError (site : index_site)
  | KeyError (label : string)            (* self.labels[label] *)
  | TypeError                            (* indexing with the None of get_var_addr *)
  | StackOverflow                        (* RuntimeError("Stack overflow! ...") *)
  | StackUnderflow.                      (* RuntimeError("Stack underflow! ...") *)

Inductive res (A : Type) : Type :=
  | Ok (a : A)
  | Err (e : exn).
Arguments Ok {A} a.
Arguments Err {A} e.

(** ** Python string primitives *)

Module PyStr.

Definition code (a : ascii) : N := N_of_ascii a.

(** [str.isspace] on one ASCII character: TAB, LF, VT, FF, CR, the four
    separators FS, GS, RS, US, and the space. *)
Definition is_space (a : ascii) : bool :=
  let n := code a in
  ((9 <=? n) && (n <=? 13) || (28 <=? n) && (n <=? 32))%N.

Definition is_digit (a : ascii) : bool :=
  let n := code a in ((48 <=? n) && (n <=? 57))%N.

Definition is_alpha (a : ascii) : bool :=
  let n := code a in
  ((65 <=? n) && (n <=? 90) || (97 <=? n) && (n <=? 122))%N.

(** The regex class [\w]. *)
Definition is_word (a : ascii) : bool :=
  is_alpha a || is_digit a || Ascii.eqb a "_".

Definition newline : ascii := ascii_of_N 10.

Fixpoint forallb (p : ascii → bool) (s : string) : bool :=
  match s with
  | EmptyString => true
  | String c s' => p c && forallb p s'
  end.

Fixpoint contains (c : ascii) (s : string) : bool :=
  match s with
  | EmptyString => false
  | String d s' => Ascii.eqb d c || contains c s'
  end.

Definition is_empty (s : string) : bool :=
  match s with EmptyString => true | _ => false end.

(** [s.startswith(p)] *)
Fixpoint startswith (p s : string) : bool :=
  match p, s with
  | EmptyString, _ => true
  | String a p', String b s' => Ascii.eqb a b && startswith p' s'
  | String _ _, EmptyString => false
  end.

(** [s[n:]] *)
Fixpoint drop (n : nat) (s : string) : string :=
  match n, s with
  | O, _ => s
  | S n', String _ s' => drop n' s'
  | S _, EmptyString => EmptyString
  end.

Fixpoint lstrip (s : string) : string :=
  match s with
  | String c s' => if is_space c then lstrip s' else s
  | EmptyString => EmptyString
  end.

Fixpoint rstrip (s : string) : string :=
  match s with
  | EmptyString => EmptyString
  | String c s' =>
      let r := rstrip s' in
      if is_empty r && is_space c then EmptyString else String c r
  end.

(** [s.strip()] *)
Definition strip (s : string) : string := rstrip (lstrip s).

Definition cons_word (w : string) (ws : list string) : list string :=
  if is_empty w then ws else w :: ws.

(** The word being read at the front of [s], and the words after it. *)
Fixpoint words_from (s : string) : string * list string :=
  match s with
  | EmptyString => (EmptyString, [])
  | String c s' =>
      let '(w, ws) := words_from s' in
      if is_space c then (EmptyString, cons_word w ws) else (String c w, ws)
  end.

(** [s.split()]: the maximal runs of non-whitespace characters. *)
Definition split (s : string) : list string :=
  let '(w, ws) := words_from s in cons_word w ws.

(** The field at the front of [s], and the fields after it. *)
Fixpoint fields_from (sep : ascii) (s : string) : string * list string :=
  match s with
  | EmptyString => (EmptyString, [])
  | String c s' =>
      let '(w, ws) := fields_from sep s' in
      if Ascii.eqb c sep then (EmptyString, w :: ws) else (String c w, ws)
  end.

(** [s.split(sep)] for a one-character separator: never empty. *)
Definition split_on (sep : ascii) (s : string) : list string :=
  let '(w, ws) := fields_from sep s in w :: ws.

(** [sep.join(l)] *)
Fixpoint join (sep : string) (l : list string) : string :=
  match l with
  | [] => EmptyString
  | [w] => w
  | w :: l' => w +:+ sep +:+ join sep l'
  end.

(** [s.isdigit()]: non-empty and all digits. *)
Definition isdigit (s : string) : bool :=
  negb (is_empty s) && forallb is_digit s.

Definition digit_val (a : ascii) : Z := Z.of_N (code a) - 48.

Fixpoint digits_acc (acc : Z) (s : string) : Z :=
  match s with
  | EmptyString => acc
  | String c s' => digits_acc (10 * acc + digit_val c) s'
  end.

(** [int(s)] for a string of digits. *)
Definition int_of_digits (s : string) : Z := digits_acc 0 s.

(** [str(n)] and the [{n}] of an f-string. *)
Definition str_of_Z (z : Z) : string := NilZero.string_of_int (Z.to_int z).
Definition str_of_nat (n : nat) : string := NilZero.string_of_uint (Nat.to_uint n).

(** The digit groups that [int()] accepts: digits, with single underscores
    between digits. [prev] tells whether the previous character was a digit. *)
Fixpoint grouped_digits (prev : bool) (s : string) : bool :=
  match s with
  | EmptyString => prev
  | String c s' =>
      if is_digit c then grouped_digits true s'
      else if Ascii.eqb c "_" then prev && grouped_digits false s'
      else false
  end.

Fixpoint remove_underscores (s : string) : string :=
  match s with
  | EmptyString => EmptyString
  | String c s' =>
      if Ascii.eqb c "_" then remove_underscores s' else String c (remove_underscores s')
  end.

(** [int(tok)] on a token without whitespace: an optional sign, then grouped
    digits; [None] stands for the [ValueError]. *)
Definition int_of_token (tok : string) : option Z :=
  let '(neg, body) :=
    match tok with
    | String c s' =>
        if Ascii.eqb c "-" then (true, s')
        else if Ascii.eqb c "+" then (false, s')
        else (false, tok)
    | EmptyString => (false, tok)
    end in
  if grouped_digits false body
  then let v := int_of_digits (remove_underscores body) in
       Some (if neg then - v else v)
  else None.

End PyStr.

(** ** Regular expressions of the parser

    Each matcher returns the groups of [re.match(pattern, line)], or [None]
    when the pattern does not match.  [$] matches at the end of the text or
    before a final newline; [.] matches any character but the newline. *)

Module Re.
Import PyStr.

Definition not_newline (a : ascii) : bool := negb (Ascii.eqb a newline).

(** The text after the prefix [p] of [s]. *)
Definition after (p s : string) : option string :=
  if startswith p s then Some (drop (String.length p) s) else None.

(** The longest prefix whose characters satisfy [p], and the rest. *)
Fixpoint span (p : ascii → bool) (s : string) : string * string :=
  match s with
  | EmptyString => (EmptyString, EmptyString)
  | String c s' =>
      if p c then let '(w, r) := span p s' in (String c w, r)
      else (EmptyString, s)
  end.

(** [$] *)
Definition at_end (s : string) : bool :=
  match s with
  | EmptyString => true
  | String c EmptyString => Ascii.eqb c newline
  | _ => false
  end.

(** [(\w+)] followed by the rest of the pattern: the group takes every
    word character, as none of the patterns continues with one. *)
Definition word (s : string) : option (string * string) :=
  let '(w, r) := span is_word s in
  if is_empty w then None else Some (w, r).

(** [(.+)$] *)
Definition dot_plus_end (s : string) : option string :=
  let '(g, r) := span not_newline s in
  if negb (is_empty g) && at_end r then Some g else None.

(** [\s*(.+)$]: the whitespace is taken greedily and given back only when
    the rest would not match otherwise. *)
Fixpoint spaces_dot_plus_end (s : string) : option string :=
  match s with
  | EmptyString => None
  | String c s' =>
      if is_space c then
        match spaces_dot_plus_end s' with
        | Some g => Some g
        | None => dot_plus_end s
        end
      else dot_plus_end s
  end.

(** [(.+) to (.+)$], here with a first group that may still be empty: the
    first group is greedy, so the text is cut at the last [" to "] that is
    followed by a match of [(.+)$]. *)
Fixpoint bounds (s : string) : option (string * string) :=
  match s with
  | EmptyString => None
  | String c s' =>
      match bounds s' with
      | Some (a, b) => if not_newline c then Some (String c a, b) else None
      | None =>
          match after " to " s with
          | Some r =>
              match dot_plus_end r with
              | Some b => Some (EmptyString, b)
              | None => None
              end
          | None => None
          end
      end
  end.

(** [^def (\w+) (\w+)$] *)
Definition match_def (line : string) : option (string * string) :=
  r0 ← after "def " line;
  '(name, r1) ← word r0;
  r2 ← after " " r1;
  '(arg, r3) ← word r2;
  if at_end r3 then Some (name, arg) else None.

(** [^if (.+)$] *)
Definition match_if (line : string) : option string :=
  after "if " line ≫= dot_plus_end.

(** [^for (\w+) from (.+) to (.+)$] *)
Definition match_for (line : string) : option (string * string * string) :=
  r0 ← after "for " line;
  '(var, r1) ← word r0;
  r2 ← after " from " r1;
  '(lo, hi) ← bounds r2;
  if is_empty lo then None else Some (var, lo, hi).

(** [^return (.+)$] *)
Definition match_return (line : string) : option string :=
  after "return " line ≫= dot_plus_end.

(** [^print (.+)$] *)
Definition match_print (line : string) : option string :=
  after "print " line ≫= dot_plus_end.

(** [^(\w+)\s*=\s*(.+)$] *)
Definition match_assign (line : string) : option (string * string) :=
  '(var, r0) ← word line;
  r1 ← after "=" (lstrip r0);
  e ← spaces_dot_plus_end r1;
  Some (var, e).

End Re.

(** ** Abstract syntax *)

#[local] Set Warnings "-register-all".

(** The AST nodes: the dictionaries built by [parse], by their ["type"]. *)
Inductive stmt : Type :=
  | Def (name arg : string) (body : list stmt)
  | If (cond : string) (body : list stmt)
  | For (var lo hi : string) (body : list stmt)
  | Return (expr : string)
  | Print (expr : string)
  | Assign (var expr : string).

(** ** Parser *)

(** What one source line is, in the priority order of [parse]. *)
Inductive line_form : Type :=
  | LDef (name arg : string)
  | LIf (cond : string)
  | LFor (var lo hi : string)
  | LReturn (expr : string)
  | LPrint (expr : string)
  | LAssign (var expr : string)
  | LEnd
  | LUnknown.

Definition classify (line : string) : line_form :=
  match Re.match_def line with
  | Some (name, arg) => LDef name arg
  | None =>
  match Re.match_if line with
  | Some cond => LIf cond
  | None =>
  match Re.match_for line with
  | Some (var, lo, hi) => LFor var lo hi
  | None =>
  match Re.match_return line with
  | Some e => LReturn e
  | None =>
  match Re.match_print line with
  | Some e => LPrint e
  | None =>
  match Re.match_assign line with
  | Some (var, e) => LAssign var e
  | None => if String.eqb line "end" then LEnd else LUnknown
  end end end end end end.

(** The head of an open block: the node without its body. *)
Inductive opener : Type :=
  | ODef (name arg : string)
  | OIf (cond : string)
  | OFor (var lo hi : string).

Definition close (o : opener) (body : list stmt) : stmt :=
  match o with
  | ODef name arg => Def name arg body
  | OIf cond => If cond body
  | OFor var lo hi => For var lo hi body
  end.

(** The parser's [stack] of body lists.  In the source [stack[0]] is [ast]
    and [stack[i+1]] is the ["body"] list of the node appended last to
    [stack[i]]; appending to [stack[-1]] therefore grows the tree in place.
    Here the same tree is kept as its spine: [root] holds the items of [ast]
    before the first open block, and [frames] holds the open blocks,
    innermost first, each with the items appended to its body so far.
    [frames = None] is the stack from which [ast] itself was popped. *)
Record pstate : Type := PState {
  root : list stmt;
  frames : option (list (opener * list stmt));
  function_names : gset string
}.

(** The node that an open block of [fs] has become once [node], the
    innermost block, hangs at the end of the body of the block around it,
    and so on outwards. *)
Fixpoint plug (fs : list (opener * list stmt)) (node : stmt) : stmt :=
  match fs with
  | [] => node
  | (o, items) :: fs' => plug fs' (close o (items ++ [node]))
  end.

(** [ast] as the caller sees it: every open block is the last item of the
    block around it. *)
Definition ast_of (st : pstate) : list stmt :=
  match frames st with
  | None => root st
  | Some [] => root st
  | Some ((o, items) :: fs) => root st ++ [plug fs (close o items)]
  end.

(** [stack[-1].append(node)] *)
Definition append_node (node : stmt) (st : pstate) : res pstate :=
  match frames st with
  | None => Err (IndexError AtParseStack)
  | Some [] => Ok (PState (root st ++ [node]) (Some []) (function_names st))
  | Some ((o, items) :: fs) =>
      Ok (PState (root st) (Some ((o, items ++ [node]) :: fs)) (function_names st))
  end.

(** [stack[-1].append(node); stack.append(node["body"])] *)
Definition open_block (o : opener) (st : pstate) : res pstate :=
  match frames st with
  | None => Err (IndexError AtParseStack)
  | Some fs => Ok (PState (root st) (Some ((o, []) :: fs)) (function_names st))
  end.

(** [stack.pop()] *)
Definition pop_block (st : pstate) : res pstate :=
  match frames st with
  | None => Err (IndexError AtParseStack)
  | Some [] => Ok (PState (root st) None (function_names st))
  | Some [(o, items)] =>
      Ok (PState (root st ++ [close o items]) (Some []) (function_names st))
  | Some ((o, items) :: (o', items') :: fs) =>
      Ok (PState (root st) (Some ((o', items' ++ [close o items]) :: fs)) (function_names st))
  end.

Definition add_function (name : string) (st : pstate) : pstate :=
  PState (root st) (frames st) ({[name]} ∪ function_names st).

(** One iteration of the loop of [parse]. *)
Definition parse_line (st : pstate) (line : string) : res pstate :=
  match classify line with
  | LDef name arg => open_block (ODef name arg) (add_function name st)
  | LIf cond => open_block (OIf cond) st
  | LFor var lo hi => open_block (OFor var lo hi) st
  | LReturn e => append_node (Return e) st
  | LPrint e => append_node (Print e) st
  | LAssign var e => append_node (Assign var e) st
  | LEnd => pop_block st
  | LUnknown => Err (SyntaxError line)
  end.

Fixpoint parse_lines (st : pstate) (lines : list string) : res pstate :=
  match lines with
  | [] => Ok st
  | line :: rest =>
      match parse_line st line with
      | Ok st' => parse_lines st' rest
      | Err e => Err e
      end
  end.

(** [[l.strip() for l in lines if l.strip() and not l.strip().startswith("#")]] *)
Definition source_lines (lines : list string) : list string :=
  List.filter (λ l, negb (PyStr.is_empty l) && negb (PyStr.startswith "#" l))
              (List.map PyStr.strip lines).

(** [parse], from the function names already in the global set; it returns
    the AST and the function names it has added to that set. *)
Definition parse_from (known : gset string) (lines : list string)
  : res (list stmt * gset string) :=
  match parse_lines (PState [] (Some []) known) (source_lines lines) with
  | Ok st => Ok (ast_of st, function_names st)
  | Err e => Err e
  end.

Definition parse (lines : list string) : res (list stmt * gset string) :=
  parse_from ∅ lines.

(** *** Block nesting of a source text *)

(** The block that a line opens. *)
Definition opener_of (f : line_form) : option opener :=
  match f with
  | LDef name arg => Some (ODef name arg)
  | LIf cond => Some (OIf cond)
  | LFor var lo hi => Some (OFor var lo hi)
  | _ => None
  end.

(** One of the seven statement forms. *)
Definition recognized (line : string) : Prop := classify line ≠ LUnknown.

(** Every [end] finds something to close: a block, when [depth] blocks are
    open, or else the top level, and then it is the last line. *)
Fixpoint ends_matched (depth : nat) (lines : list string) : bool :=
  match lines with
  | [] => true
  | line :: rest =>
      match classify line with
      | LEnd =>
          match depth with
          | O => match rest with [] => true | _ => false end
          | S depth' => ends_matched depth' rest
          end
      | LDef _ _ | LIf _ | LFor _ _ _ => ends_matched (S depth) rest
      | _ => ends_matched depth rest
      end
  end.

(** The parser state [st], reached from an empty stack, seen from a parser
    whose stack held the open blocks [base] over the items [r]. *)
Definition graft (r : list stmt) (base : list (opener * list stmt)) (st : pstate)
  : pstate :=
  match frames st, base with
  | Some fs, [] => PState (r ++ root st) (Some fs) (function_names st)
  | Some fs, (o, items) :: below =>
      PState r (Some (fs ++ (o, items ++ root st) :: below)) (function_names st)
  | None, _ => st
  end.

Definition same_tree (st1 st2 : pstate) : Prop :=
  root st1 = root st2 ∧ frames st1 = frames st2.

Definition same_result (r1 r2 : res pstate) : Prop :=
  match r1, r2 with
  | Ok st1, Ok st2 => same_tree st1 st2
  | Err e1, Err e2 => e1 = e2
  | _, _ => False
  end.

(** ** Code generator *)

(** The code generator threads the global [counter]; a computation may also
    raise.  [None] is not a result of the source: it marks a recursion that
    ran out of the fuel given to [compile_expr_fuel], which does not happen
    (see [compile_expr_total] and [compile_total]). *)
Definition gen (A : Type) : Type := nat → option (res (A * nat)).

Definition gret {A} (a : A) : gen A := λ c, Some (Ok (a, c)).
Definition graise {A} (e : exn) : gen A := λ _, Some (Err e).
Definition gbind {A B} (m : gen A) (k : A → gen B) : gen B :=
  λ c, match m c with
       | Some (Ok (a, c')) => k a c'
       | Some (Err e) => Some (Err e)
       | None => None
       end.

Declare Scope gen_scope.
Delimit Scope gen_scope with gen.
Notation "'let*' p ':=' m 'in' k" := (gbind m (λ p, k))
  (at level 10, p pattern, m at level 100, k at level 200) : gen_scope.

(** [temp()] *)
Definition temp : gen string :=
  λ c, Some (Ok ("tmp" +:+ PyStr.str_of_nat (S c), S c)).

(** [a, b = parts]: exactly two values, or a [ValueError]. *)
Definition unpack2 (parts : list string) : gen (string * string) :=
  match parts with
  | [a; b] => gret (a, b)
  | [] => graise (ValueError "not enough values to unpack (expected 2, got 0)")
  | [_] => graise (ValueError "not enough values to unpack (expected 2, got 1)")
  | _ => graise (ValueError "too many values to unpack (expected 2)")
  end.

Definition instr1 (op a : string) : string := op +:+ " " +:+ a.
Definition instr2 (op a b : string) : string := op +:+ " " +:+ a +:+ " " +:+ b.
Definition instr3 (op a b c : string) : string :=
  op +:+ " " +:+ a +:+ " " +:+ b +:+ " " +:+ c.

(** [len(words) >= 2 and words[0] in function_names]: the called function
    and the text of its argument. *)
Definition as_call (fns : gset string) (expr : string) : option (string * string) :=
  match PyStr.split expr with
  | fn :: w :: ws =>
      if bool_decide (fn ∈ fns) then Some (fn, PyStr.join " " (w :: ws)) else None
  | _ => None
  end.

Section CompileExpr.
Variable fns : gset string.
Local Open Scope gen_scope.

(** The two sides of a binary operation and the instruction that ends it. *)
Definition binary (self : string → gen (string * list string))
           (op : string) (sep : ascii) (expr : string)
  : gen (string * list string) :=
  let* (a, b) := unpack2 (PyStr.split_on sep expr) in
  let* (ta, ca) := self (PyStr.strip a) in
  let* (tb, cb) := self (PyStr.strip b) in
  let* t := temp in
  gret (t, ca ++ cb ++ [instr3 op ta tb t]).

(** The body of [compile_expr] on the stripped text, with [self] for the
    recursive calls. *)
Definition compile_expr_body (self : string → gen (string * list string))
           (expr : string) : gen (string * list string) :=
  match as_call fns expr with
  | Some (fn_name, arg_expr) =>
      let* (arg_tmp, arg_code) := self arg_expr in
      let* tmp := temp in
      gret (tmp, arg_code ++ [instr1 "PUSH" arg_tmp; instr1 "CALL" fn_name;
                               instr2 "MOV" "_retval" tmp])
  | None =>
      if PyStr.contains "+" expr then binary self "ADD" "+" expr
      else if PyStr.contains "-" expr then binary self "SUB" "-" expr
      else gret (expr, [])
  end.

Fixpoint compile_expr_fuel (fuel : nat) (expr : string) : gen (string * list string) :=
  match fuel with
  | O => λ _, None
  | S fuel' =>
      compile_expr_body (compile_expr_fuel fuel') (PyStr.strip expr)
  end.

(** [compile_expr]: every recursive call is on a shorter text, so the
    length of the text bounds the depth of the recursion. *)
Definition compile_expr (expr : string) : gen (string * list string) :=
  compile_expr_fuel (S (String.length expr)) expr.

(** [compile_stmt(stmt, output)]: the instructions appended to [output]. *)
Fixpoint compile_stmt (s : stmt) : gen (list string) :=
  let fix compile_body (body : list stmt) : gen (list string) :=
    match body with
    | [] => gret []
    | s' :: body' =>
        let* code := compile_stmt s' in
        let* code' := compile_body body' in
        gret (code ++ code')
    end in
  match s with
  | Assign var expr =>
      let* (t, code) := compile_expr expr in
      gret (code ++ [instr2 "MOV" t var])
  | Return expr =>
      let* (t, code) := compile_expr expr in
      gret (code ++ [instr1 "RET" t])
  | If cond body =>
      let* (cond, _) := unpack2 (PyStr.split_on "<" cond) in
      let* (t, code) := compile_expr (PyStr.strip cond) in
      let* label := temp in
      let* body_code := compile_body body in
      gret (code ++ [instr3 "JGE" t "2" (label +:+ "_end")]
                 ++ body_code ++ [instr1 "LABEL" (label +:+ "_end")])
  | For var lo hi body =>
      let* (start_tmp, start_code) := compile_expr lo in
      let* (end_tmp, end_code) := compile_expr hi in
      let* loop_label := temp in
      let* end_label := temp in
      let* end_var := temp in
      let* body_code := compile_body body in
      let* inc_tmp := temp in
      gret (start_code ++ [instr2 "MOV" start_tmp var]
              ++ end_code ++ [instr2 "MOV" end_tmp end_var]
              ++ [instr1 "LABEL" (loop_label +:+ "_start")]
              ++ [instr3 "JGT" var end_var (end_label +:+ "_end")]
              ++ body_code
              ++ [instr3 "ADD" var "1" inc_tmp; instr2 "MOV" inc_tmp var]
              ++ [instr1 "JMP" (loop_label +:+ "_start")]
              ++ [instr1 "LABEL" (end_label +:+ "_end")])
  | Print expr =>
      let* (t, code) := compile_expr expr in
      gret (code ++ [instr1 "PRINT" t])
  | Def _ _ _ => gret []
  end.

Fixpoint compile_body (body : list stmt) : gen (list string) :=
  match body with
  | [] => gret []
  | s :: body' =>
      let* code := compile_stmt s in
      let* code' := compile_body body' in
      gret (code ++ code')
  end.

(** [compile_fn(fn)] for the fields of a [Def] node. *)
Definition compile_fn (name arg : string) (body : list stmt) : gen (list string) :=
  let* body_code := compile_body body in
  gret ([instr1 "LABEL" name; instr1 "PARAM" arg] ++ body_code).

(** The loop of [compile_all] over the rest of [ast], from the
    accumulated [code] and [main_code]. *)
Fixpoint compile_items (items : list stmt) (code main_code : list string)
  : gen (list string * list string) :=
  match items with
  | [] => gret (code, main_code)
  | item :: rest =>
      match item with
      | Def name arg body =>
          let* fn_code := compile_fn name arg body in
          compile_items rest (code ++ fn_code) main_code
      | Assign _ _ | Print _ | For _ _ _ _ =>
          let* stmt_code := compile_stmt item in
          compile_items rest code (main_code ++ stmt_code)
      | If _ _ | Return _ =>
          compile_items rest code main_code
      end
  end.

(** [compile_all(ast)] *)
Definition compile_all (ast : list stmt) : gen (list string) :=
  let* (code, main_code) := compile_items ast [] [] in
  gret (["JMP main"] ++ code ++ ["LABEL main"] ++ main_code ++ ["HALT"]).

End CompileExpr.

(** [compile(source)]: the globals are reset, so the result does not depend
    on earlier calls. *)
Definition compile (source : list string) : option (res (list string)) :=
  match parse_from ∅ source with
  | Err e => Some (Err e)
  | Ok (ast, fns) =>
      match compile_all fns ast 0%nat with
      | Some (Ok (assembly, _)) => Some (Ok assembly)
      | Some (Err e) => Some (Err e)
      | None => None
      end
  end.

(** *** The layout of a compiled program *)

(** The top-level items that [compile_all] compiles. *)
Definition compiled_at_top_level (item : stmt) : bool :=
  match item with
  | Def _ _ _ | Assign _ _ | Print _ | For _ _ _ _ => true
  | If _ _ | Return _ => false
  end.

Definition is_def (item : stmt) : bool :=
  match item with Def _ _ _ => true | _ => false end.

(** The instructions of one top-level item. *)
Definition item_code (fns : gset string) (item : stmt) : gen (list string) :=
  match item with
  | Def name arg body => compile_fn fns name arg body
  | _ => compile_stmt fns item
  end.

(** The items compiled one after the other, each with its instructions. *)
Fixpoint compile_in_order (fns : gset string) (items : list stmt)
  : gen (list (stmt * list string)) :=
  match items with
  | [] => gret []
  | item :: rest =>
      gbind (item_code fns item) (λ code,
        gbind (compile_in_order fns rest) (λ blocks,
          gret ((item, code) :: blocks)))
  end.

(** The instructions of the items of one kind, in order. *)
Definition block_of (kind : stmt → bool) (blocks : list (stmt * list string))
  : list string :=
  concat (snd <$> List.filter (λ b, kind b.1) blocks).

(** The AST alone, as [parse] returns it. *)
Definition parse_ast (lines : list string) : res (list stmt) :=
  match parse lines with
  | Ok (ast, _) => Ok ast
  | Err e => Err e
  end.

(** ** Virtual machine *)

(** The fields of [VirtualHardware] that the machine uses ([bp] is never
    read). The top of [scope_stack] is the head of the list: the global
    scope, [scope_stack[0]] of the source, is its last element. *)
Record vm : Type := VM {
  memory : list Z;
  registers : list Z;
  stack : list Z;
  pc : Z;
  sp : nat;
  labels : gmap string nat;
  next_mem_addr : nat;
  scope_stack : list (gmap string nat);
  program : list string;
  output : list string
}.

Definition set_memory (x : list Z) (s : vm) : vm :=
  VM x (registers s) (stack s) (pc s) (sp s) (labels s) (next_mem_addr s)
     (scope_stack s) (program s) (output s).
Definition set_registers (x : list Z) (s : vm) : vm :=
  VM (memory s) x (stack s) (pc s) (sp s) (labels s) (next_mem_addr s)
     (scope_stack s) (program s) (output s).
Definition set_stack (x : list Z) (s : vm) : vm :=
  VM (memory s) (registers s) x (pc s) (sp s) (labels s) (next_mem_addr s)
     (scope_stack s) (program s) (output s).
Definition set_pc (x : Z) (s : vm) : vm :=
  VM (memory s) (registers s) (stack s) x (sp s) (labels s) (next_mem_addr s)
     (scope_stack s) (program s) (output s).
Definition set_sp (x : nat) (s : vm) : vm :=
  VM (memory s) (registers s) (stack s) (pc s) x (labels s) (next_mem_addr s)
     (scope_stack s) (program s) (output s).
Definition set_labels (x : gmap string nat) (s : vm) : vm :=
  VM (memory s) (registers s) (stack s) (pc s) (sp s) x (next_mem_addr s)
     (scope_stack s) (program s) (output s).
Definition set_next_mem_addr (x : nat) (s : vm) : vm :=
  VM (memory s) (registers s) (stack s) (pc s) (sp s) (labels s) x
     (scope_stack s) (program s) (output s).
Definition set_scope_stack (x : list (gmap string nat)) (s : vm) : vm :=
  VM (memory s) (registers s) (stack s) (pc s) (sp s) (labels s) (next_mem_addr s)
     x (program s) (output s).
Definition set_program (x : list string) (s : vm) : vm :=
  VM (memory s) (registers s) (stack s) (pc s) (sp s) (labels s) (next_mem_addr s)
     (scope_stack s) x (output s).
Definition set_output (x : list string) (s : vm) : vm :=
  VM (memory s) (registers s) (stack s) (pc s) (sp s) (labels s) (next_mem_addr s)
     (scope_stack s) (program s) x.

Definition memory_size : nat := 512.
Definition stack_size : nat := 16.

(** [VirtualHardware()] *)
Definition new_vm : vm :=
  VM (replicate memory_size 0) (replicate 16 0) (replicate stack_size 0)
     0 0 ∅ 0 [∅] [] [].

(** A method of the machine: it may change the machine, and it returns or
    raises; the machine is kept as the exception left it. *)
Definition method (A : Type) : Type := vm → res A * vm.

Definition vret {A} (a : A) : method A := λ s, (Ok a, s).
Definition vraise {A} (e : exn) : method A := λ s, (Err e, s).
Definition vbind {A B} (m : method A) (k : A → method B) : method B :=
  λ s, match m s with
       | (Ok a, s') => k a s'
       | (Err e, s') => (Err e, s')
       end.
Definition update (f : vm → vm) : method unit := λ s, (Ok tt, f s).
Definition read {A} (f : vm → A) : method A := λ s, (Ok (f s), s).

Declare Scope vm_scope.
Delimit Scope vm_scope with vm.
Notation "'let*' p ':=' m 'in' k" := (vbind m (λ p, k))
  (at level 10, p pattern, m at level 100, k at level 200) : vm_scope.
Notation "m ';;' k" := (vbind m (λ _, k))
  (at level 100, k at level 200, right associativity) : vm_scope.

Section Machine.
Local Open Scope vm_scope.

(** [is_temp_var] *)
Definition is_temp_var (var_name : string) : bool :=
  PyStr.startswith "tmp" var_name && PyStr.isdigit (PyStr.drop 3 var_name).

(** [get_temp_register] *)
Definition get_temp_register (var_name : string) : option nat :=
  if is_temp_var var_name
  then Some (Z.to_nat (PyStr.int_of_digits (PyStr.drop 3 var_name) `mod` 16))
  else None.

(** [get_var_addr] *)
Definition get_var_addr (var_name : string) : method (option nat) :=
  if is_temp_var var_name then vret None
  else
    let* scopes := read scope_stack in
    match scopes with
    | [] => vraise (IndexError AtScopeTop)
    | current_scope :: below =>
        match current_scope !! var_name with
        | Some addr => vret (Some addr)
        | None =>
            let* addr := read next_mem_addr in
            update (set_next_mem_addr (addr + 1)%nat) ;;
            update (set_scope_stack (<[var_name := addr]> current_scope :: below)) ;;
            vret (Some addr)
        end
    end.

(** [int(arg)] *)
Definition py_int (arg : string) : method Z :=
  match PyStr.int_of_token arg with
  | Some z => vret z
  | None => vraise (ValueError arg)
  end.

(** [cells[index]] *)
Definition load (site : index_site) (cells : vm → list Z) (index : option nat)
  : method Z :=
  match index with
  | None => vraise TypeError
  | Some i =>
      let* l := read cells in
      match l !! i with
      | Some v => vret v
      | None => vraise (IndexError site)
      end
  end.

(** [cells[index] = value] *)
Definition store (site : index_site) (cells : vm → list Z)
           (set_cells : list Z → vm → vm) (index : option nat) (value : Z)
  : method unit :=
  match index with
  | None => vraise TypeError
  | Some i =>
      let* l := read cells in
      if decide (i < length l)%nat then update (set_cells (<[i := value]> l))
      else vraise (IndexError site)
  end.

(** [eval_arg] *)
Definition eval_arg (arg : string) : method Z :=
  if PyStr.isdigit arg || (PyStr.startswith "-" arg && PyStr.isdigit (PyStr.drop 1 arg))
  then py_int arg
  else if is_temp_var arg then
    load AtRegisters registers (get_temp_register arg)
  else
    let* addr := get_var_addr arg in
    load AtMemory memory addr.

(** [set_var] *)
Definition set_var (var_name : string) (value : Z) : method unit :=
  if is_temp_var var_name then
    store AtRegisters registers set_registers (get_temp_register var_name) value
  else
    let* addr := get_var_addr var_name in
    store AtMemory memory set_memory addr value.

(** [push] *)
Definition push (value : Z) : method unit :=
  let* p := read sp in
  let* st := read stack in
  if decide (length st ≤ p)%nat then vraise StackOverflow
  else
    update (set_stack (<[p := value]> st)) ;;
    update (set_sp (p + 1)%nat).

(** [pop] *)
Definition pop : method Z :=
  let* p := read sp in
  match p with
  | O => vraise StackUnderflow
  | S p' =>
      update (set_sp p') ;;
      let* st := read stack in
      match st !! p' with
      | Some v => vret v
      | None => vraise (IndexError AtStack)
      end
  end.

(** [parts[k]] *)
Definition part (parts : list string) (k : nat) : method string :=
  match parts !! k with
  | Some tok => vret tok
  | None => vraise (IndexError AtParts)
  end.

(** [self.labels[label]] *)
Definition label_index (label : string) : method Z :=
  let* ls := read labels in
  match ls !! label with
  | Some i => vret (Z.of_nat i)
  | None => vraise (KeyError label)
  end.

(** How one iteration of the loop of [run] ends: at [self.pc += 1], at a
    [continue], or at a [break]. *)
Inductive signal : Type := Advance | Continue | Break.

Definition jump (label : string) : method signal :=
  let* target := label_index label in
  update (set_pc target) ;;
  vret Continue.

(** The opcodes that [run] knows. *)
Definition opcodes : list string :=
  ["LABEL"; "JMP"; "PARAM"; "MOV"; "ADD"; "SUB"; "RET"; "JGE"; "JGT";
   "PUSH"; "CALL"; "PRINT"; "HALT"].

(** The body of the loop of [run] for the instruction [instr]. *)
Definition exec (instr : string) : method signal :=
  let parts := PyStr.split instr in
  let* op := part parts 0 in
  if String.eqb op "LABEL" then vret Advance
  else if String.eqb op "JMP" then
    let* label := part parts 1 in
    jump label
  else if String.eqb op "PARAM" then
    let* val := pop in
    let* var := part parts 1 in
    set_var var val ;;
    vret Advance
  else if String.eqb op "MOV" then
    let* src := part parts 1 in
    let* val := eval_arg src in
    let* dst := part parts 2 in
    set_var dst val ;;
    vret Advance
  else if String.eqb op "ADD" then
    let* a := part parts 1 in
    let* a := eval_arg a in
    let* b := part parts 2 in
    let* b := eval_arg b in
    let* dst := part parts 3 in
    set_var dst (a + b) ;;
    vret Advance
  else if String.eqb op "SUB" then
    let* a := part parts 1 in
    let* a := eval_arg a in
    let* b := part parts 2 in
    let* b := eval_arg b in
    let* dst := part parts 3 in
    set_var dst (a - b) ;;
    vret Advance
  else if String.eqb op "RET" then
    let* val := part parts 1 in
    let* val := eval_arg val in
    let* ret_addr := pop in
    let* scopes := read scope_stack in
    match scopes with
    | [] => vraise (IndexError AtScopePop)
    | _ :: below =>
        update (set_scope_stack below) ;;
        set_var "_retval" val ;;
        update (set_pc ret_addr) ;;
        vret Continue
    end
  else if String.eqb op "JGE" then
    let* val := part parts 1 in
    let* val := eval_arg val in
    let* threshold := part parts 2 in
    let* threshold := py_int threshold in
    let* label := part parts 3 in
    if decide (val >= threshold) then jump label else vret Advance
  else if String.eqb op "JGT" then
    let* val := part parts 1 in
    let* val := eval_arg val in
    let* threshold := part parts 2 in
    let* threshold := eval_arg threshold in
    let* label := part parts 3 in
    if decide (val > threshold) then jump label else vret Advance
  else if String.eqb op "PUSH" then
    let* val := part parts 1 in
    let* val := eval_arg val in
    push val ;;
    vret Advance
  else if String.eqb op "CALL" then
    let* arg := pop in
    let* here := read pc in
    let ret_addr := here + 1 in
    push ret_addr ;;
    push arg ;;
    let* scopes := read scope_stack in
    update (set_scope_stack (∅ :: scopes)) ;;
    let* label := part parts 1 in
    jump label
  else if String.eqb op "PRINT" then
    let* val := part parts 1 in
    let* val := eval_arg val in
    let* out := read output in
    update (set_output (out ++ [PyStr.str_of_Z val])) ;;
    vret Advance
  else if String.eqb op "HALT" then vret Break
  else vret Break.

(** [self.program[self.pc]], with Python's negative indices. *)
Definition fetch (s : vm) : res string :=
  let n := Z.of_nat (length (program s)) in
  let i := if decide (pc s < 0) then n + pc s else pc s in
  if decide (i < 0) then Err (IndexError AtProgram)
  else match program s !! Z.to_nat i with
       | Some instr => Ok instr
       | None => Err (IndexError AtProgram)
       end.

End Machine.

(** What a call of [run] came to after a number of iterations of its loop. *)
Inductive outcome : Type :=
  | Returned (out : list string)
  | Raised (e : exn)
  | Running.

(** The loop of [run], for at most [fuel] iterations. *)
Fixpoint run_loop (fuel : nat) (s : vm) : outcome * vm :=
  if decide (pc s < Z.of_nat (length (program s))) then
    match fuel with
    | O => (Running, s)
    | S fuel' =>
        match fetch s with
        | Err e => (Raised e, s)
        | Ok instr =>
            match exec instr s with
            | (Ok Advance, s') => run_loop fuel' (set_pc (pc s' + 1) s')
            | (Ok Continue, s') => run_loop fuel' s'
            | (Ok Break, s') => (Returned (output s'), s')
            | (Err e, s') => (Raised e, s')
            end
        end
    end
  else (Returned (output s), s).

(** [run] *)
Definition run (fuel : nat) (s : vm) : outcome * vm :=
  run_loop fuel (set_output [] (set_sp 0 (set_pc 0 s))).

(** The first pass of [load_program] over the lines from index [i] on. *)
Fixpoint label_map (i : nat) (code : list string) (ls : gmap string nat)
  : res (gmap string nat) :=
  match code with
  | [] => Ok ls
  | line :: rest =>
      if PyStr.startswith "LABEL " line then
        match PyStr.split line !! 1%nat with
        | Some label_name => label_map (S i) rest (<[label_name := i]> ls)
        | None => Err (IndexError AtLabelName)
        end
      else label_map (S i) rest ls
  end.

(** [load_program] *)
Definition load_program (code : list string) (s : vm) : res vm :=
  match label_map 0 code ∅ with
  | Ok ls => Ok (set_labels ls (set_program code s))
  | Err e => Err e
  end.

(** [execute(code)]: the outcome and the machine it leaves behind. *)
Definition execute_vm (fuel : nat) (code : list string) : outcome * vm :=
  match load_program code new_vm with
  | Ok s => run fuel s
  | Err e => (Raised e, set_program code new_vm)
  end.

Definition execute (fuel : nat) (code : list string) : outcome :=
  fst (execute_vm fuel code).

(** *** Addresses and the size of the memory *)

(** Every address bound in a scope was handed out by [get_var_addr]: it is
    below [next_mem_addr]; and the memory keeps its size. *)
Definition addresses_allocated (s : vm) : Prop :=
  Forall (map_Forall (λ (_ : string) (addr : nat), (addr < next_mem_addr s)%nat))
         (scope_stack s).

Definition well_formed (s : vm) : Prop :=
  length (memory s) = memory_size ∧ addresses_allocated s.

(** [m], started in a well-formed machine that satisfies [P], leaves a
    well-formed machine; its result satisfies [Q]; and if it raises the
    [IndexError] of a memory access, more addresses have been handed out
    than the memory has cells. *)
Definition triple {A} (P : vm → Prop) (m : method A) (Q : A → vm → Prop) : Prop :=
  ∀ s, well_formed s → P s →
    well_formed (m s).2
    ∧ match (m s).1 with
      | Ok a => Q a (m s).2
      | Err e => e = IndexError AtMemory → (memory_size < next_mem_addr (m s).2)%nat
      end.

(** ** The programs of the test cases *)

(** A blank source line. *)
Definition blank : string := EmptyString.

Definition fib_source : list string :=
  ["def fib n"; "if n < 2"; "return n"; "end"; "a = fib n - 1"; "b = fib n - 2";
   "return a + b"; "end"; blank; "main = fib 9"; "print main"].

Definition fib_assembly : list string :=
  ["JMP main"; "LABEL fib"; "PARAM n"; "JGE n 2 tmp1_end"; "RET n";
   "LABEL tmp1_end"; "SUB n 1 tmp2"; "PUSH tmp2"; "CALL fib";
   "MOV _retval tmp3"; "MOV tmp3 a"; "SUB n 2 tmp4"; "PUSH tmp4";
   "CALL fib"; "MOV _retval tmp5"; "MOV tmp5 b"; "ADD a b tmp6";
   "RET tmp6"; "LABEL main"; "PUSH 9"; "CALL fib";
   "MOV _retval tmp7"; "MOV tmp7 main"; "PRINT main"; "HALT"].

Definition for_loop_source : list string :=
  ["sum = 0"; "for i from 1 to 5"; "sum = sum + i"; "print i"; "end"; "print sum";
   blank; "for j from 10 to 12"; "print j"; "end"].

Definition even_odd_source : list string :=
  ["def is_even n"; "if n < 1"; "return 1"; "end"; "return is_odd n - 1"; "end";
   blank;
   "def is_odd n"; "if n < 1"; "return 0"; "end"; "return is_even n - 1"; "end";
   blank;
   "result = is_even 6"; "print result"; "result = is_even 5"; "print result"].

(** [execute(compile(source))] within [fuel] iterations of the loop. *)
Definition compile_and_execute (fuel : nat) (source : list string) : option outcome :=
  match compile source with
  | Some (Ok assembly) => Some (execute fuel assembly)
  | Some (Err e) => Some (Raised e)
  | None => None
  end.

(** The expression of C3 with values for its variables. *)
Definition abc_source : list string :=
  ["a = 10"; "b = 3"; "c = 2"; "print a - b + c"].
Definition abc_assembly : list string :=
  ["JMP main"; "LABEL main"; "MOV 10 a"; "MOV 3 b"; "MOV 2 c";
   "SUB a b tmp1"; "ADD tmp1 c tmp2"; "PRINT tmp2"; "HALT"].

Definition dropped_source : list string :=
  ["print 1"; "if x < 2"; "print 2"; "end"; "return 3"; "print 4"].

Definition stray_end_source : list string := ["end"; "if a"; "x = 1"].

Definition unclosed_source : list string :=
  ["x = 1"; "def f n"; "y = 2"; "if n < 2"; "print n"; blank; "print y"].

Definition many_calls_source : list string :=
  ["def f n"; "return n"; "end"; "for i from 1 to 600"; "x = f i"; "end"].
Definition many_calls_assembly : list string :=
  ["JMP main"; "LABEL f"; "PARAM n"; "RET n"; "LABEL main";
   "MOV 1 i"; "MOV 600 tmp3"; "LABEL tmp1_start";
   "JGT i tmp3 tmp2_end"; "PUSH i"; "CALL f"; "MOV _retval tmp4";
   "MOV tmp4 x"; "ADD i 1 tmp5"; "MOV tmp5 i"; "JMP tmp1_start";
   "LABEL tmp2_end"; "HALT"].

(** A program that reads [x] before it sets it. *)
Definition print_then_set : list string := ["PRINT x"; "MOV 1 x"].

(** A program with an instruction that is none of the machine's. *)
Definition unknown_opcode_program : list string :=
  ["PRINT 1"; "FOO 1 2"; "PRINT 2"].

(** The same comparison against a variable, with [JGE] and with [JGT]. *)
Definition jge_variable_threshold : list string :=
  ["MOV 1 x"; "JGE 5 x done"; "PRINT 0"; "LABEL done"; "HALT"].
Definition jgt_variable_threshold : list string :=
  ["MOV 1 x"; "JGT 5 x done"; "PRINT 0"; "LABEL done"; "HALT"].

(** A function that calls a function: [g] is called from the main block
    and from [f]. *)
Definition nested_calls_source : list string :=
  ["def g n"; "return n"; "end"; "def f n"; "a = g n"; "return a"; "end";
   "x = g 1"; "y = f 2"; "print y"].

Definition nested_calls_assembly : list string :=
  ["JMP main"; "LABEL g"; "PARAM n"; "RET n"; "LABEL f"; "PARAM n";
   "PUSH n"; "CALL g"; "MOV _retval tmp1"; "MOV tmp1 a"; "RET a";
   "LABEL main"; "PUSH 1"; "CALL g"; "MOV _retval tmp2";
   "MOV tmp2 x"; "PUSH 2"; "CALL f"; "MOV _retval tmp3";
   "MOV tmp3 y"; "PRINT y"; "HALT"].

(** The machine after [get_var_addr] has bound a new name. *)
Definition bound (tok : string) (top : gmap string nat) (below : list (gmap string nat))
           (s : vm) : vm :=
  set_scope_stack (<[tok := next_mem_addr s]> top :: below)
                  (set_next_mem_addr (next_mem_addr s + 1)%nat s).

(** A machine inside a call: the callee has bound [n], the global scope
    holds [_retval]. *)
Definition in_call : vm :=
  set_scope_stack [ {["n" := 1%nat]}; {["_retval" := 0%nat]} ]
                  (set_next_mem_addr 2 new_vm).

(** *** Measures of texts *)

(** What a list of words adds to the length of [" ".join(...)] when it
    follows an earlier word. *)
Definition after_word (l : list string) : nat :=
  match l with
  | [] => 0
  | _ => 1 + String.length (PyStr.join " " l)
  end.

(** The length of the fields of a split, each with its separator. *)
Fixpoint fields_length (l : list string) : nat :=
  match l with
  | [] => 0
  | w :: l' => 1 + String.length w + fields_length l'
  end.

(** *** Code generation that comes to an end *)

(** [m] never runs out of fuel. *)
Definition total {A} (m : gen A) : Prop := ∀ c, m c ≠ None.

(** *** Conditions on the machine that say nothing *)

Definition any : vm → Prop := λ _, True.
Definition anything {A} : A → vm → Prop := λ _ _, True.

(** *** The elementary changes of the machine *)

(** Everything an instruction does to the machine is a sequence of these
    changes, each with what is known when the source makes it. *)
Inductive change : vm → vm → Prop :=
  | change_pc s target :
      change s (set_pc target s)
  | change_push s value :
      (sp s < length (stack s))%nat →
      change s (set_sp (sp s + 1) (set_stack (<[sp s := value]> (stack s)) s))
  | change_pop s p :
      sp s = S p →
      change s (set_sp p s)
  | change_bind s top below name :
      scope_stack s = top :: below → top !! name = None →
      change s (bound name top below s)
  | change_call s :
      change s (set_scope_stack (∅ :: scope_stack s) s)
  | change_return s top below :
      scope_stack s = top :: below →
      change s (set_scope_stack below s)
  | change_register s r value :
      (r < length (registers s))%nat →
      change s (set_registers (<[r := value]> (registers s)) s)
  | change_memory s addr value :
      (addr < next_mem_addr s)%nat → (addr < length (memory s))%nat →
      change s (set_memory (<[addr := value]> (memory s)) s)
  | change_output s line :
      change s (set_output (output s ++ [line]) s).

(** The sizes of the hardware. *)
Definition shape (s : vm) : Prop :=
  length (memory s) = memory_size ∧ length (registers s) = 16%nat
  ∧ length (stack s) = stack_size ∧ (sp s ≤ stack_size)%nat.

(** No two bindings, of whatever scopes, share an address. *)
Definition addresses_distinct (s : vm) : Prop :=
  ∀ i j scope1 scope2 name1 name2 addr,
    scope_stack s !! i = Some scope1 → scope_stack s !! j = Some scope2 →
    scope1 !! name1 = Some addr → scope2 !! name2 = Some addr →
    i = j ∧ name1 = name2.

(** The cells that were not handed out yet hold 0. *)
Definition unused_cells_zero (s : vm) : Prop :=
  ∀ addr value,
    memory s !! addr = Some value → (next_mem_addr s ≤ addr)%nat → value = 0.

Definition good (s : vm) : Prop :=
  shape s ∧ addresses_allocated s ∧ addresses_distinct s ∧ unused_cells_zero s.

(** What a later machine [s] keeps of an earlier one [s0]. *)
Definition extends (s0 s : vm) : Prop :=
  program s = program s0 ∧ labels s = labels s0
  ∧ output s0 `prefix_of` output s
  ∧ (next_mem_addr s0 ≤ next_mem_addr s)%nat.

(** The exceptions of the machine: a malformed or unrunnable program. *)
Definition machine_error (e : exn) : Prop :=
  match e with
  | ValueError _ | KeyError _ | StackOverflow | StackUnderflow => True
  | IndexError site =>
      match site with
      | AtParts | AtLabelName | AtMemory | AtScopeTop | AtScopePop | AtProgram => True
      | AtRegisters | AtStack | AtParseStack => False
      end
  | SyntaxError _ | TypeError => False
  end.

(** A method that, on a good machine, makes elementary changes only and
    raises machine errors only. *)
Definition behaves {A} (m : method A) : Prop :=
  ∀ s, good s →
    rtc change s (m s).2 ∧ ∀ e, (m s).1 = Err e → machine_error e.

(** The machine on which [run] starts its loop, loaded with [code] and the
    label table [ls]. *)
Definition start (code : list string) (ls : gmap string nat) : vm :=
  set_output [] (set_sp 0 (set_pc 0 (set_labels ls (set_program code new_vm)))).

(** *** The label table *)

(** The line is a [LABEL] line for [load_program], and names [label]. *)
Definition declares (line label : string) : Prop :=
  PyStr.startswith "LABEL " line = true ∧ PyStr.split line !! 1%nat = Some label.

(** *** What the code generator gives *)

(** A generator step that, from every counter, gives a value in [Q] without
    lowering the counter, or raises an exception in [E]. *)
Definition yields {A} (m : gen A) (Q : A → Prop) (E : exn → Prop) : Prop :=
  ∀ c, match m c with
       | Some (Ok (a, c')) => Q a ∧ (c ≤ c')%nat
       | Some (Err e) => E e
       | None => True
       end.

(** The first token of the instruction is an opcode of [run]. *)
Definition known_opcode (instr : string) : Prop :=
  ∃ op, PyStr.split instr !! 0%nat = Some op ∧ op ∈ opcodes.

(** The [ValueError] of an unpacking [a, b = ...]. *)
Definition unpack_error (e : exn) : Prop := ∃ what, e = ValueError what.

(** The instructions of a result of [compile_expr]. *)
Definition expr_known (r : string * list string) : Prop := Forall known_opcode r.2.

(** *** Texts whose blocks are closed *)

(** The lines are a sequence of statements in which every block is closed
    by its own [end], and [ast] is the tree that the nesting describes. *)
Inductive nested : list string → list stmt → Prop :=
  | nested_nil : nested [] []
  | nested_return line e lines ast :
      classify line = LReturn e → nested lines ast →
      nested (line :: lines) (Return e :: ast)
  | nested_print line e lines ast :
      classify line = LPrint e → nested lines ast →
      nested (line :: lines) (Print e :: ast)
  | nested_assign line var e lines ast :
      classify line = LAssign var e → nested lines ast →
      nested (line :: lines) (Assign var e :: ast)
  | nested_block line o body items fin lines ast :
      opener_of (classify line) = Some o → nested body items →
      classify fin = LEnd → nested lines ast →
      nested (line :: body ++ fin :: lines) (close o items :: ast).

(** The names of the [def] nodes of a statement, at any depth. *)
Fixpoint def_names (s : stmt) : gset string :=
  let fix of_body (body : list stmt) : gset string :=
    match body with
    | [] => ∅
    | s' :: body' => def_names s' ∪ of_body body'
    end in
  match s with
  | Def name _ body => {[name]} ∪ of_body body
  | If _ body | For _ _ _ body => of_body body
  | Return _ | Print _ | Assign _ _ => ∅
  end.

Fixpoint defs_of (body : list stmt) : gset string :=
  match body with
  | [] => ∅
  | s :: body' => def_names s ∪ defs_of body'
  end.

(** The names of the [def] blocks among the open blocks, and in their items. *)
Definition opener_names (o : opener) : gset string :=
  match o with
  | ODef name _ => {[name]}
  | OIf _ | OFor _ _ _ => ∅
  end.

Fixpoint frames_names (fs : list (opener * list stmt)) : gset string :=
  match fs with
  | [] => ∅
  | (o, items) :: fs' => opener_names o ∪ defs_of items ∪ frames_names fs'
  end.

Definition state_names (st : pstate) : gset string :=
  defs_of (root st) ∪ match frames st with
                      | Some fs => frames_names fs
                      | None => ∅
                      end.

(** Only whitespace. *)
Definition blank_text (s : string) : Prop := PyStr.forallb PyStr.is_space s = true.

(** *** Tokens *)

(** A field that [instr.split()] reads back as one token: not empty, and
    without whitespace. *)
Definition token (s : string) : Prop :=
  PyStr.is_empty s = false ∧ PyStr.forallb (λ a, negb (PyStr.is_space a)) s = true.

(** *** Programs that print numerals *)

(** A program that prints numerals: the line [print d]. *)
Definition print_line (d : string) : string := "print " +:+ d.

(** What [PRINT] writes for the numeral [d]: [str(int(d))]. *)
Definition printed (d : string) : string := PyStr.str_of_Z (PyStr.int_of_digits d).

(** *** Calls of [execute] in one process *)

(** What the calls of [execute] in one Python process can share: the list
    objects that hold assembly, by reference, and the [VirtualHardware]
    objects made so far.  [execute] names no module global: the globals
    [function_names] and [counter] belong to [parse] and the code
    generator. *)
Record process : Type := Process {
  lists : gmap nat (list string);
  machines : list vm
}.

(** [execute(code)] with [code] the list object at [ref].  The machine is a
    new object, [VirtualHardware()], whatever machines there are;
    [load_program] stores the list itself, [self.program = code], so the
    list object is afterwards what the run has left in [program]; the
    machine stays behind.  [None]: there is no such list object. *)
Definition execute_call (fuel : nat) (ref : nat) (p : process)
  : option (outcome * process) :=
  match lists p !! ref with
  | None => None
  | Some code =>
      let '(o, s) := execute_vm fuel code in
      Some (o, Process (<[ref := program s]> (lists p)) (machines p ++ [s]))
  end.

(** One call of [execute], on whatever list and for however long. *)
Definition execute_step (p p' : process) : Prop :=
  ∃ fuel ref o, execute_call fuel ref p = Some (o, p').

(** *** The digit limit of the interpreter *)

(** [int()] and [str()] raise a [ValueError] on a numeral of more digits
    than this, the interpreter's default (sign and underscores not
    counted); the conversions above do not.  What is stated below about a
    conversion that succeeds is stated within this limit. *)
Definition max_str_digits : nat := 4300.

(* ================================================================== *)
(** * Properties *)

(** ** Python string primitives on examples *)

Example strip_ex : PyStr.strip "  fib n - 1 " = "fib n - 1".
Proof. reflexivity. Qed.
Example split_ex : PyStr.split " fib  n - 1" = ["fib"; "n"; "-"; "1"].
Proof. reflexivity. Qed.
Example split_on_ex : PyStr.split_on "+" "a + b+" = ["a "; " b"; blank].
Proof. reflexivity. Qed.
Example str_ex :
  PyStr.str_of_Z (-34) = "-34" ∧ PyStr.str_of_Z 0 = "0" ∧ PyStr.str_of_nat 12 = "12".
Proof. repeat split; reflexivity. Qed.
Example int_ex :
  PyStr.int_of_token "-1_0" = Some (-10) ∧ PyStr.int_of_token "x" = None
  ∧ PyStr.int_of_token "1__0" = None ∧ PyStr.int_of_token "+007" = Some 7.
Proof. repeat split; reflexivity. Qed.
Example classify_ex :
  classify "for i from 1 to 5 to 7" = LFor "i" "1 to 5" "7"
  ∧ classify "x=  3" = LAssign "x" "3"
  ∧ classify "for i from  to 5" = LUnknown
  ∧ classify "print = 5" = LPrint "= 5".
Proof. repeat split; reflexivity. Qed.

(** ** The loop of [run] and its fuel *)

(** More iterations do not change an outcome that was reached. *)
Lemma run_loop_more fuel : ∀ s o s' k,
  run_loop fuel s = (o, s') → o ≠ Running → run_loop (fuel + k) s = (o, s').
Proof.
  induction fuel as [|fuel IH]; intros s o s' k Hrun Hfin.
  - simpl in Hrun. destruct k; simpl; case_decide; congruence.
  - simpl in *. case_decide; [|done].
    destruct (fetch s) as [instr|e]; [|done].
    destruct (exec instr s) as [[[]|e] s1]; eauto.
Qed.

Lemma run_loop_le fuel fuel' s o s' :
  run_loop fuel s = (o, s') → o ≠ Running → (fuel ≤ fuel')%nat →
  run_loop fuel' s = (o, s').
Proof.
  intros Hrun Hfin Hle. replace fuel' with (fuel + (fuel' - fuel))%nat by lia.
  by apply run_loop_more.
Qed.

Lemma execute_vm_le fuel fuel' code o s' :
  execute_vm fuel code = (o, s') → o ≠ Running → (fuel ≤ fuel')%nat →
  execute_vm fuel' code = (o, s').
Proof.
  unfold execute_vm, run. destruct (load_program code new_vm); [|done].
  apply run_loop_le.
Qed.

Lemma execute_le fuel fuel' code o :
  execute fuel code = o → o ≠ Running → (fuel ≤ fuel')%nat →
  execute fuel' code = o.
Proof.
  unfold execute. intros Ho Hfin Hle.
  destruct (execute_vm fuel code) as [o1 s1] eqn:E. simpl in Ho. subst o1.
  by rewrite (execute_vm_le _ _ _ _ _ E Hfin Hle).
Qed.

(** ** C1: the Fibonacci program, end to end *)

(** C1. Compiling the Fibonacci source gives the listed assembly, and
    executing that assembly returns exactly the output ["34"]: the loop of
    [run] stops within 2000 iterations, and with any larger number of
    iterations the outcome is the same. *)
Theorem fib_end_to_end :
  compile fib_source = Some (Ok fib_assembly)
  ∧ ∀ fuel, (2000 ≤ fuel)%nat → execute fuel fib_assembly = Returned ["34"].
Proof.
  split; [vm_compute; reflexivity|].
  intros fuel Hfuel. apply (execute_le 2000); [|done|done].
  vm_compute. reflexivity.
Qed.

Lemma fib_end_to_end_witness : execute 2500 fib_assembly = Returned ["34"].
Proof. apply (proj2 fib_end_to_end 2500%nat). lia. Defined.

(** The other two test cases of the source file.  In the second one the
    conditions [n < 1] are lowered to a comparison with the literal 2 like
    any other, so the recursion stops at n = 1. *)
Example for_loop_end_to_end :
  compile_and_execute 200 for_loop_source
  = Some (Returned ["1"; "2"; "3"; "4"; "5"; "15"; "10"; "11"; "12"]).
Proof. vm_compute. reflexivity. Qed.

Example even_odd_end_to_end :
  compile_and_execute 200 even_odd_source = Some (Returned ["0"; "1"]).
Proof. vm_compute. reflexivity. Qed.

(** ** C7: an unknown opcode *)

(** C7, as stated, fails: at the unknown opcode [FOO] the run stops like at
    [HALT] and returns the output printed so far; nothing is raised. *)
Lemma unknown_opcode_counterexample :
  execute 10 unknown_opcode_program = Returned ["1"]
  ∧ ¬ ∃ e, execute 10 unknown_opcode_program = Raised e.
Proof.
  split; [vm_compute; reflexivity|].
  intros [e He]. vm_compute in He. discriminate.
Qed.

Lemma eqb_of_not_in (op : string) (known : list string) :
  op ∉ known → Forall (λ k, String.eqb op k = false) known.
Proof.
  intros Hnot. apply Forall_forall. intros k Hk.
  apply String.eqb_neq. intros ->. done.
Qed.

Lemma vbind_vret {A B} (a : A) (k : A → method B) : vbind (vret a) k = k a.
Proof. reflexivity. Qed.

Lemma part_0 (tok : string) (toks : list string) : part (tok :: toks) 0 = vret tok.
Proof. reflexivity. Qed.
Lemma part_1 (t0 tok : string) (toks : list string) :
  part (t0 :: tok :: toks) 1 = vret tok.
Proof. reflexivity. Qed.
Lemma part_2 (t0 t1 tok : string) (toks : list string) :
  part (t0 :: t1 :: tok :: toks) 2 = vret tok.
Proof. reflexivity. Qed.
Lemma part_3 (t0 t1 t2 tok : string) (toks : list string) :
  part (t0 :: t1 :: t2 :: tok :: toks) 3 = vret tok.
Proof. reflexivity. Qed.

Lemma run_loop_step (fuel : nat) (s : vm) :
  pc s < Z.of_nat (length (program s)) →
  run_loop (S fuel) s =
    match fetch s with
    | Err e => (Raised e, s)
    | Ok instr =>
        match exec instr s with
        | (Ok Advance, s') => run_loop fuel (set_pc (pc s' + 1) s')
        | (Ok Continue, s') => run_loop fuel s'
        | (Ok Break, s') => (Returned (output s'), s')
        | (Err e, s') => (Raised e, s')
        end
    end.
Proof.
  intros Hpc. change (run_loop (S fuel) s) with
    (if decide (pc s < Z.of_nat (length (program s))) then
       match fetch s with
       | Err e => (Raised e, s)
       | Ok instr =>
           match exec instr s with
           | (Ok Advance, s') => run_loop fuel (set_pc (pc s' + 1) s')
           | (Ok Continue, s') => run_loop fuel s'
           | (Ok Break, s') => (Returned (output s'), s')
           | (Err e, s') => (Raised e, s')
           end
       end
     else (Returned (output s), s)).
  by rewrite decide_True.
Qed.

Lemma exec_unknown (instr op : string) (args : list string) (s : vm) :
  PyStr.split instr = op :: args → op ∉ opcodes → exec instr s = (Ok Break, s).
Proof.
  intros Hsplit Hop. unfold exec. rewrite Hsplit, part_0, vbind_vret.
  apply eqb_of_not_in in Hop. unfold opcodes in Hop.
  repeat (apply Forall_cons in Hop as [-> Hop]). reflexivity.
Qed.

(** C7, amended. When the instruction fetched has a first token that is none
    of the thirteen opcodes, the loop of [run] ends there: [run] returns the
    output accumulated so far and leaves the machine unchanged; no error is
    reported. *)
Theorem unknown_opcode_halts (s : vm) (instr op : string) (args : list string) (fuel : nat) :
  pc s < Z.of_nat (length (program s)) →
  fetch s = Ok instr →
  PyStr.split instr = op :: args →
  op ∉ opcodes →
  run_loop (S fuel) s = (Returned (output s), s).
Proof.
  intros Hpc Hfetch Hsplit Hop.
  rewrite run_loop_step by done. rewrite Hfetch.
  by rewrite (exec_unknown _ _ _ s Hsplit Hop).
Qed.

Lemma unknown_opcode_halts_witness :
  let s := set_program ["FOO 1 2"] new_vm in
  run_loop 1 s = (Returned (output s), s).
Proof.
  apply (unknown_opcode_halts (set_program ["FOO 1 2"] new_vm) "FOO 1 2" "FOO" ["1"; "2"] 0).
  - vm_compute. reflexivity.
  - vm_compute. reflexivity.
  - vm_compute. reflexivity.
  - unfold opcodes. intros H. repeat (apply elem_of_cons in H as [H|H]; [discriminate H|]).
    by apply elem_of_nil in H.
Defined.

(** ** C6: the threshold of [JGE] and of [JGT] *)

(** C6, as stated, fails for [JGE]: its threshold goes through [int()], not
    through [eval_arg], so a variable as threshold raises a [ValueError];
    the same operands under [JGT] are resolved and the jump is taken. *)
Lemma jge_threshold_counterexample :
  execute 10 jge_variable_threshold = Raised (ValueError "x")
  ∧ execute 10 jgt_variable_threshold = Returned [].
Proof. split; vm_compute; reflexivity. Qed.

(** An integer literal in the sense of [eval_arg] resolves to what [int()]
    gives, and leaves the machine alone. *)
Lemma eval_arg_literal (arg : string) (s : vm) :
  PyStr.isdigit arg || (PyStr.startswith "-" arg && PyStr.isdigit (PyStr.drop 1 arg)) = true →
  eval_arg arg s = py_int arg s.
Proof. intros H. unfold eval_arg. by rewrite H. Qed.

(** The branch of [exec] for the opcode [op]. *)
Ltac select_opcode op :=
  repeat match goal with
         | |- context [String.eqb op ?k] =>
             let b := eval vm_compute in (String.eqb op k) in
             change (String.eqb op k) with b; cbv iota
         end.

(** C6, amended. [JGT] resolves both operands with [eval_arg] and jumps
    exactly when val > threshold.  [JGE] resolves val with [eval_arg] but
    reads its threshold with [int()]: the threshold must be an integer
    literal, the jump is taken exactly when val >= threshold, and any other
    threshold token (a variable or a temp) raises a [ValueError]. *)
Theorem jge_jgt_threshold (s s1 : vm) (instr v t l : string) (rest : list string) (x : Z) :
  eval_arg v s = (Ok x, s1) →
  (PyStr.split instr = "JGT" :: v :: t :: l :: rest →
     ∀ y s2, eval_arg t s1 = (Ok y, s2) →
       exec instr s = if decide (x > y) then jump l s2 else (Ok Advance, s2))
  ∧ (PyStr.split instr = "JGE" :: v :: t :: l :: rest →
       exec instr s =
         match PyStr.int_of_token t with
         | Some y => if decide (x >= y) then jump l s1 else (Ok Advance, s1)
         | None => (Err (ValueError t), s1)
         end).
Proof.
  intros Hv. split.
  - intros Hsplit y s2 Ht. unfold exec.
    rewrite Hsplit, part_0, vbind_vret.
    select_opcode "JGT".
    rewrite part_1, vbind_vret, part_2, part_3.
    unfold vbind at 1. rewrite Hv. rewrite vbind_vret.
    unfold vbind at 1. rewrite Ht. rewrite vbind_vret.
    by destruct (decide (x > y)).
  - intros Hsplit. unfold exec.
    rewrite Hsplit, part_0, vbind_vret.
    select_opcode "JGE".
    rewrite part_1, vbind_vret, part_2, part_3.
    unfold vbind at 1. rewrite Hv. rewrite vbind_vret.
    unfold py_int. destruct (PyStr.int_of_token t) as [y|].
    + rewrite !vbind_vret. by destruct (decide (x >= y)).
    + reflexivity.
Qed.

Lemma jge_jgt_threshold_witness :
  exec "JGE 5 x done" new_vm = (Err (ValueError "x"), new_vm).
Proof.
  apply (proj2 (jge_jgt_threshold new_vm new_vm "JGE 5 x done" "5" "x" "done" [] 5
                  eq_refl) eq_refl).
Defined.

(** ** C2: the scope of [_retval] *)

Example nested_calls_compiled :
  compile nested_calls_source = Some (Ok nested_calls_assembly).
Proof. vm_compute. reflexivity. Qed.

(** C2, as stated, fails: [_retval] has no scope of its own.  After 18
    iterations of the run of [nested_calls_assembly], [g] has just returned
    into [f]: the scope of [f] is on top of the global scope, and [_retval]
    is bound in both, to two different addresses. *)
Lemma retval_scope_counterexample :
  let s := snd (execute_vm 18 nested_calls_assembly) in
  (.!! "_retval") <$> scope_stack s = [Some 5%nat; Some 1%nat].
Proof. vm_compute. reflexivity. Qed.

Lemma get_var_addr_top (tok : string) (s : vm)
      (top : gmap string nat) (below : list (gmap string nat)) :
  is_temp_var tok = false →
  scope_stack s = top :: below →
  get_var_addr tok s =
    match top !! tok with
    | Some addr => (Ok (Some addr), s)
    | None => (Ok (Some (next_mem_addr s)), bound tok top below s)
    end.
Proof.
  intros Htmp Hscopes. unfold get_var_addr. rewrite Htmp.
  unfold vbind, read. cbv beta. rewrite Hscopes.
  destruct (top !! tok); reflexivity.
Qed.

(** C2, amended. During value resolution every token that is neither an
    integer literal nor a temp variable -- [_retval] like any other -- is
    resolved through the current (top) scope only: its address is the one
    bound there, or else the next free address, which is then bound there;
    the scopes below, the global scope among them, are neither consulted nor
    changed, and the value is read from memory at that address. *)
Theorem resolves_in_current_scope (tok : string) (s : vm)
        (top : gmap string nat) (below : list (gmap string nat)) :
  PyStr.isdigit tok || (PyStr.startswith "-" tok && PyStr.isdigit (PyStr.drop 1 tok)) = false →
  is_temp_var tok = false →
  scope_stack s = top :: below →
  ∃ s',
    let addr := default (next_mem_addr s) (top !! tok) in
    get_var_addr tok s = (Ok (Some addr), s')
    ∧ scope_stack s' = <[tok := addr]> top :: below
    ∧ eval_arg tok s = load AtMemory memory (Some addr) s'.
Proof.
  intros Hlit Htmp Hscopes.
  pose proof (get_var_addr_top tok s top below Htmp Hscopes) as Hget.
  unfold eval_arg. rewrite Hlit, Htmp. unfold vbind at 1. rewrite Hget.
  destruct (top !! tok) as [addr|] eqn:Hbound.
  - exists s. simpl. repeat split. by rewrite insert_id.
  - eexists. simpl. repeat split.
Qed.

Lemma resolves_in_current_scope_witness :
  ∃ s',
    let addr := default (next_mem_addr in_call) (({["n" := 1%nat]} : gmap string nat) !! "_retval") in
    get_var_addr "_retval" in_call = (Ok (Some addr), s')
    ∧ scope_stack s' = <["_retval" := addr]> {["n" := 1%nat]} :: [ {["_retval" := 0%nat]} ]
    ∧ eval_arg "_retval" in_call = load AtMemory memory (Some addr) s'.
Proof.
  exact (resolves_in_current_scope "_retval" in_call
           {["n" := 1%nat]} [ {["_retval" := 0%nat]} ] eq_refl eq_refl eq_refl).
Defined.

Example in_call_retval :
  fst (get_var_addr "_retval" in_call) = Ok (Some 2%nat).
Proof. vm_compute. reflexivity. Qed.

(** ** Lengths of the pieces of a text *)

Section Lengths.
Import PyStr.
Local Open Scope nat_scope.

Lemma length_append (s t : string) :
  String.length (s +:+ t) = String.length s + String.length t.
Proof. induction s as [|c s IH]; simpl; [done|]. by rewrite IH. Qed.

Lemma length_lstrip (s : string) : String.length (lstrip s) ≤ String.length s.
Proof.
  induction s as [|c s IH]; simpl; [done|].
  destruct (is_space c); simpl; lia.
Qed.

Lemma length_rstrip (s : string) : String.length (rstrip s) ≤ String.length s.
Proof.
  induction s as [|c s IH]; simpl; [done|].
  destruct (is_empty (rstrip s) && is_space c); simpl; lia.
Qed.

Lemma length_strip (s : string) : String.length (strip s) ≤ String.length s.
Proof.
  unfold strip. etrans; [apply length_rstrip|apply length_lstrip].
Qed.

Lemma length_join_cons (w : string) (l : list string) :
  String.length (join " " (w :: l)) = String.length w + after_word l.
Proof.
  destruct l as [|w' l]; [simpl; lia|].
  change (join " " (w :: w' :: l)) with (w +:+ " " +:+ join " " (w' :: l)).
  rewrite !length_append.
  change (after_word (w' :: l)) with (1 + String.length (join " " (w' :: l))).
  change (String.length " ") with 1. lia.
Qed.

Lemma after_word_cons (w : string) (l : list string) :
  after_word (w :: l) = 1 + String.length w + after_word l.
Proof.
  change (after_word (w :: l)) with (1 + String.length (join " " (w :: l))).
  by rewrite length_join_cons.
Qed.

Lemma after_cons_word (w : string) (l : list string) :
  after_word (cons_word w l) ≤ 1 + String.length w + after_word l.
Proof.
  unfold cons_word. destruct w; [simpl; lia|].
  cbn [is_empty]. rewrite after_word_cons. lia.
Qed.

Lemma words_from_length (s : string) :
  String.length (words_from s).1 + after_word (words_from s).2 ≤ String.length s.
Proof.
  induction s as [|c s IH]; [simpl; lia|].
  cbn [words_from]. destruct (words_from s) as [w ws]. cbn [fst snd] in IH.
  destruct (is_space c); cbn [fst snd String.length]; [|lia].
  unfold cons_word. destruct w as [|d w]; cbn [is_empty String.length] in *; [lia|].
  rewrite after_word_cons. cbn [String.length]. lia.
Qed.

Lemma length_join_split (s : string) :
  String.length (join " " (split s)) ≤ String.length s.
Proof.
  unfold split. pose proof (words_from_length s) as H.
  destruct (words_from s) as [w ws]. cbn [fst snd] in H.
  unfold cons_word. destruct w as [|d w]; cbn [is_empty].
  - destruct ws as [|w' ws]; [simpl; lia|].
    rewrite after_word_cons in H. rewrite length_join_cons.
    cbn [String.length] in H. lia.
  - rewrite length_join_cons. lia.
Qed.

(** The argument text of a call is shorter than the call. *)
Lemma as_call_shorter (fns : gset string) (e fn arg : string) :
  as_call fns e = Some (fn, arg) → String.length arg < String.length e.
Proof.
  unfold as_call. pose proof (length_join_split e) as H.
  destruct (split e) as [|f [|w ws]]; [done|done|].
  case_bool_decide; [|done]. intros [= Hfn Harg].
  rewrite <- Harg. rewrite length_join_cons, after_word_cons in H.
  change (String.length (join " " (w :: ws)) < String.length e).
  rewrite length_join_cons. lia.
Qed.

Lemma fields_from_length (sep : ascii) (s : string) :
  String.length (fields_from sep s).1 + fields_length (fields_from sep s).2
  = String.length s.
Proof.
  induction s as [|c s IH]; simpl; [done|].
  destruct (fields_from sep s) as [w ws]. simpl in IH.
  destruct (Ascii.eqb c sep); simpl; lia.
Qed.

(** The two fields of a text with one separator. *)
Lemma split_on_two (sep : ascii) (s a b : string) :
  split_on sep s = [a; b] →
  String.length a + String.length b + 1 = String.length s.
Proof.
  unfold split_on. pose proof (fields_from_length sep s) as H.
  destruct (fields_from sep s) as [w ws]. intros [= -> ->]. simpl in H. lia.
Qed.

Lemma fields_from_contains (sep : ascii) (s : string) :
  contains sep s = negb (bool_decide ((fields_from sep s).2 = [])).
Proof.
  induction s as [|c s IH]; simpl; [done|].
  destruct (fields_from sep s) as [w ws]. simpl in IH.
  destruct (Ascii.eqb c sep); simpl; [done|]. exact IH.
Qed.

Lemma split_on_two_contains (sep : ascii) (s a b : string) :
  split_on sep s = [a; b] → contains sep s = true.
Proof.
  unfold split_on. rewrite fields_from_contains.
  destruct (fields_from sep s) as [w ws]. by intros [= -> ->].
Qed.
End Lengths.

(** ** The recursion of [compile_expr] *)

Section ExprFuel.
Variable fns : gset string.
Local Open Scope nat_scope.

Lemma gbind_ext {A B} (m : gen A) (k1 k2 : A → gen B) (c : nat) :
  (∀ a c', k1 a c' = k2 a c') → gbind m k1 c = gbind m k2 c.
Proof.
  intros Hk. unfold gbind. destruct (m c) as [[[a c']|e]|]; [apply Hk|done|done].
Qed.

Lemma gbind_gret {A B} (a : A) (k : A → gen B) (c : nat) :
  gbind (gret a) k c = k a c.
Proof. reflexivity. Qed.

Lemma gbind_same {A B} (m1 m2 : gen A) (k : A → gen B) (c : nat) :
  m1 c = m2 c → gbind m1 k c = gbind m2 k c.
Proof. intros Hm. unfold gbind. by rewrite Hm. Qed.

Lemma gbind_cong {A B} (m1 m2 : gen A) (k1 k2 : A → gen B) (c : nat) :
  m1 c = m2 c → (∀ a c', k1 a c' = k2 a c') → gbind m1 k1 c = gbind m2 k2 c.
Proof.
  intros Hm Hk. unfold gbind. rewrite Hm.
  destruct (m2 c) as [[[a c']|e]|]; [apply Hk|done|done].
Qed.

(** [binary] calls [self] on texts shorter than the text it splits. *)
Lemma binary_ext (self1 self2 : string → gen (string * list string))
      (op : string) (sep : ascii) (e : string) (c : nat) :
  (∀ x c', String.length x < String.length e → self1 x c' = self2 x c') →
  binary self1 op sep e c = binary self2 op sep e c.
Proof.
  intros Hself. unfold binary.
  destruct (PyStr.split_on sep e) as [|a [|b [|? ?]]] eqn:Hsplit; try reflexivity.
  apply split_on_two in Hsplit.
  pose proof (length_strip a). pose proof (length_strip b).
  cbn [unpack2]. rewrite !gbind_gret. cbv beta iota.
  apply gbind_cong; [apply Hself; lia|]. intros [ta ca] c1.
  apply gbind_cong; [apply Hself; lia|]. done.
Qed.

Lemma compile_expr_body_ext (self1 self2 : string → gen (string * list string))
      (e : string) (c : nat) :
  (∀ x c', String.length x < String.length e → self1 x c' = self2 x c') →
  compile_expr_body fns self1 e c = compile_expr_body fns self2 e c.
Proof.
  intros Hself. unfold compile_expr_body.
  destruct (as_call fns e) as [[fn arg]|] eqn:Hcall.
  - apply as_call_shorter in Hcall. apply gbind_same. by apply Hself.
  - destruct (PyStr.contains "+" e); [by apply binary_ext|].
    destruct (PyStr.contains "-" e); [by apply binary_ext|done].
Qed.

(** With more fuel than the text is long, the amount of fuel is
    immaterial. *)
Lemma compile_expr_fuel_enough (n : nat) : ∀ m e c,
  String.length e < n → String.length e < m →
  compile_expr_fuel fns n e c = compile_expr_fuel fns m e c.
Proof.
  induction n as [|n IH]; intros m e c Hn Hm; [lia|].
  destruct m as [|m]; [lia|]. cbn [compile_expr_fuel].
  pose proof (length_strip e).
  apply compile_expr_body_ext. intros x c' Hx. apply IH; lia.
Qed.

(** The equation of [compile_expr]. *)
Lemma compile_expr_unfold (e : string) (c : nat) :
  compile_expr fns e c
  = compile_expr_body fns (compile_expr fns) (PyStr.strip e) c.
Proof.
  unfold compile_expr at 1. cbn [compile_expr_fuel].
  pose proof (length_strip e).
  apply compile_expr_body_ext. intros x c' Hx.
  unfold compile_expr. apply compile_expr_fuel_enough; lia.
Qed.

(** [compile_expr] returns or raises: the recursion never runs out. *)
Lemma compile_expr_fuel_total (n : nat) : ∀ e c,
  String.length e < n → compile_expr_fuel fns n e c ≠ None.
Proof.
  induction n as [|n IH]; intros e c Hn; [lia|].
  cbn [compile_expr_fuel]. pose proof (length_strip e) as Hs.
  set (e' := PyStr.strip e) in *. unfold compile_expr_body.
  assert (Hbin : ∀ op sep, binary (compile_expr_fuel fns n) op sep e' c ≠ None).
  { intros op sep. unfold binary.
    destruct (PyStr.split_on sep e') as [|a [|b [|? ?]]] eqn:Hsplit; try done.
    apply split_on_two in Hsplit.
    pose proof (length_strip a). pose proof (length_strip b).
    cbn [unpack2]. rewrite gbind_gret. unfold gbind at 1.
    pose proof (IH (PyStr.strip a) c ltac:(lia)) as Ha.
    destruct (compile_expr_fuel fns n (PyStr.strip a) c) as [[[[ta ca] c1]|?]|]; [|done|done].
    unfold gbind at 1.
    pose proof (IH (PyStr.strip b) c1 ltac:(lia)) as Hb.
    destruct (compile_expr_fuel fns n (PyStr.strip b) c1) as [[[[tb cb] c2]|?]|]; done. }
  destruct (as_call fns e') as [[fn arg]|] eqn:Hcall.
  - apply as_call_shorter in Hcall. unfold gbind at 1.
    pose proof (IH arg c ltac:(lia)) as Ha.
    destruct (compile_expr_fuel fns n arg c) as [[[[ta ca] c1]|?]|]; done.
  - destruct (PyStr.contains "+" e'); [apply Hbin|].
    destruct (PyStr.contains "-" e'); [apply Hbin|done].
Qed.

Lemma compile_expr_total (e : string) (c : nat) : compile_expr fns e c ≠ None.
Proof. apply compile_expr_fuel_total. lia. Qed.

End ExprFuel.

(** ** C3: expressions with [+] *)

(** C3, as stated, fails.  The text ["a - b + c"] is cut at its [+] into
    ["a - b"] and ["c"], so the instructions compute (a - b) + c: with
    a = 10, b = 3 and c = 2 the program prints 9, where a - (b + c) is 5.
    And a text with two [+] is not cut at the first one: [split] gives
    three parts, which the unpacking into two rejects with a
    [ValueError]. *)
Lemma plus_split_counterexample :
  compile abc_source = Some (Ok abc_assembly)
  ∧ execute 20 abc_assembly = Returned ["9"]
  ∧ PyStr.str_of_Z (10 - (3 + 2)) = "5"
  ∧ compile_expr ∅ "a + b + c" 0%nat
    = Some (Err (ValueError "too many values to unpack (expected 2)")).
Proof. repeat split; vm_compute; reflexivity. Qed.

Section CompileFacts.
Variable fns : gset string.
Local Open Scope gen_scope.

(** C3, amended. For every expression text that is not a function call
    and, stripped, has exactly one [+] character, [compile_expr] cuts the
    text at that [+], compiles the stripped left side, then the stripped
    right side, and emits [ADD leftloc rightloc t] with a fresh temp [t],
    however many [-] characters there are; in particular ["a - b + c"]
    compiles to [SUB a b tmp1; ADD tmp1 c tmp2], that is to (a - b) + c,
    as the program that prints it for a = 10, b = 3, c = 2 shows. *)
Theorem compile_expr_plus (e a b : string) (c : nat) :
  as_call fns (PyStr.strip e) = None →
  PyStr.split_on "+" (PyStr.strip e) = [a; b] →
  compile_expr fns e c
  = (let* (ta, ca) := compile_expr fns (PyStr.strip a) in
     let* (tb, cb) := compile_expr fns (PyStr.strip b) in
     let* t := temp in
     gret (t, ca ++ cb ++ [instr3 "ADD" ta tb t])) c
  ∧ compile_expr ∅ "a - b + c" 0%nat
    = Some (Ok ("tmp2", ["SUB a b tmp1"; "ADD tmp1 c tmp2"], 2%nat))
  ∧ compile_and_execute 20 abc_source
    = Some (Returned [PyStr.str_of_Z ((10 - 3) + 2)]).
Proof.
  intros Hcall Hsplit. split; [|split].
  - rewrite compile_expr_unfold. unfold compile_expr_body. rewrite Hcall.
    rewrite (split_on_two_contains _ _ _ _ Hsplit).
    unfold binary. rewrite Hsplit. reflexivity.
  - vm_compute. reflexivity.
  - vm_compute. reflexivity.
Qed.

(** ** C4: the lowering of [If] *)

Lemma compile_stmt_body (body : list stmt) :
  (fix compile_body (body : list stmt) : gen (list string) :=
     match body with
     | [] => gret []
     | s' :: body' =>
         let* code := compile_stmt fns s' in
         let* code' := compile_body body' in
         gret (code ++ code')
     end) body = compile_body fns body.
Proof. induction body as [|s body IH]; [done|]. cbn [compile_body]. by rewrite <- IH. Qed.

(** C4, amended. For every [If] whose condition text has exactly one [<],
    code generation cuts the text there, compiles the left side only, and
    emits: the evaluate-left instructions, [JGE leftloc 2 L_end] with the
    literal 2 as threshold, the compiled body, and [LABEL L_end], where
    [L] is a fresh temp name; the right side is discarded, so that two
    conditions with the same left side give the same instructions. *)
Theorem compile_if (cond l r : string) (body : list stmt) (c : nat) :
  PyStr.split_on "<" cond = [l; r] →
  compile_stmt fns (If cond body) c
  = (let* (t, code) := compile_expr fns (PyStr.strip l) in
     let* label := temp in
     let* body_code := compile_body fns body in
     gret (code ++ [instr3 "JGE" t "2" (label +:+ "_end")]
                ++ body_code ++ [instr1 "LABEL" (label +:+ "_end")])) c
  ∧ ∀ cond' r', PyStr.split_on "<" cond' = [l; r'] →
      compile_stmt fns (If cond' body) c = compile_stmt fns (If cond body) c.
Proof.
  assert (Hif : ∀ cond r, PyStr.split_on "<" cond = [l; r] →
    compile_stmt fns (If cond body) c
    = (let* (t, code) := compile_expr fns (PyStr.strip l) in
       let* label := temp in
       let* body_code := compile_body fns body in
       gret (code ++ [instr3 "JGE" t "2" (label +:+ "_end")]
                  ++ body_code ++ [instr1 "LABEL" (label +:+ "_end")])) c).
  { intros cond0 r0 Hsplit. cbn [compile_stmt]. rewrite Hsplit.
    cbn [unpack2]. rewrite gbind_gret. cbv beta iota.
    apply gbind_ext. intros [t code] c1.
    apply gbind_ext. intros label c2. by rewrite compile_stmt_body. }
  intros Hsplit. split; [by apply (Hif cond r)|].
  intros cond' r' Hsplit'. by rewrite (Hif cond' r'), (Hif cond r).
Qed.

End CompileFacts.

Lemma compile_expr_plus_witness :
  compile_expr {["fib"]} "n + fib 2" 5%nat
  = gbind (compile_expr {["fib"]} (PyStr.strip "n ")) (λ '(ta, ca),
      gbind (compile_expr {["fib"]} (PyStr.strip " fib 2")) (λ '(tb, cb),
        gbind temp (λ t, gret (t, ca ++ cb ++ [instr3 "ADD" ta tb t])))) 5%nat.
Proof.
  refine (proj1 (compile_expr_plus {["fib"]} "n + fib 2" "n " " fib 2" 5%nat _ _));
    vm_compute; reflexivity.
Defined.

Lemma compile_if_witness :
  compile_stmt ∅ (If "n < 2" [Return "n"]) 0%nat
  = gbind (compile_expr ∅ (PyStr.strip "n ")) (λ '(t, code),
      gbind temp (λ label,
        gbind (compile_body ∅ [Return "n"]) (λ body_code,
          gret (code ++ [instr3 "JGE" t "2" (label +:+ "_end")]
                  ++ body_code ++ [instr1 "LABEL" (label +:+ "_end")])))) 0%nat.
Proof.
  refine (proj1 (compile_if ∅ "n < 2" "n " " 2" [Return "n"] 0%nat _));
    vm_compute; reflexivity.
Defined.

(** C4, as stated, fails: the right side of the condition is not compiled,
    so no evaluate-right instructions are emitted, though that side alone
    compiles to an instruction. *)
Lemma if_right_side_counterexample :
  compile_stmt ∅ (If "n < a + 1" [Print "n"]) 0%nat
  = Some (Ok (["JGE n 2 tmp1_end"; "PRINT n"; "LABEL tmp1_end"], 1%nat))
  ∧ compile_expr ∅ "a + 1" 0%nat = Some (Ok ("tmp1", ["ADD a 1 tmp1"], 1%nat)).
Proof. split; vm_compute; reflexivity. Qed.

(** ** C5: the layout of a compiled program *)

(** C5, as stated, fails: a top-level [If] or [Return] is not compiled into
    the main block, it is left out. *)
Lemma top_level_if_counterexample :
  parse_ast dropped_source
  = Ok [Print "1"; If "x < 2" [Print "2"]; Return "3"; Print "4"]
  ∧ compile dropped_source
    = Some (Ok ["JMP main"; "LABEL main"; "PRINT 1"; "PRINT 4"; "HALT"])
  ∧ compile_stmt ∅ (If "x < 2" [Print "2"]) 1%nat
    = Some (Ok (["JGE x 2 tmp2_end"; "PRINT 2"; "LABEL tmp2_end"], 2%nat)).
Proof. repeat split; vm_compute; reflexivity. Qed.

Lemma block_of_cons (kind : stmt → bool) (item : stmt) (code : list string)
      (blocks : list (stmt * list string)) :
  block_of kind ((item, code) :: blocks)
  = if kind item then code ++ block_of kind blocks else block_of kind blocks.
Proof. unfold block_of. cbn. by destruct (kind item). Qed.

Lemma compile_items_skip (fns : gset string) (item : stmt) (rest : list stmt)
      (code main_code : list string) :
  compiled_at_top_level item = false →
  compile_items fns (item :: rest) code main_code
  = compile_items fns rest code main_code.
Proof. by destruct item. Qed.

Lemma compile_items_cons (fns : gset string) (item : stmt) (rest : list stmt)
      (code main_code : list string) :
  compiled_at_top_level item = true →
  compile_items fns (item :: rest) code main_code
  = gbind (item_code fns item) (λ blk,
      if is_def item then compile_items fns rest (code ++ blk) main_code
      else compile_items fns rest code (main_code ++ blk)).
Proof. by destruct item. Qed.

Lemma compile_items_layout (fns : gset string) (items : list stmt) :
  ∀ code main_code c,
    compile_items fns items code main_code c
    = gbind (compile_in_order fns (List.filter compiled_at_top_level items))
        (λ blocks, gret (code ++ block_of is_def blocks,
                         main_code ++ block_of (λ i, negb (is_def i)) blocks)) c.
Proof.
  induction items as [|item rest IH]; intros code main_code c.
  - cbn. by rewrite !app_nil_r.
  - cbn [List.filter].
    destruct (compiled_at_top_level item) eqn:Hkind.
    + rewrite compile_items_cons by done. cbn [compile_in_order].
      unfold gbind.
      destruct (item_code fns item c) as [[[blk c1]|?]|]; [|done|done].
      assert (Hrest : ∀ code main_code,
        compile_items fns rest code main_code c1
        = match compile_in_order fns (List.filter compiled_at_top_level rest) c1 with
          | Some (Ok (blocks, c2)) =>
              Some (Ok ((code ++ block_of is_def blocks,
                         main_code ++ block_of (λ i, negb (is_def i)) blocks), c2))
          | Some (Err e) => Some (Err e)
          | None => None
          end).
      { intros code0 main0. rewrite IH. reflexivity. }
      destruct (is_def item) eqn:Hdef; rewrite Hrest;
        destruct (compile_in_order fns _ c1) as [[[blocks c2]|?]|]; try done;
        unfold gret; rewrite !block_of_cons, Hdef; cbn [negb];
        by rewrite <- ?app_assoc.
    + rewrite compile_items_skip by done. apply IH.
Qed.

(** C5, amended. [compile_all] compiles, in one pass in source order, every
    top-level [Def], [Assign], [Print] and [For]; a top-level [If] or
    [Return] is left out.  The instructions of the [Def]s, in source order,
    make the functions block, those of the other compiled statements, in
    source order, the main block, and the result is exactly [JMP main] +
    functions block + [LABEL main] + main block + [HALT].  In particular a
    program with no statements compiles to exactly the three instructions
    [JMP main], [LABEL main], [HALT], which execute with an empty output
    sequence. *)
Theorem compile_all_layout (fns : gset string) (ast : list stmt) (c : nat) :
  compile_all fns ast c
  = gbind (compile_in_order fns (List.filter compiled_at_top_level ast))
      (λ blocks,
         gret (["JMP main"] ++ block_of is_def blocks
                ++ ["LABEL main"] ++ block_of (λ i, negb (is_def i)) blocks
                ++ ["HALT"])) c
  ∧ compile [] = Some (Ok ["JMP main"; "LABEL main"; "HALT"])
  ∧ ∀ fuel, (3 ≤ fuel)%nat →
      execute fuel ["JMP main"; "LABEL main"; "HALT"] = Returned [].
Proof.
  split; [|split].
  - unfold compile_all. unfold gbind at 1. rewrite compile_items_layout.
    unfold gbind.
    by destruct (compile_in_order fns _ c) as [[[blocks c2]|?]|].
  - vm_compute. reflexivity.
  - intros fuel Hfuel. apply (execute_le 3); [|done|done]. vm_compute. reflexivity.
Qed.

Lemma compile_all_layout_witness :
  execute 5 ["JMP main"; "LABEL main"; "HALT"] = Returned [].
Proof.
  apply (proj2 (proj2 (compile_all_layout ∅ [] 0%nat)) 5%nat). lia.
Defined.

(** ** The code generator returns or raises *)

(** Induction on statements, with the statements of a body. *)
Lemma stmt_nested_ind (P : stmt → Prop) :
  (∀ name arg body, Forall P body → P (Def name arg body)) →
  (∀ cond body, Forall P body → P (If cond body)) →
  (∀ var lo hi body, Forall P body → P (For var lo hi body)) →
  (∀ e, P (Return e)) → (∀ e, P (Print e)) → (∀ var e, P (Assign var e)) →
  ∀ s, P s.
Proof.
  intros Hdef Hif Hfor Hret Hprint Hassign. fix IH 1.
  intros [name arg body|cond body|var lo hi body|e|e|var e];
    [apply Hdef|apply Hif|apply Hfor|apply Hret|apply Hprint|apply Hassign];
    induction body as [|s body IHbody]; constructor; auto.
Qed.

Section Total.
Variable fns : gset string.

Lemma total_gret {A} (a : A) : total (gret a).
Proof. by intros c. Qed.

Lemma total_temp : total temp.
Proof. by intros c. Qed.

Lemma total_unpack2 (parts : list string) : total (unpack2 parts).
Proof. intros c. by destruct parts as [|a [|b [|? ?]]]. Qed.

Lemma total_gbind {A B} (m : gen A) (k : A → gen B) :
  total m → (∀ a, total (k a)) → total (gbind m k).
Proof.
  intros Hm Hk c. unfold gbind. specialize (Hm c).
  destruct (m c) as [[[a c']|e]|]; [apply Hk|done|done].
Qed.

Lemma total_compile_expr (e : string) : total (compile_expr fns e).
Proof. intros c. apply compile_expr_total. Qed.

Ltac total_auto :=
  repeat first
    [ apply total_gret | apply total_temp | apply total_unpack2
    | apply total_compile_expr
    | apply total_gbind; [|intros ?]
    | match goal with |- total (match ?x with _ => _ end) => destruct x end ].

Lemma total_compile_body (body : list stmt) :
  Forall (λ s, total (compile_stmt fns s)) body → total (compile_body fns body).
Proof.
  induction 1 as [|s body Hs Hbody IH]; cbn [compile_body]; total_auto; done.
Qed.

Lemma total_compile_stmt (s : stmt) : total (compile_stmt fns s).
Proof.
  induction s as [name arg body IH|cond body IH|var lo hi body IH|e|e|var e]
    using stmt_nested_ind; cbn [compile_stmt]; total_auto;
    rewrite compile_stmt_body; by apply total_compile_body.
Qed.

Lemma total_compile_all (ast : list stmt) : total (compile_all fns ast).
Proof.
  unfold compile_all. apply total_gbind; [|intros [code main_code]; apply total_gret].
  generalize (@nil string) at 1. generalize (@nil string).
  induction ast as [|item rest IH]; intros code main_code; cbn [compile_items];
    [apply total_gret|].
  destruct item; try apply IH;
    (apply total_gbind; [|intros ?; apply IH]); try apply total_compile_stmt.
  unfold compile_fn. apply total_gbind; [|intros ?; apply total_gret].
  apply total_compile_body. apply Forall_forall. intros s _. apply total_compile_stmt.
Qed.
End Total.

(** [compile] returns or raises, on every source. *)
Lemma compile_total (source : list string) : compile source ≠ None.
Proof.
  unfold compile. destruct (parse_from ∅ source) as [[ast fns]|e]; [|done].
  pose proof (total_compile_all fns ast 0%nat) as Htotal.
  by destruct (compile_all fns ast 0%nat) as [[[assembly c]|e]|].
Qed.

(** ** C10: blocks that are never closed *)

(** C10, as stated, fails: every line below has one of the seven forms and
    the [if] block is never closed, yet [parse] raises -- an [IndexError],
    as the first [end] has emptied the stack of open bodies. *)
Lemma stray_end_counterexample :
  Forall recognized stray_end_source
  ∧ parse_ast stray_end_source = Err (IndexError AtParseStack).
Proof.
  split; [|vm_compute; reflexivity].
  repeat constructor; unfold recognized; vm_compute; discriminate.
Qed.

Lemma parse_line_frames (st st' : pstate) (line : string) (fs : list (opener * list stmt)) :
  frames st = Some fs →
  parse_line st line = Ok st' →
  match classify line with
  | LUnknown => False
  | LEnd =>
      match fs with
      | [] => frames st' = None
      | _ :: fs' => ∃ fs'', frames st' = Some fs'' ∧ length fs'' = length fs'
      end
  | LDef _ _ | LIf _ | LFor _ _ _ =>
      ∃ fs'', frames st' = Some fs'' ∧ length fs'' = S (length fs)
  | _ => ∃ fs'', frames st' = Some fs'' ∧ length fs'' = length fs
  end.
Proof.
  intros Hfs. unfold parse_line.
  destruct (classify line); try done;
    unfold open_block, append_node, pop_block, add_function; cbn [frames];
    rewrite Hfs; destruct fs as [|[o items] [|[o' items'] fs]];
    intros [= <-]; cbn [frames]; eauto.
Qed.

Lemma parse_line_ok (st : pstate) (line : string) (fs : list (opener * list stmt)) :
  frames st = Some fs → recognized line → ∃ st', parse_line st line = Ok st'.
Proof.
  intros Hfs Hrec. unfold recognized in Hrec. unfold parse_line.
  destruct (classify line); try done;
    unfold open_block, append_node, pop_block, add_function; cbn [frames];
    rewrite Hfs; destruct fs as [|[o items] [|[o' items'] fs]]; eauto.
Qed.

Lemma parse_line_emptied (st : pstate) (line : string) :
  frames st = None → ∀ st', parse_line st line ≠ Ok st'.
Proof.
  intros Hfs st'. unfold parse_line.
  destruct (classify line); try done;
    unfold open_block, append_node, pop_block, add_function; cbn [frames];
    by rewrite Hfs.
Qed.

Lemma parse_lines_emptied (st st' : pstate) (lines : list string) :
  frames st = None → parse_lines st lines = Ok st' → lines = [].
Proof.
  intros Hfs. destruct lines as [|line rest]; [done|]. cbn [parse_lines].
  destruct (parse_line st line) as [st1|e] eqn:Hline; [|done].
  by apply parse_line_emptied in Hline.
Qed.

(** [parse] returns exactly on the texts whose lines are all recognized and
    whose [end]s are matched. *)
Lemma parse_lines_returns (lines : list string) :
  ∀ st fs, frames st = Some fs →
    (∃ st', parse_lines st lines = Ok st')
    ↔ Forall recognized lines ∧ ends_matched (length fs) lines = true.
Proof.
  induction lines as [|line rest IH]; intros st fs Hfs.
  { cbn. split; [by intros _|by eauto]. }
  cbn [parse_lines ends_matched]. split.
  - intros [st' Hst']. destruct (parse_line st line) as [st1|e] eqn:Hline; [|done].
    pose proof (parse_line_frames _ _ _ _ Hfs Hline) as Hfr.
    assert (Hrec : recognized line).
    { unfold recognized. by destruct (classify line). }
    assert (∃ st', parse_lines st1 rest = Ok st') as Hex by eauto.
    destruct (classify line) eqn:Hform; try done;
      try (destruct Hfr as (fs1 & Hfs1 & Hlen);
           apply (IH st1 fs1 Hfs1) in Hex as [Hall Hends];
           split; [by constructor|congruence]).
    destruct fs as [|f fs].
    + apply (parse_lines_emptied _ _ _ Hfr) in Hst' as ->.
      split; [by repeat constructor|done].
    + destruct Hfr as (fs1 & Hfs1 & Hlen).
      apply (IH st1 fs1 Hfs1) in Hex as [Hall Hends].
      split; [by constructor|]. cbn [length]. congruence.
  - intros [Hall Hends]. apply Forall_cons in Hall as [Hrec Hall].
    destruct (parse_line_ok st line fs Hfs Hrec) as [st1 Hline]. rewrite Hline.
    pose proof (parse_line_frames _ _ _ _ Hfs Hline) as Hfr.
    destruct (classify line) eqn:Hform; try done;
      try (destruct Hfr as (fs1 & Hfs1 & Hlen);
           apply (IH st1 fs1 Hfs1); split; [done|congruence]).
    destruct fs as [|f fs]; cbn [length] in Hends.
    + destruct rest; [cbn; eauto|done].
    + destruct Hfr as (fs1 & Hfs1 & Hlen).
      apply (IH st1 fs1 Hfs1). split; [done|congruence].
Qed.

(** A [SyntaxError] carries a line that has none of the seven forms. *)
Lemma parse_line_syntax_error (st : pstate) (line l : string) :
  parse_line st line = Err (SyntaxError l) → l = line ∧ classify line = LUnknown.
Proof.
  unfold parse_line.
  destruct (classify line); try (by intros [= <-]);
    unfold open_block, append_node, pop_block, add_function; cbn [frames];
    destruct (frames st) as [[|[o items] [|[o' items'] fs]]|]; done.
Qed.

Lemma parse_lines_syntax_error (lines : list string) : ∀ st l,
  parse_lines st lines = Err (SyntaxError l) → l ∈ lines ∧ classify l = LUnknown.
Proof.
  induction lines as [|line rest IH]; intros st l; [done|]. cbn [parse_lines].
  destruct (parse_line st line) as [st1|e] eqn:Hline.
  - intros Hrest. apply IH in Hrest as [Hin Hform]. split; [by right|done].
  - intros [= ->]. apply parse_line_syntax_error in Hline as [-> Hform].
    split; [by left|done].
Qed.

Lemma parse_lines_app (pre rest : list string) : ∀ st,
  parse_lines st (pre ++ rest)
  = match parse_lines st pre with
    | Ok st' => parse_lines st' rest
    | Err e => Err e
    end.
Proof.
  induction pre as [|line pre IH]; intros st; [done|]. cbn [app parse_lines].
  by destruct (parse_line st line).
Qed.

(** *** The tree does not depend on the function names *)

Lemma parse_line_same_tree (st1 st2 : pstate) (line : string) :
  same_tree st1 st2 → same_result (parse_line st1 line) (parse_line st2 line).
Proof.
  intros [Hroot Hframes]. unfold parse_line.
  destruct (classify line); try done;
    unfold open_block, append_node, pop_block, add_function; cbn [frames root];
    rewrite Hroot, Hframes;
    destruct (frames st2) as [[|[o items] [|[o' items'] fs]]|]; done.
Qed.

Lemma parse_lines_same_tree (lines : list string) : ∀ st1 st2,
  same_tree st1 st2 → same_result (parse_lines st1 lines) (parse_lines st2 lines).
Proof.
  induction lines as [|line rest IH]; intros st1 st2 Hsame; [done|].
  cbn [parse_lines]. pose proof (parse_line_same_tree _ _ line Hsame) as Hline.
  destruct (parse_line st1 line), (parse_line st2 line); try done. by apply IH.
Qed.

Lemma ast_of_same_tree (st1 st2 : pstate) :
  same_tree st1 st2 → ast_of st1 = ast_of st2.
Proof. intros [Hroot Hframes]. unfold ast_of. by rewrite Hroot, Hframes. Qed.

(** *** A parse inside an open block *)

Lemma parse_line_graft (r : list stmt) (base : list (opener * list stmt))
      (st st' : pstate) (line : string) :
  parse_line st line = Ok st' → frames st' ≠ None →
  parse_line (graft r base st) line = Ok (graft r base st').
Proof.
  unfold parse_line.
  destruct (classify line); try done;
    unfold open_block, append_node, pop_block, add_function, graft; cbn [frames root function_names];
    destruct (frames st) as [[|[o items] [|[o' items'] fs]]|]; try done;
    intros [= <-]; cbn [frames root function_names]; try done; intros _;
    destruct base as [|[ob itemsb] below]; cbn [frames root function_names app];
    by rewrite <- ?app_assoc.
Qed.

Lemma parse_lines_graft (r : list stmt) (base : list (opener * list stmt))
      (lines : list string) : ∀ st st',
  parse_lines st lines = Ok st' → frames st' ≠ None →
  parse_lines (graft r base st) lines = Ok (graft r base st').
Proof.
  induction lines as [|line rest IH]; intros st st'; cbn [parse_lines].
  { by intros [= ->]. }
  destruct (parse_line st line) as [st1|e] eqn:Hline; [|done].
  intros Hrest Hopen.
  assert (frames st1 ≠ None) as Hopen1.
  { intros Hnone. pose proof (parse_lines_emptied _ _ _ Hnone Hrest) as ->.
    cbn in Hrest. congruence. }
  rewrite (parse_line_graft _ _ _ _ _ Hline Hopen1). by apply IH.
Qed.

Lemma plug_app (fs1 fs2 : list (opener * list stmt)) : ∀ node,
  plug (fs1 ++ fs2) node = plug fs2 (plug fs1 node).
Proof.
  induction fs1 as [|[o items] fs1 IH]; intros node; [done|]. cbn. apply IH.
Qed.

Lemma ast_of_graft (r : list stmt) (o : opener) (items : list stmt)
      (below : list (opener * list stmt)) (st : pstate) (F : gset string) :
  frames st ≠ None →
  ast_of (graft r ((o, items) :: below) st)
  = ast_of (PState r (Some ((o, items ++ ast_of st) :: below)) F).
Proof.
  unfold graft, ast_of.
  destruct (frames st) as [[|[o1 items1] fs]|]; [done| |done]. intros _.
  cbn [frames root app]. rewrite plug_app. cbn [plug].
  by rewrite <- app_assoc.
Qed.

Lemma parse_line_opener (st : pstate) (line : string) (o : opener)
      (base : list (opener * list stmt)) :
  frames st = Some base → opener_of (classify line) = Some o →
  ∃ F, parse_line st line = Ok (PState (root st) (Some ((o, []) :: base)) F).
Proof.
  intros Hbase. unfold parse_line.
  destruct (classify line); try done; intros [= <-];
    unfold open_block, add_function; cbn [frames root function_names];
    rewrite Hbase; eauto.
Qed.

(** C10, amended. The parser does not enforce block closure.  For every
    input whose lines, once stripped and filtered, each have one of the
    seven forms, and in which every [end] finds something to close (an open
    block, or as the last line the top level), [parse] returns an AST
    without raising, whether its blocks are closed or not; a block that is
    never closed takes all the remaining statements: its body is the AST of
    the remaining lines.  A [SyntaxError] is raised only on a line that has
    none of the seven forms. *)
Theorem parse_unclosed_blocks (lines : list string) :
  (Forall recognized (source_lines lines) →
   ends_matched 0 (source_lines lines) = true →
   ∃ ast, parse_ast lines = Ok ast)
  ∧ (∀ pre line rest o st_pre base st_rest,
       source_lines lines = pre ++ line :: rest →
       parse_lines (PState [] (Some []) ∅) pre = Ok st_pre →
       frames st_pre = Some base →
       opener_of (classify line) = Some o →
       parse_lines (PState [] (Some []) ∅) rest = Ok st_rest →
       frames st_rest ≠ None →
       parse_ast lines
       = Ok (ast_of (PState (root st_pre) (Some ((o, ast_of st_rest) :: base)) ∅)))
  ∧ (∀ l, parse_ast lines = Err (SyntaxError l) →
       l ∈ source_lines lines ∧ classify l = LUnknown).
Proof.
  unfold parse_ast, parse, parse_from. split; [|split].
  - intros Hall Hends.
    destruct (proj2 (parse_lines_returns (source_lines lines)
                       (PState [] (Some []) ∅) [] eq_refl)) as [st' Hst']; [done|].
    rewrite Hst'. eauto.
  - intros pre line rest o st_pre base st_rest Hlines Hpre Hbase Ho Hrest Hopen.
    rewrite Hlines, parse_lines_app, Hpre. cbn [parse_lines].
    destruct (parse_line_opener st_pre line o base Hbase Ho) as [F Hline].
    rewrite Hline.
    pose proof (λ F0, parse_lines_same_tree rest (PState [] (Some []) F0)
                        (PState [] (Some []) F) (conj eq_refl eq_refl)) as Hsame.
    specialize (Hsame (@empty _ gset_empty)). rewrite Hrest in Hsame.
    destruct (parse_lines (PState [] (Some []) F) rest) as [st_rest'|] eqn:Hrest'; [|done].
    cbn in Hsame. assert (frames st_rest' ≠ None) as Hopen'.
    { destruct Hsame as [_ <-]. done. }
    pose proof (parse_lines_graft (root st_pre) ((o, []) :: base) rest _ _ Hrest' Hopen') as Hg.
    change (graft (root st_pre) ((o, []) :: base) (PState [] (Some []) F))
      with (PState (root st_pre) (Some ((o, []) :: base)) F) in Hg.
    rewrite Hg. f_equal.
    rewrite (ast_of_graft _ _ _ _ _ ∅ Hopen'). cbn [app].
    by rewrite (ast_of_same_tree _ _ Hsame).
  - intros l Herr.
    destruct (parse_lines (PState [] (Some []) ∅) (source_lines lines)) as [st'|e] eqn:Hp;
      [done|]. injection Herr as ->. by apply parse_lines_syntax_error in Hp.
Qed.

Lemma parse_unclosed_blocks_witness :
  (∃ ast, parse_ast unclosed_source = Ok ast)
  ∧ parse_ast unclosed_source
    = Ok [Assign "x" "1";
          Def "f" "n" [Assign "y" "2"; If "n < 2" [Print "n"; Print "y"]]].
Proof.
  destruct (parse_unclosed_blocks unclosed_source) as (Hret & Habsorb & _).
  split.
  - apply Hret.
    + repeat constructor; unfold recognized; vm_compute; discriminate.
    + vm_compute. reflexivity.
  - rewrite (Habsorb ["x = 1"; "def f n"; "y = 2"] "if n < 2" ["print n"; "print y"]
               (OIf "n < 2")
               (PState [Assign "x" "1"] (Some [(ODef "f" "n", [Assign "y" "2"])]) {["f"]})
               [(ODef "f" "n", [Assign "y" "2"])]
               (PState [Print "n"; Print "y"] (Some []) ∅)).
    + reflexivity.
    + vm_compute. reflexivity.
    + vm_compute. reflexivity.
    + reflexivity.
    + vm_compute. reflexivity.
    + vm_compute. reflexivity.
    + done.
Defined.

(** ** C9: addresses and the size of the memory *)

Section Triples.
Local Open Scope nat_scope.
Implicit Types (s : vm) (P : vm → Prop).

Lemma triple_vret {A} (a : A) P (Q : A → vm → Prop) :
  (∀ s, P s → Q a s) → triple P (vret a) Q.
Proof. intros HQ s Hwf HP. cbn. auto. Qed.

Lemma triple_vraise {A} (e : exn) P (Q : A → vm → Prop) :
  e ≠ IndexError AtMemory → triple P (vraise e) Q.
Proof. intros He s Hwf HP. cbn. split; [done|]. by intros ->. Qed.

Lemma triple_vbind {A B} (m : method A) (k : A → method B) P
      (Q : A → vm → Prop) (R : B → vm → Prop) :
  triple P m Q → (∀ a, triple (Q a) (k a) R) → triple P (vbind m k) R.
Proof.
  intros Hm Hk s Hwf HP. destruct (Hm s Hwf HP) as [Hwf1 Hres].
  unfold vbind. destruct (m s) as [[a|e] s1]; cbn in *; [|done].
  by apply Hk.
Qed.

Lemma triple_weaken {A} (m : method A) P P' (Q Q' : A → vm → Prop) :
  triple P m Q → (∀ s, P' s → P s) → (∀ a s, Q a s → Q' a s) → triple P' m Q'.
Proof.
  intros Hm HP HQ s Hwf HP'. destruct (Hm s Hwf (HP s HP')) as [Hwf1 Hres].
  split; [done|]. destruct (m s).1; auto.
Qed.

Lemma triple_read {A} (f : vm → A) P :
  triple P (read f) (λ a s, a = f s ∧ P s).
Proof. intros s Hwf HP. cbn. auto. Qed.

Lemma triple_update (f : vm → vm) P (Q : unit → vm → Prop) :
  (∀ s, well_formed s → P s → well_formed (f s) ∧ Q tt (f s)) →
  triple P (update f) Q.
Proof. intros Hf s Hwf HP. cbn. by apply Hf. Qed.

(** Updates of the fields that hold no address. *)
Lemma well_formed_same (s s' : vm) :
  memory s' = memory s → next_mem_addr s' = next_mem_addr s →
  scope_stack s' = scope_stack s → well_formed s → well_formed s'.
Proof.
  unfold well_formed, addresses_allocated. by intros -> -> ->.
Qed.

Lemma triple_get_var_addr (name : string) :
  triple any (get_var_addr name)
         (λ a s, ∀ n, a = Some n → n < next_mem_addr s).
Proof.
  intros s [Hmem Hscopes] _. unfold get_var_addr.
  destruct (is_temp_var name); [cbn; by split|].
  unfold vbind, read. cbv beta.
  destruct (scope_stack s) as [|top below] eqn:Hstack; [cbn; by split|].
  unfold addresses_allocated in Hscopes. rewrite Hstack in Hscopes.
  apply Forall_cons in Hscopes as [Htop Hbelow].
  destruct (top !! name) as [addr|] eqn:Hbound; cbn.
  - split; [split; [done|]; unfold addresses_allocated; rewrite Hstack; by constructor|].
    intros n [= <-]. by apply (Htop name).
  - split; [|intros n [= <-]; lia].
    split; [done|]. unfold addresses_allocated. cbn. constructor.
    + apply map_Forall_insert_2; [lia|].
      eapply map_Forall_impl; [exact Htop|]. cbn. intros; lia.
    + eapply Forall_impl; [exact Hbelow|]. intros scope Hscope.
      eapply map_Forall_impl; [exact Hscope|]. cbn. intros; lia.
Qed.

Lemma triple_load_memory (addr : option nat) :
  triple (λ s, ∀ n, addr = Some n → n < next_mem_addr s)
         (load AtMemory memory addr) anything.
Proof.
  intros s [Hmem Hscopes] Haddr. unfold load.
  destruct addr as [n|]; [|cbn; by split].
  unfold vbind, read. cbv beta.
  destruct (memory s !! n) as [v|] eqn:Hcell; cbn; (split; [done|]); [done|].
  intros _. apply lookup_ge_None in Hcell. specialize (Haddr n eq_refl). lia.
Qed.

Lemma triple_store_memory (addr : option nat) (value : Z) :
  triple (λ s, ∀ n, addr = Some n → n < next_mem_addr s)
         (store AtMemory memory set_memory addr value) anything.
Proof.
  intros s [Hmem Hscopes] Haddr. unfold store.
  destruct addr as [n|]; [|cbn; by split].
  unfold vbind, read. cbv beta. case_decide; cbn.
  - split; [|done]. split; [|done].
    change (length (<[n:=value]> (memory s)) = memory_size).
    by rewrite length_insert.
  - split; [done|]. intros _. specialize (Haddr n eq_refl). lia.
Qed.

Lemma triple_load_registers (index : option nat) :
  triple any (load AtRegisters registers index) anything.
Proof.
  intros s Hwf _. unfold load. destruct index as [n|]; [|cbn; by split].
  unfold vbind, read. cbv beta.
  by destruct (registers s !! n); cbn.
Qed.

Lemma triple_store_registers (index : option nat) (value : Z) :
  triple any (store AtRegisters registers set_registers index value) anything.
Proof.
  intros s Hwf _. unfold store. destruct index as [n|]; [|cbn; by split].
  unfold vbind, read. cbv beta. by case_decide; cbn.
Qed.

Lemma triple_py_int (arg : string) : triple any (py_int arg) anything.
Proof. intros s Hwf _. unfold py_int. by destruct (PyStr.int_of_token arg); cbn. Qed.

Lemma triple_eval_arg (arg : string) : triple any (eval_arg arg) anything.
Proof.
  unfold eval_arg. destruct (_ || _); [apply triple_py_int|].
  destruct (is_temp_var arg); [apply triple_load_registers|].
  eapply triple_vbind; [apply triple_get_var_addr|].
  intros addr. apply triple_load_memory.
Qed.

Lemma triple_set_var (var_name : string) (value : Z) :
  triple any (set_var var_name value) anything.
Proof.
  unfold set_var. destruct (is_temp_var var_name); [apply triple_store_registers|].
  eapply triple_vbind; [apply triple_get_var_addr|].
  intros addr. apply triple_store_memory.
Qed.

Lemma triple_push (value : Z) : triple any (push value) anything.
Proof.
  intros s Hwf _. unfold push, vbind, read, update. cbv beta.
  by case_decide; cbn.
Qed.

Lemma triple_pop : triple any pop anything.
Proof.
  intros s Hwf _. unfold pop, vbind, read, update. cbv beta.
  destruct (sp s) as [|p]; cbn; [done|].
  by destruct (stack s !! p); cbn.
Qed.

Lemma triple_part (parts : list string) (k : nat) : triple any (part parts k) anything.
Proof. intros s Hwf _. unfold part. by destruct (parts !! k); cbn. Qed.

Lemma triple_jump (label : string) : triple any (jump label) anything.
Proof.
  intros s Hwf _. unfold jump, label_index, vbind, read, update. cbv beta.
  by destruct (labels s !! label); cbn.
Qed.

Lemma triple_seq {A B} (m : method A) (k : A → method B) :
  triple any m anything → (∀ a, triple any (k a) anything) →
  triple any (vbind m k) anything.
Proof. intros Hm Hk. eapply triple_vbind; [exact Hm|]. intros a. apply Hk. Qed.

Lemma triple_read_any {A} (f : vm → A) : triple any (read f) anything.
Proof. by intros s Hwf _. Qed.

Lemma triple_set_pc (target : Z) : triple any (update (set_pc target)) anything.
Proof. apply triple_update. intros s Hwf _. split; [|done]. by apply (well_formed_same s). Qed.

Lemma triple_set_output (out : list string) :
  triple any (update (set_output out)) anything.
Proof. apply triple_update. intros s Hwf _. split; [|done]. by apply (well_formed_same s). Qed.

(** [self.scope_stack.pop()] *)
Lemma triple_drop_scope {A} (k : list (gmap string nat) → method A) :
  (∀ top below, triple any (k (top :: below)) anything) →
  triple any (vbind (read scope_stack) (λ scopes,
                match scopes with
                | [] => vraise (IndexError AtScopePop)
                | _ :: below => vbind (update (set_scope_stack below)) (λ _, k scopes)
                end)) anything.
Proof.
  intros Hk. eapply triple_vbind; [apply (triple_read scope_stack any)|].
  intros [|top below]; [by apply triple_vraise|].
  apply (triple_vbind _ _ _ anything); [|intros ?; apply Hk].
  apply triple_update. intros s [Hmem Hscopes] [Hstack _]. split; [|done].
  split; [done|]. unfold addresses_allocated in *. rewrite <- Hstack in Hscopes.
  by apply Forall_cons in Hscopes as [_ Hbelow].
Qed.

(** [self.scope_stack.append({})] *)
Lemma triple_new_scope {A} (k : method A) :
  triple any k anything →
  triple any (vbind (read scope_stack) (λ scopes,
                vbind (update (set_scope_stack (∅ :: scopes))) (λ _, k))) anything.
Proof.
  intros Hk. eapply triple_vbind; [apply (triple_read scope_stack any)|].
  intros scopes. apply (triple_vbind _ _ _ anything); [|intros ?; apply Hk].
  apply triple_update. intros s [Hmem Hscopes] [Hstack _]. split; [|done].
  split; [done|]. unfold addresses_allocated in *. cbn. rewrite Hstack.
  constructor; [apply map_Forall_empty|done].
Qed.

Ltac triple_auto :=
  repeat first
    [ apply triple_vret; done
    | apply triple_vraise; done
    | apply triple_part | apply triple_eval_arg | apply triple_set_var
    | apply triple_pop | apply triple_push | apply triple_py_int
    | apply triple_jump | apply triple_set_pc | apply triple_set_output
    | apply triple_read_any
    | apply triple_drop_scope; intros ? ?
    | apply triple_new_scope
    | apply triple_seq; [|intros ?]
    | case_decide ].

(** One instruction keeps the machine well formed, and a memory access
    out of range means that too many addresses were handed out. *)
Lemma triple_exec (instr : string) : triple any (exec instr) anything.
Proof.
  unfold exec. apply triple_seq; [apply triple_part|]. intros op.
  repeat (match goal with
          | |- context [String.eqb op ?k] => destruct (String.eqb op k)
          end); triple_auto.
Qed.
End Triples.

Lemma well_formed_new_vm : well_formed new_vm.
Proof.
  split; [reflexivity|]. unfold addresses_allocated. cbn.
  constructor; [apply map_Forall_empty|constructor].
Qed.

Lemma fetch_error (s : vm) (e : exn) :
  fetch s = Err e → e = IndexError AtProgram.
Proof.
  unfold fetch. case_decide; [by intros [= <-]|].
  destruct (program s !! _); [done|by intros [= <-]].
Qed.

(** A run that starts well formed ends well formed, and it raises the
    [IndexError] of a memory access only after more addresses were handed
    out than the memory has cells. *)
Lemma run_loop_memory (fuel : nat) : ∀ s o s',
  well_formed s → run_loop fuel s = (o, s') →
  well_formed s'
  ∧ (o = Raised (IndexError AtMemory) → (memory_size < next_mem_addr s')%nat).
Proof.
  induction fuel as [|fuel IH]; intros s o s' Hwf.
  - cbn [run_loop]. case_decide; by intros [= <- <-].
  - destruct (decide (pc s < Z.of_nat (length (program s)))) as [Hpc|Hpc].
    + rewrite run_loop_step by done.
      destruct (fetch s) as [instr|e] eqn:Hfetch.
      * destruct (triple_exec instr s Hwf I) as [Hwf1 Hres].
        destruct (exec instr s) as [[sig|e] s1]; cbn [fst snd] in *.
        -- destruct sig.
           ++ apply IH. by apply (well_formed_same s1).
           ++ by apply IH.
           ++ by intros [= <- <-].
        -- intros [= <- <-]. split; [done|]. intros [= ->]. by apply Hres.
      * intros [= <- <-]. split; [done|]. intros [= ->].
        by apply fetch_error in Hfetch.
    + cbn [run_loop]. destruct fuel; cbn [run_loop]; rewrite decide_False by done;
        by intros [= <- <-].
Qed.

Lemma execute_vm_memory (fuel : nat) (code : list string) (o : outcome) (s' : vm) :
  execute_vm fuel code = (o, s') →
  (next_mem_addr s' ≤ memory_size)%nat →
  o ≠ Raised (IndexError AtMemory).
Proof.
  unfold execute_vm, load_program.
  destruct (label_map 0 code ∅) as [ls|e] eqn:Hlabels.
  - intros Hrun Hfew Ho. apply run_loop_memory in Hrun as [_ Hmany].
    + specialize (Hmany Ho). lia.
    + by apply (well_formed_same new_vm); [..|apply well_formed_new_vm].
  - intros [= <- <-] _ [= ->].
    clear -Hlabels. revert Hlabels. generalize 0%nat, (∅ : gmap string nat).
    induction code as [|line rest IH]; intros i ls; cbn [label_map]; [done|].
    destruct (PyStr.startswith "LABEL " line); [|apply IH].
    destruct (PyStr.split line !! 1%nat); [apply IH|done].
Qed.

(** C9. Address allocation is not checked against the size of the memory:
    for a name not yet bound in the current scope, [get_var_addr] hands out
    [next_mem_addr], whatever its value, and moves it up by one.  So there
    is a runnable program -- here one compiled from source, whose calls bind
    more than 512 names in all -- on which a memory access is out of range
    and raises an [IndexError].  For a run that leaves at most 512 addresses
    handed out, no memory access is out of range. *)
Theorem memory_bounds :
  (∀ name s top below,
     is_temp_var name = false → scope_stack s = top :: below → top !! name = None →
     ∃ s', get_var_addr name s = (Ok (Some (next_mem_addr s)), s')
           ∧ next_mem_addr s' = S (next_mem_addr s))
  ∧ (∃ code fuel,
       compile many_calls_source = Some (Ok code)
       ∧ execute fuel code = Raised (IndexError AtMemory))
  ∧ (∀ code fuel o s',
       execute_vm fuel code = (o, s') →
       (next_mem_addr s' ≤ memory_size)%nat →
       o ≠ Raised (IndexError AtMemory)).
Proof.
  split; [|split].
  - intros name s top below Htmp Hstack Hfree.
    rewrite (get_var_addr_top name s top below Htmp Hstack), Hfree.
    eexists. split; [reflexivity|]. cbn. lia.
  - exists many_calls_assembly, (70 * 100)%nat. split; vm_compute; reflexivity.
  - intros code fuel o s'. apply execute_vm_memory.
Qed.

Lemma memory_bounds_witness :
  (∃ s', get_var_addr "x" (set_next_mem_addr 600 new_vm)
         = (Ok (Some 600%nat), s'))
  ∧ execute 2000 fib_assembly ≠ Raised (IndexError AtMemory).
Proof.
  destruct memory_bounds as (Halloc & _ & Hsafe). split.
  - destruct (Halloc "x" (set_next_mem_addr 600 new_vm) ∅ []) as (s' & Hs' & _);
      [reflexivity|reflexivity|reflexivity|].
    exists s'. exact Hs'.
  - apply (Hsafe fib_assembly 2000%nat _ (snd (execute_vm 2000 fib_assembly))).
    + unfold execute. by destruct (execute_vm 2000 fib_assembly).
    + vm_compute. lia.
Defined.

(** ** Decimal numerals *)

Section Numerals.
Import PyStr.

Lemma digits_of_uint (d : Decimal.uint) :
  forallb is_digit (NilEmpty.string_of_uint d) = true.
Proof. induction d; cbn [NilEmpty.string_of_uint forallb]; by rewrite ?IHd. Qed.

Lemma digits_acc_nat (d : Decimal.uint) : ∀ a : nat,
  digits_acc (Z.of_nat a) (NilEmpty.string_of_uint d) = Z.of_nat (Nat.of_uint_acc d a).
Proof.
  induction d; intros a; cbn [NilEmpty.string_of_uint digits_acc Nat.of_uint_acc];
    [done|..]; rewrite <- IHd; f_equal; rewrite Nat.tail_mul_spec;
    unfold digit_val; cbn; lia.
Qed.

Lemma nonempty_of_uint (d : Decimal.uint) :
  is_empty (NilZero.string_of_uint d) = false.
Proof. by destruct d. Qed.

Lemma digits_of_uint_zero (d : Decimal.uint) :
  forallb is_digit (NilZero.string_of_uint d) = true.
Proof. destruct d; try apply digits_of_uint. reflexivity. Qed.

(** [str(n)] is a numeral, and [int()] reads [n] back from it. *)
Lemma isdigit_str_of_nat (n : nat) : isdigit (str_of_nat n) = true.
Proof.
  unfold isdigit, str_of_nat. by rewrite nonempty_of_uint, digits_of_uint_zero.
Qed.

Lemma int_of_str_of_nat (n : nat) : int_of_digits (str_of_nat n) = Z.of_nat n.
Proof.
  unfold int_of_digits, str_of_nat.
  rewrite <- (DecimalNat.Unsigned.of_to n) at 2. unfold Nat.of_uint.
  destruct (Nat.to_uint n) eqn:Hd; try apply (digits_acc_nat _ 0%nat).
  reflexivity.
Qed.

Lemma str_of_nat_inj (n m : nat) : str_of_nat n = str_of_nat m → n = m.
Proof.
  intros Heq. apply Nat2Z.inj. by rewrite <- !int_of_str_of_nat, Heq.
Qed.

Lemma digits_acc_pos (d : Decimal.uint) : ∀ a : positive,
  digits_acc (Z.pos a) (NilEmpty.string_of_uint d) = Z.pos (Pos.of_uint_acc d a).
Proof.
  induction d; intros a; cbn [NilEmpty.string_of_uint digits_acc Pos.of_uint_acc];
    [done|..]; rewrite <- IHd; f_equal; unfold digit_val; cbn; lia.
Qed.

Lemma digits_acc_uint (d : Decimal.uint) :
  digits_acc 0 (NilEmpty.string_of_uint d) = Z.of_uint d.
Proof.
  unfold Z.of_uint.
  induction d; cbn [NilEmpty.string_of_uint digits_acc Pos.of_uint]; [done|..];
    try apply (digits_acc_pos d). exact IHd.
Qed.

Lemma int_of_uint_zero (d : Decimal.uint) :
  int_of_digits (NilZero.string_of_uint d) = Z.of_uint d.
Proof. destruct d; try apply digits_acc_uint. reflexivity. Qed.

Lemma grouped_digits_all (s : string) (prev : bool) :
  forallb is_digit s = true → is_empty s = false → grouped_digits prev s = true.
Proof.
  revert prev. induction s as [|c s IH]; intros prev; [done|].
  cbn [forallb grouped_digits]. intros [Hc Hs]%andb_prop _. rewrite Hc.
  destruct s as [|c' s]; [done|]. by apply IH.
Qed.

Lemma remove_underscores_digits (s : string) :
  forallb is_digit s = true → remove_underscores s = s.
Proof.
  induction s as [|c s IH]; [done|]. cbn [forallb remove_underscores].
  intros [Hc Hs]%andb_prop. rewrite IH by done.
  destruct (Ascii.eqb_spec c "_") as [->|]; [done|done].
Qed.

Lemma first_digit (s : string) (c : ascii) :
  forallb is_digit (String c s) = true →
  Ascii.eqb c "-" = false ∧ Ascii.eqb c "+" = false.
Proof.
  cbn [forallb]. intros [Hc _]%andb_prop.
  split; [destruct (Ascii.eqb_spec c "-") as [->|]|destruct (Ascii.eqb_spec c "+") as [->|]];
    done.
Qed.

(** [int()] reads back what [str()] has written. *)
Lemma int_of_token_str_of_Z (z : Z) : int_of_token (str_of_Z z) = Some z.
Proof.
  rewrite <- (DecimalZ.of_to z) at 2. unfold str_of_Z, int_of_token.
  destruct (Z.to_int z) as [d|d]; cbn [NilZero.string_of_int Z.of_int].
  - pose proof (digits_of_uint_zero d) as Hd. pose proof (nonempty_of_uint d) as Hne.
    pose proof (int_of_uint_zero d) as Hval.
    destruct (NilZero.string_of_uint d) as [|c s]; [done|].
    destruct (first_digit _ _ Hd) as [-> ->].
    by rewrite grouped_digits_all, remove_underscores_digits, Hval.
  - cbn [Ascii.eqb Bool.eqb]. change (Ascii.eqb "-" "-") with true. cbv iota.
    rewrite grouped_digits_all, remove_underscores_digits, int_of_uint_zero;
      auto using digits_of_uint_zero, nonempty_of_uint.
Qed.

(** What [str()] writes is an integer literal for [eval_arg]. *)
Lemma literal_str_of_Z (z : Z) :
  isdigit (str_of_Z z) || (startswith "-" (str_of_Z z) && isdigit (drop 1 (str_of_Z z)))
  = true.
Proof.
  unfold str_of_Z. destruct (Z.to_int z) as [d|d]; cbn [NilZero.string_of_int].
  - unfold isdigit. by rewrite nonempty_of_uint, digits_of_uint_zero.
  - apply orb_true_iff. right. cbn [startswith drop]. 
    change (Ascii.eqb "-" "-") with true. unfold isdigit.
    by rewrite nonempty_of_uint, digits_of_uint_zero.
Qed.

End Numerals.

(** ** Temp variables and registers *)

(** A temp variable is no integer literal. *)
Lemma temp_var_not_literal (name : string) :
  is_temp_var name = true →
  PyStr.isdigit name
  || (PyStr.startswith "-" name && PyStr.isdigit (PyStr.drop 1 name)) = false.
Proof.
  unfold is_temp_var. intros [Htmp _]%andb_prop.
  destruct name as [|c name]; [done|]. cbn [PyStr.startswith] in Htmp.
  apply andb_prop in Htmp as [Hc _]. apply Ascii.eqb_eq in Hc as <-. reflexivity.
Qed.

Lemma get_temp_register_bound (name : string) (r : nat) :
  get_temp_register name = Some r → (r < 16)%nat.
Proof.
  unfold get_temp_register. destruct (is_temp_var name); [|done].
  intros [= <-].
  match goal with
  | |- context [?x `mod` 16] => pose proof (Z.mod_pos_bound x 16 eq_refl)
  end. lia.
Qed.

(** X1. The names that [temp()] hands out: the counter moves up by one, the
    name is a temp variable for the machine, its register is the new counter
    modulo 16, and two calls at different counters give different names. *)
Theorem temp_names (c1 c2 : nat) :
  ∃ name1 name2,
    temp c1 = Some (Ok (name1, S c1))
    ∧ temp c2 = Some (Ok (name2, S c2))
    ∧ is_temp_var name1 = true
    ∧ get_temp_register name1 = Some (S c1 `mod` 16)%nat
    ∧ (name1 = name2 → c1 = c2).
Proof.
  eexists _, _. split; [reflexivity|]. split; [reflexivity|].
  assert (Hdrop : ∀ x, PyStr.drop 3 ("tmp" +:+ x) = x) by reflexivity.
  assert (Htmp : is_temp_var ("tmp" +:+ PyStr.str_of_nat (S c1)) = true).
  { unfold is_temp_var. rewrite Hdrop, isdigit_str_of_nat. reflexivity. }
  split; [exact Htmp|]. split.
  - unfold get_temp_register. rewrite Htmp, Hdrop, int_of_str_of_nat. f_equal.
    rewrite <- (Nat2Z.id (S c1 `mod` 16)). f_equal. by rewrite Nat2Z.inj_mod.
  - intros Heq. apply (f_equal (PyStr.drop 3)) in Heq. rewrite !Hdrop in Heq.
    apply str_of_nat_inj in Heq. lia.
Qed.

(** X2. Registers are shared modulo 16: a value stored through one temp
    variable is what any temp variable of the same register reads, and a
    temp variable of another register reads what it read before. *)
Theorem register_aliasing (a b : string) (v : Z) (s : vm) (ra rb : nat) :
  length (registers s) = 16%nat →
  get_temp_register a = Some ra →
  get_temp_register b = Some rb →
  ∃ s',
    set_var a v s = (Ok tt, s')
    ∧ (ra = rb → eval_arg b s' = (Ok v, s'))
    ∧ (ra ≠ rb → ∃ w, eval_arg b s = (Ok w, s) ∧ eval_arg b s' = (Ok w, s')).
Proof.
  intros Hlen Ha Hb.
  assert (is_temp_var a = true ∧ is_temp_var b = true) as [Hta Htb].
  { unfold get_temp_register in Ha, Hb.
    destruct (is_temp_var a), (is_temp_var b); done. }
  pose proof (get_temp_register_bound a ra Ha) as Hra.
  pose proof (get_temp_register_bound b rb Hb) as Hrb.
  assert (Heval : ∀ s0, eval_arg b s0 = load AtRegisters registers (Some rb) s0).
  { intros s0. unfold eval_arg. by rewrite temp_var_not_literal, Htb, Hb. }
  exists (set_registers (<[ra := v]> (registers s)) s). split; [|split].
  - unfold set_var. rewrite Hta, Ha. unfold store, vbind, read. cbv beta.
    cbn [fst snd]. by rewrite decide_True by lia.
  - intros <-. rewrite Heval. unfold load, vbind, read. cbv beta.
    cbn [registers set_registers]. by rewrite list_lookup_insert_eq by lia.
  - intros Hne. destruct (lookup_lt_is_Some_2 (registers s) rb) as [w Hw]; [lia|].
    exists w. rewrite !Heval. unfold load, vbind, read. cbv beta.
    cbn [registers set_registers].
    by rewrite list_lookup_insert_ne, Hw by done.
Qed.

Lemma register_aliasing_witness :
  ∃ s', set_var "tmp17" 42 new_vm = (Ok tt, s')
        ∧ (1%nat = 1%nat → eval_arg "tmp1" s' = (Ok 42, s')).
Proof.
  destruct (register_aliasing "tmp17" "tmp1" 42 new_vm 1 1) as (s' & Hset & Hsame & _);
    [reflexivity|reflexivity|reflexivity|].
  exists s'. by split.
Defined.

(** X3. What [PRINT] writes for an integer whose numeral is within the
    digit limit of [str()] and [int()], read as an operand, is that integer
    again, and reading it leaves the machine as it was. *)
Theorem literal_round_trip (z : Z) (s : vm) :
  (String.length (PyStr.str_of_Z (Z.abs z)) ≤ max_str_digits)%nat →
  eval_arg (PyStr.str_of_Z z) s = (Ok z, s).
Proof.
  intros _. unfold eval_arg. rewrite literal_str_of_Z. unfold py_int.
  by rewrite int_of_token_str_of_Z.
Qed.

Lemma literal_round_trip_witness :
  eval_arg (PyStr.str_of_Z (-42)) new_vm = (Ok (-42), new_vm).
Proof.
  apply (literal_round_trip (-42) new_vm). apply Nat.leb_le. vm_compute. reflexivity.
Defined.

(** ** The stack *)

(** X4. The stack is last in, first out, within its 16 cells: with a free
    cell, [push] then [pop] gives the value back and the stack pointer is
    where it was; [push] on a full stack and [pop] on an empty one raise
    and leave the machine as it was. *)
Theorem push_pop (v : Z) (s : vm) :
  length (stack s) = stack_size →
  ((sp s < stack_size)%nat →
     ∃ s1 s2, push v s = (Ok tt, s1) ∧ pop s1 = (Ok v, s2)
              ∧ sp s1 = S (sp s) ∧ sp s2 = sp s
              ∧ ∀ i, (i < sp s)%nat → stack s2 !! i = stack s !! i)
  ∧ ((stack_size ≤ sp s)%nat → push v s = (Err StackOverflow, s))
  ∧ (sp s = 0%nat → pop s = (Err StackUnderflow, s)).
Proof.
  intros Hlen. split; [|split].
  - intros Hfree. eexists _, _. unfold push, pop, vbind, read, update. cbv beta.
    cbn [fst snd sp stack set_sp set_stack].
    rewrite decide_False by lia. split; [reflexivity|].
    cbn [sp stack set_sp set_stack].
    replace (sp s + 1)%nat with (S (sp s)) by lia.
    cbn [sp stack set_sp set_stack].
    rewrite list_lookup_insert_eq by lia. split; [reflexivity|].
    cbn [sp stack set_sp set_stack]. repeat split.
    intros i Hi. by rewrite list_lookup_insert_ne by lia.
  - intros Hfull. unfold push, vbind, read. cbv beta. by rewrite decide_True by lia.
  - intros Hempty. unfold pop, vbind, read. cbv beta. by rewrite Hempty.
Qed.

Lemma push_pop_witness :
  ∃ s1 s2, push 7 new_vm = (Ok tt, s1) ∧ pop s1 = (Ok 7, s2) ∧ sp s2 = 0%nat.
Proof.
  destruct (proj1 (push_pop 7 new_vm eq_refl)) as (s1 & s2 & H1 & H2 & _ & H3 & _).
  - cbn. unfold stack_size. lia.
  - exists s1, s2. by repeat split.
Defined.

(** ** What the machine keeps *)

Lemma good_change (s s' : vm) : change s s' → good s → good s'.
Proof.
  intros Hchange ([Hmem [Hregs [Hstack Hsp]]] & Halloc & Hdist & Hzero).
  destruct Hchange as [s target|s value Hfree|s p Hsp'|s top below name Hscopes Hnew
                       |s|s top below Hscopes|s r value Hr|s addr value Ha Hlen|s line].
  - done.
  - split; [|done]. repeat split; cbn [memory registers stack sp set_sp set_stack];
      rewrite ?length_insert; try done. lia.
  - split; [|done]. repeat split; try done. cbn [sp set_sp]. lia.
  - unfold addresses_allocated, addresses_distinct in *. rewrite Hscopes in *.
    apply Forall_cons in Halloc as [Htop Hbelow].
    split; [done|]. split; [|split].
    + cbn. constructor.
      * apply map_Forall_insert_2; [cbn; lia|].
        eapply map_Forall_impl; [exact Htop|]. cbn. intros; lia.
      * eapply Forall_impl; [exact Hbelow|]. intros scope Hscope.
        eapply map_Forall_impl; [exact Hscope|]. cbn. intros; lia.
    + cbn. intros i j scope1 scope2 name1 name2 addr H1 H2 Hb1 Hb2.
      assert (Hold : ∀ k scope n a,
                (top :: below) !! k = Some scope → scope !! n = Some a →
                (a < next_mem_addr s)%nat).
      { intros k scope n a Hk Hn.
        assert (Forall (map_Forall (λ _ a, (a < next_mem_addr s)%nat)) (top :: below))
          as Hall by by constructor.
        rewrite Forall_forall in Hall.
        apply (Hall scope (list_elem_of_lookup_2 _ _ _ Hk) n a Hn). }
      destruct i as [|i], j as [|j]; cbn in H1, H2; simplify_eq.
      * destruct (decide (name1 = name)) as [->|Hne1];
          destruct (decide (name2 = name)) as [->|Hne2]; [done|..].
        -- rewrite lookup_insert_eq in Hb1. rewrite lookup_insert_ne in Hb2 by done.
           simplify_eq. pose proof (Hold 0%nat top name2 _ eq_refl Hb2). lia.
        -- rewrite lookup_insert_eq in Hb2. rewrite lookup_insert_ne in Hb1 by done.
           simplify_eq. pose proof (Hold 0%nat top name1 _ eq_refl Hb1). lia.
        -- rewrite lookup_insert_ne in Hb1, Hb2 by done.
           by apply (Hdist 0%nat 0%nat top top name1 name2 addr).
      * destruct (decide (name1 = name)) as [->|Hne1].
        -- rewrite lookup_insert_eq in Hb1. simplify_eq.
           pose proof (Hold (S j) scope2 name2 _ H2 Hb2). lia.
        -- rewrite lookup_insert_ne in Hb1 by done.
           by destruct (Hdist 0%nat (S j) top scope2 name1 name2 addr).
      * destruct (decide (name2 = name)) as [->|Hne2].
        -- rewrite lookup_insert_eq in Hb2. simplify_eq.
           pose proof (Hold (S i) scope1 name1 _ H1 Hb1). lia.
        -- rewrite lookup_insert_ne in Hb2 by done.
           by destruct (Hdist (S i) 0%nat scope1 top name1 name2 addr).
      * by apply (Hdist (S i) (S j) scope1 scope2 name1 name2 addr).
    + intros addr value Hcell Hge. cbn in Hcell, Hge. apply (Hzero addr value Hcell). lia.
  - unfold addresses_allocated, addresses_distinct in *.
    split; [done|]. split; [|split; [|done]].
    + cbn. constructor; [apply map_Forall_empty|done].
    + cbn. intros i j scope1 scope2 name1 name2 addr H1 H2 Hb1 Hb2.
      destruct i as [|i], j as [|j]; cbn in H1, H2; simplify_eq.
      destruct (Hdist i j scope1 scope2 name1 name2 addr) as [-> ->]; done.
  - unfold addresses_allocated, addresses_distinct in *. rewrite Hscopes in *.
    apply Forall_cons in Halloc as [Htop Hbelow].
    split; [done|]. split; [done|]. split; [|done].
    cbn. intros i j scope1 scope2 name1 name2 addr H1 H2 Hb1 Hb2.
    destruct (Hdist (S i) (S j) scope1 scope2 name1 name2 addr) as [Hij ->]; try done.
    split; [lia|done].
  - split; [|done]. repeat split; try done. cbn. by rewrite length_insert.
  - split; [|split; [done|split; [done|]]].
    + repeat split; try done. cbn. by rewrite length_insert.
    + intros a v Hcell Hge. cbn in Hcell, Hge.
      rewrite list_lookup_insert_ne in Hcell by lia. by apply (Hzero a v).
  - done.
Qed.

Lemma good_changes (s s' : vm) : rtc change s s' → good s → good s'.
Proof. induction 1; eauto using good_change. Qed.

Lemma extends_refl (s : vm) : extends s s.
Proof. by repeat split. Qed.

Lemma extends_trans (s0 s1 s2 : vm) : extends s0 s1 → extends s1 s2 → extends s0 s2.
Proof.
  intros (Hp1 & Hl1 & Ho1 & Hn1) (Hp2 & Hl2 & Ho2 & Hn2).
  repeat split; [congruence|congruence|by etrans|lia].
Qed.

Lemma extends_change (s s' : vm) : change s s' → extends s s'.
Proof.
  destruct 1; repeat split; cbn; try done; try lia.
  by apply prefix_app_r.
Qed.

Lemma extends_changes (s s' : vm) : rtc change s s' → extends s s'.
Proof.
  induction 1; [apply extends_refl|].
  eapply extends_trans; [by apply extends_change|done].
Qed.

Section Behaves.

Lemma behaves_vret {A} (a : A) : behaves (vret a).
Proof. intros s _. by split. Qed.

Lemma behaves_vraise {A} (e : exn) : machine_error e → behaves (@vraise A e).
Proof. intros He s _. split; [done|]. by intros e' [= <-]. Qed.

Lemma behaves_vbind {A B} (m : method A) (k : A → method B) :
  behaves m → (∀ a, behaves (k a)) → behaves (vbind m k).
Proof.
  intros Hm Hk s Hgood. destruct (Hm s Hgood) as [Hch Herr]. unfold vbind.
  destruct (m s) as [[a|e] s1]; cbn [fst snd] in *; [|split; [exact Hch|intros e' [= <-]; by apply Herr]].
  destruct (Hk a s1 (good_changes _ _ Hch Hgood)) as [Hch' Herr'].
  split; [by etrans|done].
Qed.

Lemma behaves_read {A} (f : vm → A) : behaves (read f).
Proof. intros s _. by split. Qed.

(** One elementary change. *)
Lemma behaves_update (f : vm → vm) :
  (∀ s, good s → change s (f s)) → behaves (update f).
Proof. intros Hf s Hgood. split; [|done]. apply rtc_once. by apply Hf. Qed.

Lemma behaves_part (parts : list string) (k : nat) : behaves (part parts k).
Proof. intros s _. unfold part. destruct (parts !! k); split; try done. by intros e [= <-]. Qed.

Lemma behaves_py_int (arg : string) : behaves (py_int arg).
Proof.
  intros s _. unfold py_int.
  destruct (PyStr.int_of_token arg); split; try done. by intros e [= <-].
Qed.

Lemma behaves_jump (label : string) : behaves (jump label).
Proof.
  intros s _. unfold jump, label_index, vbind, read, update. cbv beta.
  destruct (labels s !! label); cbn [fst snd]; split; try done.
  - apply rtc_once. constructor.
  - by intros e [= <-].
Qed.

Lemma behaves_set_pc (target : Z) : behaves (update (set_pc target)).
Proof. apply behaves_update. intros s _. constructor. Qed.

Lemma behaves_push (value : Z) : behaves (push value).
Proof.
  intros s Hgood. unfold push, vbind, read, update. cbv beta.
  case_decide; cbn [fst snd]; split; try done.
  - by intros e [= <-].
  - apply rtc_once. constructor. lia.
Qed.

Lemma behaves_pop : behaves pop.
Proof.
  intros s ([_ [_ [Hstack Hsp]]] & _). unfold pop, vbind, read, update. cbv beta.
  destruct (sp s) as [|p] eqn:Hp; cbn [fst snd].
  - split; [done|]. by intros e [= <-].
  - destruct (lookup_lt_is_Some_2 (stack s) p) as [v Hv]; [lia|].
    cbn [stack set_sp]. rewrite Hv. cbn [fst snd].
    split; [|done]. apply rtc_once. by constructor.
Qed.

Lemma behaves_get_var_addr (name : string) : behaves (get_var_addr name).
Proof.
  intros s Hgood. unfold get_var_addr.
  destruct (is_temp_var name); [by split|].
  unfold vbind, read. cbv beta.
  destruct (scope_stack s) as [|top below] eqn:Hscopes; cbn [fst snd].
  { split; [done|]. by intros e [= <-]. }
  destruct (top !! name) as [addr|] eqn:Hbound; cbn [fst snd]; split; try done.
  apply rtc_once. by apply (change_bind s top below name).
Qed.

Lemma behaves_load (site : index_site) (cells : vm → list Z) (index : nat) :
  (∀ s, good s → (index < length (cells s))%nat) →
  behaves (load site cells (Some index)).
Proof.
  intros Hin s Hgood. unfold load, vbind, read. cbv beta.
  destruct (lookup_lt_is_Some_2 (cells s) index) as [v Hv]; [by apply Hin|].
  rewrite Hv. by split.
Qed.

Lemma behaves_eval_arg (arg : string) : behaves (eval_arg arg).
Proof.
  unfold eval_arg. destruct (_ || _); [apply behaves_py_int|].
  destruct (is_temp_var arg) eqn:Htmp.
  - unfold get_temp_register. rewrite Htmp. apply behaves_load.
    intros s ([_ [-> _]] & _).
    match goal with
    | |- context [?x `mod` 16] => pose proof (Z.mod_pos_bound x 16 eq_refl)
    end. lia.
  - intros s Hgood. destruct (behaves_get_var_addr arg s Hgood) as [Hch Herr].
    unfold vbind. destruct (get_var_addr arg s) as [[addr|e] s1] eqn:Hget;
      cbn [fst snd] in *; [|split; [exact Hch|intros e' [= <-]; by apply Herr]].
    destruct addr as [addr|]; [|by unfold get_var_addr in Hget; rewrite Htmp in Hget;
      unfold vbind, read in Hget; destruct (scope_stack s) as [|top ?];
      [|destruct (top !! arg)]].
    unfold load, vbind, read. cbv beta.
    destruct (memory s1 !! addr); cbn [fst snd]; split; try done.
    by intros e [= <-].
Qed.

Lemma behaves_set_var (var_name : string) (value : Z) : behaves (set_var var_name value).
Proof.
  unfold set_var. destruct (is_temp_var var_name) eqn:Htmp.
  - unfold get_temp_register. rewrite Htmp.
    intros s ([_ [Hregs _]] & _). unfold store, vbind, read, update. cbv beta.
    match goal with
    | |- context [?x `mod` 16] => pose proof (Z.mod_pos_bound x 16 eq_refl)
    end.
    rewrite decide_True by lia. cbn [fst snd]. split; [|done].
    apply rtc_once. constructor. lia.
  - intros s Hgood. destruct (behaves_get_var_addr var_name s Hgood) as [Hch Herr].
    destruct (triple_get_var_addr var_name s) as [_ Halloc];
      [split; [apply Hgood|apply Hgood]|done|].
    unfold vbind. destruct (get_var_addr var_name s) as [[addr|e] s1] eqn:Hget;
      cbn [fst snd] in *; [|split; [exact Hch|intros e' [= <-]; by apply Herr]].
    destruct addr as [addr|]; [|by unfold get_var_addr in Hget; rewrite Htmp in Hget;
      unfold vbind, read in Hget; destruct (scope_stack s) as [|top ?];
      [|destruct (top !! var_name)]].
    unfold store, vbind, read, update. cbv beta.
    case_decide; cbn [fst snd]; split; try done.
    + etrans; [exact Hch|]. apply rtc_once. constructor; [by apply Halloc|done].
    + by intros e [= <-].
Qed.

Lemma behaves_read_bind {A B} (f : vm → A) (k : A → method B) :
  (∀ s, good s →
     rtc change s (k (f s) s).2 ∧ ∀ e, (k (f s) s).1 = Err e → machine_error e) →
  behaves (vbind (read f) k).
Proof. intros Hk s Hgood. exact (Hk s Hgood). Qed.

(** A change, and then [k]. *)
Lemma behaves_change_then {A} (f : vm → vm) (k : method A) (s : vm) :
  good s → change s (f s) → behaves k →
  rtc change s (vbind (update f) (λ _, k) s).2
  ∧ ∀ e, (vbind (update f) (λ _, k) s).1 = Err e → machine_error e.
Proof.
  intros Hgood Hch Hk.
  destruct (Hk _ (good_change _ _ Hch Hgood)) as [Hch' Herr'].
  split; [by eapply rtc_l|done].
Qed.

(** [self.output.append(line)] *)
Lemma behaves_print {A} (line : string) (k : method A) :
  behaves k →
  behaves (vbind (read output) (λ out,
             vbind (update (set_output (out ++ [line]))) (λ _, k))).
Proof.
  intros Hk. apply behaves_read_bind. intros s Hgood.
  apply behaves_change_then; [done|constructor|done].
Qed.

(** [self.scope_stack.pop()] *)
Lemma behaves_drop_scope {A} (k : list (gmap string nat) → method A) :
  (∀ scopes, behaves (k scopes)) →
  behaves (vbind (read scope_stack) (λ scopes,
             match scopes with
             | [] => vraise (IndexError AtScopePop)
             | _ :: below => vbind (update (set_scope_stack below)) (λ _, k scopes)
             end)).
Proof.
  intros Hk. apply behaves_read_bind. intros s Hgood.
  destruct (scope_stack s) as [|top below] eqn:Hscopes.
  - split; [done|]. by intros e [= <-].
  - apply behaves_change_then; [done|by econstructor|done].
Qed.

(** [self.scope_stack.append({})] *)
Lemma behaves_new_scope {A} (k : method A) :
  behaves k →
  behaves (vbind (read scope_stack) (λ scopes,
             vbind (update (set_scope_stack (∅ :: scopes))) (λ _, k))).
Proof.
  intros Hk. apply behaves_read_bind. intros s Hgood.
  apply behaves_change_then; [done|constructor|done].
Qed.

Ltac behaves_auto :=
  repeat first
    [ apply behaves_vret
    | apply behaves_vraise; exact I
    | apply behaves_part | apply behaves_eval_arg | apply behaves_set_var
    | apply behaves_pop | apply behaves_push | apply behaves_py_int
    | apply behaves_jump | apply behaves_set_pc
    | apply behaves_read
    | apply behaves_print
    | apply behaves_drop_scope; intros ?
    | apply behaves_new_scope
    | apply behaves_vbind; [|intros ?]
    | case_decide ].

(** Every instruction makes elementary changes only, and raises machine
    errors only. *)
Lemma behaves_exec (instr : string) : behaves (exec instr).
Proof.
  unfold exec. apply behaves_vbind; [apply behaves_part|]. intros op.
  repeat (match goal with
          | |- context [String.eqb op ?k] => destruct (String.eqb op k)
          end); behaves_auto.
Qed.

End Behaves.

(** *** Runs *)



Lemma good_start (code : list string) (ls : gmap string nat) : good (start code ls).
Proof.
  split; [|split; [|split]].
  - repeat split; cbn [memory registers stack sp set_output set_sp set_pc set_labels
                         set_program new_vm start]; rewrite ?length_replicate; try done.
    unfold stack_size. lia.
  - unfold addresses_allocated.
    change (scope_stack (start code ls)) with [(∅ : gmap string nat)].
    constructor; [apply map_Forall_empty|constructor].
  - intros i j scope1 scope2 name1 name2 addr H1 _ Hb1 _.
    change (scope_stack (start code ls)) with [(∅ : gmap string nat)] in H1.
    destruct i as [|i]; cbn in H1; [|done]. by simplify_eq.
  - intros addr value Hcell _.
    change (memory (start code ls)) with (replicate memory_size 0) in Hcell.
    by apply lookup_replicate in Hcell as [-> _].
Qed.

Lemma good_loaded (code : list string) : good (set_program code new_vm).
Proof.
  destruct (good_start code ∅) as (Hshape & Halloc & Hdist & Hzero).
  split; [exact Hshape|split; [exact Halloc|split; [exact Hdist|exact Hzero]]].
Qed.

Lemma run_loop_changes (fuel : nat) : ∀ s,
  good s →
  rtc change s (run_loop fuel s).2
  ∧ ∀ e, (run_loop fuel s).1 = Raised e → machine_error e.
Proof.
  induction fuel as [|fuel IH]; intros s Hgood.
  - cbn [run_loop]. case_decide; cbn [fst snd]; by split.
  - destruct (decide (pc s < Z.of_nat (length (program s)))) as [Hpc|Hpc].
    + rewrite run_loop_step by done.
      destruct (fetch s) as [instr|e] eqn:Hfetch.
      * destruct (behaves_exec instr s Hgood) as [Hch Herr].
        destruct (exec instr s) as [[sig|e] s1]; cbn [fst snd] in *.
        -- pose proof (good_changes _ _ Hch Hgood) as Hgood1. destruct sig.
           ++ assert (change s1 (set_pc (pc s1 + 1) s1)) as Hpc1 by constructor.
              destruct (IH _ (good_change _ _ Hpc1 Hgood1)) as [Hch' Herr'].
              split; [|done]. etrans; [exact Hch|]. by eapply rtc_l.
           ++ destruct (IH _ Hgood1) as [Hch' Herr']. split; [by etrans|done].
           ++ by split.
        -- split; [done|]. intros e' [= <-]. by apply Herr.
      * split; [done|]. intros e' [= <-]. by apply fetch_error in Hfetch as ->.
    + cbn [run_loop]. rewrite decide_False by done. by split.
Qed.

Lemma run_loop_add (fuel k : nat) : ∀ s,
  run_loop (fuel + k) s
  = match run_loop fuel s with
    | (Running, s1) => run_loop k s1
    | r => r
    end.
Proof.
  induction fuel as [|fuel IH]; intros s.
  - cbn [Nat.add run_loop]. case_decide; [done|].
    destruct k; cbn [run_loop]; by rewrite decide_False.
  - destruct (decide (pc s < Z.of_nat (length (program s)))) as [Hpc|Hpc].
    + cbn [Nat.add]. rewrite !run_loop_step by done.
      destruct (fetch s) as [instr|e]; [|done].
      destruct (exec instr s) as [[[]|e] s1]; try done; apply IH.
    + cbn [Nat.add run_loop]. by rewrite !decide_False.
Qed.

Lemma execute_vm_unfold (fuel : nat) (code : list string) :
  execute_vm fuel code
  = match label_map 0 code ∅ with
    | Ok ls => run_loop fuel (start code ls)
    | Err e => (Raised e, set_program code new_vm)
    end.
Proof. unfold execute_vm, load_program, run. by destruct (label_map 0 code ∅). Qed.

Lemma label_map_error (code : list string) : ∀ i ls e,
  label_map i code ls = Err e → e = IndexError AtLabelName.
Proof.
  induction code as [|line rest IH]; intros i ls e; cbn [label_map]; [done|].
  destruct (PyStr.startswith "LABEL " line); [|apply IH].
  destruct (PyStr.split line !! 1%nat); [apply IH|by intros [= <-]].
Qed.

Lemma good_execute_vm (fuel : nat) (code : list string) : good (execute_vm fuel code).2.
Proof.
  rewrite execute_vm_unfold. destruct (label_map 0 code ∅) as [ls|e].
  - apply (good_changes _ _ (proj1 (run_loop_changes fuel _ (good_start code ls)))).
    apply good_start.
  - apply good_loaded.
Qed.

(** X5. At every point of every run the hardware has its sizes -- 512 memory
    cells, 16 registers, 16 stack cells -- and the stack pointer is within
    the stack. *)
Theorem run_keeps_shape (fuel : nat) (code : list string) :
  shape (execute_vm fuel code).2.
Proof. apply good_execute_vm. Qed.

(** X6. At every point of every run, no two bindings -- of the same scope or
    of two scopes, of the same name or not -- share a memory address; every
    address bound is below [next_mem_addr]; and every cell from
    [next_mem_addr] on still holds 0. *)
Theorem run_keeps_addresses_apart (fuel : nat) (code : list string) :
  let s := (execute_vm fuel code).2 in
  addresses_distinct s ∧ addresses_allocated s ∧ unused_cells_zero s.
Proof. destruct (good_execute_vm fuel code) as (_ & Halloc & Hdist & Hzero). done. Qed.

(** X7. A run only adds: what it has printed after some iterations is a
    prefix of what it has printed after more; addresses handed out are not
    taken back; and the program and its label table are never changed. *)
Theorem run_only_adds (fuel k : nat) (code : list string) :
  extends (execute_vm fuel code).2 (execute_vm (fuel + k) code).2.
Proof.
  rewrite !execute_vm_unfold. destruct (label_map 0 code ∅) as [ls|e];
    [|apply extends_refl].
  rewrite run_loop_add.
  pose proof (run_loop_changes fuel _ (good_start code ls)) as [Hch _].
  pose proof (good_changes _ _ Hch (good_start code ls)) as Hgood.
  destruct (run_loop fuel (start code ls)) as [[] s1]; cbn [snd] in *;
    try apply extends_refl.
  apply extends_changes. apply run_loop_changes. exact Hgood.
Qed.

(** X8. [execute] raises machine errors only: a [ValueError], a [KeyError],
    a stack overflow or underflow, or an [IndexError] for a missing operand
    or label name, a memory cell, a scope or the program counter.  It never
    raises a [TypeError], and no register or stack cell is ever indexed out
    of range. *)
Theorem execute_raises_machine_errors (fuel : nat) (code : list string) :
  match execute fuel code with
  | Raised e => machine_error e
  | _ => True
  end.
Proof.
  unfold execute. rewrite execute_vm_unfold.
  destruct (label_map 0 code ∅) as [ls|e] eqn:Hlabels.
  - pose proof (run_loop_changes fuel _ (good_start code ls)) as [_ Herr].
    destruct (run_loop fuel (start code ls)) as [[] s1]; cbn [fst] in *; try done.
    by apply Herr.
  - cbn [fst]. by apply label_map_error in Hlabels as ->.
Qed.

(** ** C8: determinism of [execute] *)

(** No instruction writes to the program: the list that [load_program] has
    stored is the list that the run leaves behind. *)
Lemma execute_vm_program (fuel : nat) (code : list string) :
  program (execute_vm fuel code).2 = code.
Proof.
  rewrite execute_vm_unfold. destruct (label_map 0 code ∅) as [ls|e]; [|done].
  pose proof (run_loop_changes fuel _ (good_start code ls)) as [Hch _].
  apply extends_changes in Hch as [Hprog _]. by rewrite Hprog.
Qed.

Lemma execute_call_lists (fuel ref : nat) (p p' : process) (o : outcome) :
  execute_call fuel ref p = Some (o, p') → lists p' = lists p.
Proof.
  unfold execute_call. destruct (lists p !! ref) as [code|] eqn:Hcode; [|done].
  pose proof (execute_vm_program fuel code) as Hprog.
  destruct (execute_vm fuel code) as [o1 s]. intros [= <- <-]. cbn [lists snd] in *.
  rewrite Hprog. by apply insert_id.
Qed.

Lemma execute_steps_lists (p p' : process) :
  rtc execute_step p p' → lists p' = lists p.
Proof.
  induction 1 as [|p p1 p' (fuel & ref & o & Hcall) _ IH]; [done|].
  rewrite IH. by apply execute_call_lists in Hcall.
Qed.

Lemma execute_call_outcome (fuel ref : nat) (p p' : process) (o : outcome)
      (code : list string) :
  lists p !! ref = Some code →
  execute_call fuel ref p = Some (o, p') → o = execute fuel code.
Proof.
  unfold execute_call, execute. intros ->.
  destruct (execute_vm fuel code) as [o1 s]. by intros [= <- <-].
Qed.

(** C8. Two invocations of [execute] on the same list of assembly, the
    second after the first and after any number of other invocations of
    [execute] on this or on other lists, that both come to an end (by
    returning or by raising) come to the same end, whatever the number of
    loop iterations each was allowed: in particular the two output
    sequences are identical.  Nothing is shared between the runs: no run
    changes a list of assembly, though its machine holds the list itself,
    and each invocation makes a machine of its own.  That is needed, as
    [run] resets [pc], [sp] and [output] only: run again on the machine
    that a first run has left behind, a program can print something else. *)
Theorem execute_deterministic (p p1 p' p2 : process) (ref : nat) (code : list string)
        (fuel1 fuel2 : nat) (o1 o2 : outcome) :
  lists p !! ref = Some code →
  execute_call fuel1 ref p = Some (o1, p1) →
  rtc execute_step p1 p' →
  execute_call fuel2 ref p' = Some (o2, p2) →
  lists p2 = lists p
  ∧ (o1 ≠ Running → o2 ≠ Running → o1 = o2)
  ∧ ∃ fuel code',
      execute fuel code' ≠ Running
      ∧ (run fuel (execute_vm fuel code').2).1 ≠ execute fuel code'.
Proof.
  intros Hcode Hcall1 Hsteps Hcall2.
  pose proof (execute_call_lists _ _ _ _ _ Hcall1) as Hl1.
  pose proof (execute_steps_lists _ _ Hsteps) as Hl'.
  pose proof (execute_call_lists _ _ _ _ _ Hcall2) as Hl2.
  split; [congruence|]. split.
  - assert (Hcode' : lists p' !! ref = Some code) by congruence.
    apply (execute_call_outcome _ _ _ _ _ _ Hcode) in Hcall1.
    apply (execute_call_outcome _ _ _ _ _ _ Hcode') in Hcall2.
    intros Hf1 Hf2. symmetry in Hcall1, Hcall2.
    destruct (Nat.le_ge_cases fuel1 fuel2) as [Hle|Hle].
    + rewrite (execute_le _ _ _ _ Hcall1 Hf1 Hle) in Hcall2. done.
    + rewrite (execute_le _ _ _ _ Hcall2 Hf2 Hle) in Hcall1. done.
  - exists 10%nat, print_then_set. split; vm_compute; discriminate.
Qed.

Lemma execute_call_some (fuel ref : nat) (p : process) (code : list string) :
  lists p !! ref = Some code →
  ∃ p', execute_call fuel ref p = Some (execute fuel code, p').
Proof.
  intros Hcode. unfold execute_call, execute. rewrite Hcode.
  destruct (execute_vm fuel code) as [o s]. by eexists.
Qed.

Lemma execute_deterministic_witness :
  ∃ p1 p2,
    execute_call 10 0 (Process {[0%nat := print_then_set]} [])
      = Some (Returned ["0"], p1)
    ∧ execute_call 12 0 p1 = Some (Returned ["0"], p2).
Proof.
  set (p := Process {[0%nat := print_then_set]} []).
  assert (Hcode : lists p !! 0%nat = Some print_then_set) by reflexivity.
  destruct (execute_call_some 10 0 p _ Hcode) as [p1 Hcall1].
  assert (Hcode1 : lists p1 !! 0%nat = Some print_then_set).
  { by rewrite (execute_call_lists _ _ _ _ _ Hcall1). }
  destruct (execute_call_some 12 0 p1 _ Hcode1) as [p2 Hcall2].
  destruct (execute_deterministic p p1 p1 p2 0 print_then_set 10 12 _ _
              Hcode Hcall1 (rtc_refl _ _) Hcall2) as (_ & Hsame & _).
  assert (Ho1 : execute 10 print_then_set = Returned ["0"]) by (vm_compute; reflexivity).
  assert (Ho2 : execute 10 print_then_set = execute 12 print_then_set).
  { apply Hsame; vm_compute; discriminate. }
  exists p1, p2. rewrite Hcall1, Hcall2, <- Ho2, Ho1. done.
Defined.

(** [execute] starts from a machine of its own.  [run] alone resets only
    [pc], [sp] and [output]: run again on the machine that a first run left
    behind, the same program can print something else. *)
Remark run_on_used_machine :
  let s1 := snd (execute_vm 10 print_then_set) in
  execute 10 print_then_set = Returned ["0"] ∧ fst (run 10 s1) = Returned ["1"].
Proof. split; vm_compute; reflexivity. Qed.

(** ** Variables in memory *)

Lemma good_new_vm : good new_vm.
Proof. apply (good_loaded []). Qed.

(** [eval_arg] on a name that is neither a literal nor a temp variable. *)
Lemma eval_arg_variable (x : string) (s : vm) :
  PyStr.isdigit x || (PyStr.startswith "-" x && PyStr.isdigit (PyStr.drop 1 x)) = false →
  is_temp_var x = false →
  eval_arg x s = vbind (get_var_addr x) (load AtMemory memory) s.
Proof. intros Hlit Htmp. unfold eval_arg. by rewrite Hlit, Htmp. Qed.

Lemma set_var_variable (x : string) (v : Z) (s : vm) :
  is_temp_var x = false →
  set_var x v s
  = vbind (get_var_addr x) (λ addr, store AtMemory memory set_memory addr v) s.
Proof. intros Htmp. unfold set_var. by rewrite Htmp. Qed.

(** X9. A variable that was never set reads 0: for a name not bound in the
    current scope, [eval_arg] binds it to the next address and returns 0,
    whatever other scopes hold.  So a callee, whose scope starts empty, sees
    none of the values of its caller. *)
Theorem fresh_variable_reads_zero (x : string) (s : vm)
        (top : gmap string nat) (below : list (gmap string nat)) :
  good s →
  scope_stack s = top :: below →
  top !! x = None →
  PyStr.isdigit x || (PyStr.startswith "-" x && PyStr.isdigit (PyStr.drop 1 x)) = false →
  is_temp_var x = false →
  (next_mem_addr s < memory_size)%nat →
  eval_arg x s = (Ok 0, bound x top below s).
Proof.
  intros ([Hmem _] & _ & _ & Hzero) Hscopes Hfree Hlit Htmp Hroom.
  rewrite eval_arg_variable by done. unfold vbind.
  rewrite (get_var_addr_top x s top below Htmp Hscopes), Hfree.
  unfold load, vbind, read. cbv beta. cbn [memory bound set_scope_stack set_next_mem_addr].
  destruct (lookup_lt_is_Some_2 (memory s) (next_mem_addr s)) as [w Hw]; [lia|].
  rewrite Hw. by rewrite (Hzero _ _ Hw).
Qed.

Lemma fresh_variable_reads_zero_witness :
  eval_arg "n" new_vm = (Ok 0, bound "n" ∅ [] new_vm).
Proof.
  apply (fresh_variable_reads_zero "n" new_vm ∅ []).
  - apply good_new_vm.
  - reflexivity.
  - reflexivity.
  - reflexivity.
  - reflexivity.
  - unfold memory_size. cbn. lia.
Defined.

(** X10. A variable holds what was stored in it: after [set_var x v], with
    room for one more address, [eval_arg x] returns [v]; and any other
    operand that read [w] without changing the machine -- a literal, a temp
    variable, or a variable already bound in the current scope -- still
    reads [w]. *)
Theorem variable_store_load (x : string) (v : Z) (s : vm)
        (top : gmap string nat) (below : list (gmap string nat)) :
  good s →
  scope_stack s = top :: below →
  PyStr.isdigit x || (PyStr.startswith "-" x && PyStr.isdigit (PyStr.drop 1 x)) = false →
  is_temp_var x = false →
  (next_mem_addr s < memory_size)%nat →
  ∃ s',
    set_var x v s = (Ok tt, s')
    ∧ eval_arg x s' = (Ok v, s')
    ∧ ∀ y w, y ≠ x → eval_arg y s = (Ok w, s) → eval_arg y s' = (Ok w, s').
Proof.
  intros Hgood Hscopes Hlit Htmp Hroom.
  destruct Hgood as ([Hmem _] & Halloc & Hdist & _).
  unfold addresses_allocated in Halloc. rewrite Hscopes in Halloc.
  apply Forall_cons in Halloc as [Htop _].
  (* the address of [x], and the machine once it is bound *)
  set (a := default (next_mem_addr s) (top !! x)).
  set (s1 := match top !! x with Some _ => s | None => bound x top below s end).
  assert (Hget : get_var_addr x s = (Ok (Some a), s1)).
  { rewrite (get_var_addr_top x s top below Htmp Hscopes). unfold a, s1.
    by destruct (top !! x). }
  assert (Ha : (a < memory_size)%nat).
  { unfold a. destruct (top !! x) as [b|] eqn:Hb; cbn; [|done].
    pose proof (Htop x b Hb). cbn in *. lia. }
  assert (Hmem1 : memory s1 = memory s) by (unfold s1; by destruct (top !! x)).
  assert (Hscopes1 : scope_stack s1 = <[x := a]> top :: below).
  { unfold s1, a. destruct (top !! x) as [b|] eqn:Hb; cbn; [|done].
    by rewrite Hscopes, insert_id. }
  exists (set_memory (<[a := v]> (memory s1)) s1). split; [|split].
  - rewrite set_var_variable by done. unfold vbind. rewrite Hget.
    unfold store, vbind, read, update. cbv beta.
    rewrite decide_True by (rewrite Hmem1; lia). done.
  - rewrite eval_arg_variable by done. unfold vbind.
    rewrite (get_var_addr_top x _ (<[x := a]> top) below Htmp) by done.
    rewrite lookup_insert_eq. unfold load, vbind, read. cbv beta.
    cbn [memory set_memory]. by rewrite list_lookup_insert_eq by (rewrite Hmem1; lia).
  - intros y w Hne Hy. unfold eval_arg in *.
    destruct (PyStr.isdigit y
              || (PyStr.startswith "-" y && PyStr.isdigit (PyStr.drop 1 y))).
    { unfold py_int in *. destruct (PyStr.int_of_token y) as [z|]; [|done].
      unfold vret in *. by simplify_eq. }
    destruct (is_temp_var y) eqn:Htmpy.
    { unfold load, vbind, read in *. destruct (get_temp_register y) as [r|]; [|done].
      cbv beta in *. cbn [registers set_memory].
      assert (registers s1 = registers s) as -> by (unfold s1; by destruct (top !! x)).
      destruct (registers s !! r); [|done]. unfold vret in *. by simplify_eq. }
    unfold vbind in Hy |- *.
    rewrite (get_var_addr_top y s top below Htmpy Hscopes) in Hy.
    rewrite (get_var_addr_top y _ (<[x := a]> top) below Htmpy) by done.
    rewrite lookup_insert_ne by done.
    destruct (top !! y) as [b|] eqn:Hb.
    + unfold load, vbind, read in *. cbv beta in *. cbn [memory set_memory].
      assert (b ≠ a) as Hba.
      { unfold a. destruct (top !! x) as [a'|] eqn:Hx; cbn.
        - intros ->.
          destruct (Hdist 0%nat 0%nat top top y x a') as [_ ?];
            rewrite ?Hscopes; done.
        - pose proof (Htop y b Hb). cbn in *. lia. }
      rewrite list_lookup_insert_ne by done. rewrite Hmem1.
      destruct (memory s !! b); [|done]. unfold vret in *. by simplify_eq.
    + exfalso. unfold load, vbind, read in Hy. cbv beta in Hy.
      cbn [memory bound set_scope_stack set_next_mem_addr] in Hy.
      destruct (memory s !! next_mem_addr s); unfold vret, vraise in Hy; simplify_eq;
        match goal with
        | H : bound _ _ _ _ = _ |- _ => apply (f_equal next_mem_addr) in H; cbn in H; lia
        end.
Qed.

Lemma variable_store_load_witness :
  ∃ s', set_var "x" 5 new_vm = (Ok tt, s') ∧ eval_arg "x" s' = (Ok 5, s').
Proof.
  destruct (variable_store_load "x" 5 new_vm ∅ []) as (s' & Hset & Hget & _).
  - apply good_new_vm.
  - reflexivity.
  - reflexivity.
  - reflexivity.
  - unfold memory_size. cbn. lia.
  - exists s'. by split.
Defined.

(** ** The label table of [load_program] *)

Lemma label_map_spec (code : list string) : ∀ i ls ls' label,
  label_map i code ls = Ok ls' →
  match ls' !! label with
  | Some k =>
      (ls !! label = Some k ∧ ∀ j line, code !! j = Some line → ¬ declares line label)
      ∨ (∃ j line, k = (i + j)%nat ∧ code !! j = Some line ∧ declares line label
                   ∧ ∀ j' line', (j < j')%nat → code !! j' = Some line' →
                                 ¬ declares line' label)
  | None =>
      ls !! label = None ∧ ∀ j line, code !! j = Some line → ¬ declares line label
  end.
Proof.
  induction code as [|line rest IH]; intros i ls ls' label; cbn [label_map].
  { intros [= <-]. destruct (ls !! label); [left|]; by split. }
  destruct (PyStr.startswith "LABEL " line) eqn:Hstart.
  - destruct (PyStr.split line !! 1%nat) as [name|] eqn:Hname; [|done].
    intros Hrest. specialize (IH (S i) _ ls' label Hrest).
    destruct (ls' !! label) as [k|].
    + destruct IH as [[Hk Hnone]|(j & line' & -> & Hj & Hdecl & Hlast)].
      * destruct (decide (label = name)) as [->|Hne].
        -- rewrite lookup_insert_eq in Hk. simplify_eq. right.
           exists 0%nat, line. split; [lia|]. split; [done|]. split; [done|].
           intros [|j'] line' Hlt Hj'; [lia|]. by apply (Hnone j').
        -- rewrite lookup_insert_ne in Hk by done. left. split; [done|].
           intros [|j] line' Hj; [|by apply (Hnone j)].
           cbn in Hj. simplify_eq. intros [_ Hd]. congruence.
      * right. exists (S j), line'. split; [lia|]. split; [done|]. split; [done|].
        intros [|j'] line'' Hlt Hj'; [lia|]. apply (Hlast j'); [lia|done].
    + destruct IH as [Hk Hnone].
      destruct (decide (label = name)) as [->|Hne];
        [by rewrite lookup_insert_eq in Hk|].
      rewrite lookup_insert_ne in Hk by done. split; [done|].
      intros [|j] line' Hj; [|by apply (Hnone j)].
      cbn in Hj. simplify_eq. intros [_ Hd]. congruence.
  - intros Hrest. specialize (IH (S i) _ ls' label Hrest).
    assert (Hline : ¬ declares line label) by (intros [Hd _]; congruence).
    destruct (ls' !! label) as [k|].
    + destruct IH as [[Hk Hnone]|(j & line' & -> & Hj & Hdecl & Hlast)].
      * left. split; [done|]. intros [|j] line' Hj; [|by apply (Hnone j)].
        cbn in Hj. by simplify_eq.
      * right. exists (S j), line'. split; [lia|]. split; [done|]. split; [done|].
        intros [|j'] line'' Hlt Hj'; [lia|]. apply (Hlast j'); [lia|done].
    + destruct IH as [Hk Hnone]. split; [done|].
      intros [|j] line' Hj; [|by apply (Hnone j)]. cbn in Hj. by simplify_eq.
Qed.

(** X11. The label table that [load_program] builds: a label is in the table
    exactly when some line of the program declares it, its entry is the
    index of the last line that does, and a jump to a label that no line
    declares raises a [KeyError]. *)
Theorem label_table (code : list string) (s s' : vm) (label : string) :
  load_program code s = Ok s' →
  program s' = code
  ∧ match labels s' !! label with
    | Some k =>
        ∃ line, code !! k = Some line ∧ declares line label
                ∧ ∀ j line', (k < j)%nat → code !! j = Some line' → ¬ declares line' label
    | None =>
        (∀ j line, code !! j = Some line → ¬ declares line label)
        ∧ jump label s' = (Err (KeyError label), s')
    end.
Proof.
  unfold load_program. destruct (label_map 0 code ∅) as [ls|e] eqn:Hlabels; [|done].
  intros [= <-]. split; [done|]. cbn [labels set_labels].
  pose proof (label_map_spec code 0 ∅ ls label Hlabels) as Hspec.
  destruct (ls !! label) as [k|] eqn:Hk.
  - destruct Hspec as [[Hempty _]|(j & line & -> & Hj & Hdecl & Hlast)]; [done|].
    by exists line.
  - destruct Hspec as [_ Hnone]. split; [done|].
    unfold jump, label_index, vbind, read. cbv beta. cbn [labels set_labels].
    by rewrite Hk.
Qed.

Lemma label_table_witness :
  ∃ s', load_program ["LABEL a"; "JMP a"; "LABEL a"] new_vm = Ok s'
        ∧ (∃ line, ["LABEL a"; "JMP a"; "LABEL a"] !! 2%nat = Some line ∧ declares line "a")
        ∧ labels s' !! "a" = Some 2%nat.
Proof.
  eexists. split; [reflexivity|].
  pose proof (label_table ["LABEL a"; "JMP a"; "LABEL a"] new_vm _ "a" eq_refl) as [_ Ha].
  assert (Hk : labels (set_labels (<["a" := 2%nat]> (<["a" := 0%nat]> ∅))
                         (set_program ["LABEL a"; "JMP a"; "LABEL a"] new_vm)) !! "a"
               = Some 2%nat) by (vm_compute; reflexivity).
  rewrite Hk in Ha. destruct Ha as (line & Hline & Hdecl & _).
  split; [by exists line|exact Hk].
Defined.

(** ** The instructions that [compile] emits *)

Lemma words_from_word (op rest : string) (c : ascii) :
  PyStr.forallb (λ a, negb (PyStr.is_space a)) op = true →
  PyStr.is_space c = true →
  PyStr.words_from (op +:+ String c rest)
  = (op, let '(w, ws) := PyStr.words_from rest in PyStr.cons_word w ws).
Proof.
  intros Hop Hc. induction op as [|a op IH].
  - change (PyStr.words_from (String c rest) = (EmptyString, let '(w, ws) := PyStr.words_from rest in PyStr.cons_word w ws)).
    cbn [PyStr.words_from].
    destruct (PyStr.words_from rest) as [w ws]. by rewrite Hc.
  - change (String a op +:+ String c rest) with (String a (op +:+ String c rest)).
    cbn [PyStr.words_from]. cbn [PyStr.forallb] in Hop. apply andb_true_iff in Hop as [Ha Hop].
    rewrite (IH Hop). apply negb_true_iff in Ha. by rewrite Ha.
Qed.

Lemma split_first_word (op rest : string) :
  PyStr.forallb (λ a, negb (PyStr.is_space a)) op = true →
  PyStr.is_empty op = false →
  PyStr.split (op +:+ " " +:+ rest) !! 0%nat = Some op.
Proof.
  intros Hop Hne. unfold PyStr.split.
  change (" " +:+ rest) with (String " " rest).
  rewrite words_from_word by done. unfold PyStr.cons_word at 1. by rewrite Hne.
Qed.

Lemma known_opcode_instr (op rest : string) :
  op ∈ opcodes → known_opcode (op +:+ " " +:+ rest).
Proof.
  intros Hop. exists op. split; [|done]. unfold opcodes in Hop.
  repeat (apply elem_of_cons in Hop as [->|Hop]; [by apply split_first_word|]).
  by apply elem_of_nil in Hop.
Qed.

Lemma known_opcode_instr1 (op a : string) : op ∈ opcodes → known_opcode (instr1 op a).
Proof. apply known_opcode_instr. Qed.

Lemma known_opcode_instr2 (op a b : string) : op ∈ opcodes → known_opcode (instr2 op a b).
Proof. apply known_opcode_instr. Qed.

Lemma known_opcode_instr3 (op a b c : string) :
  op ∈ opcodes → known_opcode (instr3 op a b c).
Proof. apply known_opcode_instr. Qed.

Lemma known_opcode_word (op : string) :
  PyStr.split op !! 0%nat = Some op → op ∈ opcodes → known_opcode op.
Proof. intros Hsplit Hop. by exists op. Qed.

Section Yields.
Variable fns : gset string.

Lemma yields_gret {A} (a : A) (Q : A → Prop) (E : exn → Prop) :
  Q a → yields (gret a) Q E.
Proof. intros Ha c. by cbn. Qed.

Lemma yields_gbind {A B} (m : gen A) (k : A → gen B) (Q : A → Prop) (R : B → Prop)
      (E : exn → Prop) :
  yields m Q E → (∀ a, Q a → yields (k a) R E) → yields (gbind m k) R E.
Proof.
  intros Hm Hk c. unfold gbind. specialize (Hm c).
  destruct (m c) as [[[a c']|e]|]; [|done|done].
  destruct Hm as [Ha Hle]. specialize (Hk a Ha c').
  destruct (k a c') as [[[b c'']|e]|]; [|done|done].
  destruct Hk as [Hb Hle']. split; [done|lia].
Qed.

Lemma yields_weaken {A} (m : gen A) (Q Q' : A → Prop) (E E' : exn → Prop) :
  yields m Q E → (∀ a, Q a → Q' a) → (∀ e, E e → E' e) → yields m Q' E'.
Proof.
  intros Hm HQ HE c. specialize (Hm c).
  destruct (m c) as [[[a c']|e]|]; [|by apply HE|done].
  destruct Hm. split; [by apply HQ|done].
Qed.

Lemma yields_temp (E : exn → Prop) : yields temp (λ _, True) E.
Proof. intros c. cbn. split; [done|lia]. Qed.

Lemma yields_unpack2 (parts : list string) :
  yields (unpack2 parts) (λ _, True) unpack_error.
Proof.
  intros c. destruct parts as [|a [|b [|? ?]]]; cbn; try (by eexists); by split.
Qed.

Lemma yields_compile_expr_fuel (fuel : nat) : ∀ e,
  yields (compile_expr_fuel fns fuel e) expr_known unpack_error.
Proof.
  induction fuel as [|fuel IH]; intros e; [by intros c|].
  cbn [compile_expr_fuel]. unfold compile_expr_body.
  destruct (as_call fns (PyStr.strip e)) as [[fn_name arg_expr]|].
  - eapply yields_gbind; [apply IH|]. intros [arg_tmp arg_code] Harg.
    eapply yields_gbind; [apply yields_temp|]. intros tmp _.
    apply yields_gret. unfold expr_known in *. cbn [snd] in *.
    apply Forall_app. split; [done|].
    repeat constructor;
      [apply known_opcode_instr1|apply known_opcode_instr1|apply known_opcode_instr2];
      unfold opcodes; set_solver.
  - assert (Hbinary : ∀ op sep, op ∈ opcodes →
      yields (binary (compile_expr_fuel fns fuel) op sep (PyStr.strip e))
             expr_known unpack_error).
    { intros op sep Hop. unfold binary.
      eapply yields_gbind; [apply yields_unpack2|]. intros [a b] _.
      eapply yields_gbind; [apply IH|]. intros [ta ca] Ha.
      eapply yields_gbind; [apply IH|]. intros [tb cb] Hb.
      eapply yields_gbind; [apply yields_temp|]. intros t _.
      apply yields_gret. unfold expr_known in *. cbn [snd] in *.
      apply Forall_app. split; [done|]. apply Forall_app. split; [done|].
      repeat constructor. by apply known_opcode_instr3. }
    destruct (PyStr.contains "+" (PyStr.strip e)).
    { apply Hbinary. unfold opcodes. set_solver. }
    destruct (PyStr.contains "-" (PyStr.strip e)).
    { apply Hbinary. unfold opcodes. set_solver. }
    apply yields_gret. by constructor.
Qed.

Lemma yields_compile_expr (e : string) :
  yields (compile_expr fns e) expr_known unpack_error.
Proof. apply yields_compile_expr_fuel. Qed.

Ltac known_auto :=
  repeat first
    [ apply Forall_nil_2
    | apply Forall_app; split
    | apply Forall_cons; split
    | assumption
    | apply known_opcode_instr1; unfold opcodes; set_solver
    | apply known_opcode_instr2; unfold opcodes; set_solver
    | apply known_opcode_instr3; unfold opcodes; set_solver ].

Lemma yields_compile_body (body : list stmt) :
  Forall (λ s, yields (compile_stmt fns s) (Forall known_opcode) unpack_error) body →
  yields (compile_body fns body) (Forall known_opcode) unpack_error.
Proof.
  induction 1 as [|s body Hs Hbody IH]; cbn [compile_body].
  { apply yields_gret. constructor. }
  eapply yields_gbind; [apply Hs|]. intros code Hcode.
  eapply yields_gbind; [apply IH|]. intros code' Hcode'.
  apply yields_gret. known_auto.
Qed.

Lemma yields_compile_stmt (s : stmt) :
  yields (compile_stmt fns s) (Forall known_opcode) unpack_error.
Proof.
  induction s as [name arg body IH|cond body IH|var lo hi body IH|e|e|var e]
    using stmt_nested_ind; cbn [compile_stmt]; rewrite ?compile_stmt_body.
  - apply yields_gret. constructor.
  - eapply yields_gbind; [apply yields_unpack2|]. intros [c1 c2] _.
    eapply yields_gbind; [apply yields_compile_expr|]. intros [t code] Hcode.
    eapply yields_gbind; [apply yields_temp|]. intros label _.
    eapply yields_gbind; [by apply yields_compile_body|]. intros body_code Hbody.
    apply yields_gret. unfold expr_known in *. cbn [snd] in *. known_auto.
  - eapply yields_gbind; [apply yields_compile_expr|]. intros [t1 code1] Hcode1.
    eapply yields_gbind; [apply yields_compile_expr|]. intros [t2 code2] Hcode2.
    eapply yields_gbind; [apply yields_temp|]. intros l1 _.
    eapply yields_gbind; [apply yields_temp|]. intros l2 _.
    eapply yields_gbind; [apply yields_temp|]. intros l3 _.
    eapply yields_gbind; [by apply yields_compile_body|]. intros body_code Hbody.
    eapply yields_gbind; [apply yields_temp|]. intros l4 _.
    apply yields_gret. unfold expr_known in *. cbn [snd] in *. known_auto.
  - eapply yields_gbind; [apply yields_compile_expr|]. intros [t code] Hcode.
    apply yields_gret. unfold expr_known in *. cbn [snd] in *. known_auto.
  - eapply yields_gbind; [apply yields_compile_expr|]. intros [t code] Hcode.
    apply yields_gret. unfold expr_known in *. cbn [snd] in *. known_auto.
  - eapply yields_gbind; [apply yields_compile_expr|]. intros [t code] Hcode.
    apply yields_gret. unfold expr_known in *. cbn [snd] in *. known_auto.
Qed.

Lemma yields_compile_items (items : list stmt) : ∀ code main_code,
  Forall known_opcode code → Forall known_opcode main_code →
  yields (compile_items fns items code main_code)
         (λ r, Forall known_opcode r.1 ∧ Forall known_opcode r.2) unpack_error.
Proof.
  induction items as [|item rest IH]; intros code main_code Hcode Hmain;
    cbn [compile_items]; [by apply yields_gret|].
  destruct item; try (by apply IH).
  - unfold compile_fn. eapply yields_gbind.
    { eapply yields_gbind.
      - apply yields_compile_body. apply Forall_forall. intros s _.
        apply yields_compile_stmt.
      - intros body_code Hbody. apply yields_gret.
        instantiate (1 := Forall known_opcode). known_auto. }
    intros fn_code Hfn. apply IH; known_auto.
  - eapply yields_gbind; [apply yields_compile_stmt|].
    intros stmt_code Hstmt. apply IH; known_auto.
  - eapply yields_gbind; [apply yields_compile_stmt|].
    intros stmt_code Hstmt. apply IH; known_auto.
  - eapply yields_gbind; [apply yields_compile_stmt|].
    intros stmt_code Hstmt. apply IH; known_auto.
Qed.

Lemma yields_compile_all (ast : list stmt) :
  yields (compile_all fns ast) (Forall known_opcode) unpack_error.
Proof.
  unfold compile_all.
  eapply yields_gbind; [by apply yields_compile_items|].
  intros [code main_code] [Hcode Hmain]. cbn [fst snd] in *.
  apply yields_gret.
  assert (known_opcode "HALT").
  { apply known_opcode_word; [reflexivity|unfold opcodes; set_solver]. }
  change "JMP main" with (instr1 "JMP" "main").
  change "LABEL main" with (instr1 "LABEL" "main"). known_auto.
Qed.
End Yields.

Lemma parse_lines_error (ls : list string) : ∀ st e,
  parse_lines st ls = Err e →
  e = IndexError AtParseStack
  ∨ ∃ l, e = SyntaxError l ∧ l ∈ ls ∧ classify l = LUnknown.
Proof.
  induction ls as [|line rest IH]; intros st e; [done|]. cbn [parse_lines].
  destruct (parse_line st line) as [st1|e1] eqn:Hline.
  - intros Hrest. destruct (IH _ _ Hrest) as [->|(l & -> & Hin & Hl)]; [by left|].
    right. exists l. split; [done|]. split; [by right|done].
  - intros [= ->]. revert Hline. unfold parse_line.
    destruct (classify line) eqn:Hform;
      unfold open_block, append_node, pop_block, add_function; cbn [frames];
      try (destruct (frames st) as [[|[o items] [|[o' items'] fs]]|]; try done;
           intros [= <-]; by left).
    intros [= <-]. right. exists line. split; [done|]. split; [by left|done].
Qed.

(** X12. Every instruction that [compile] emits begins with an opcode that
    [run] knows: on compiled code the virtual machine never reaches the
    branch of the unknown instruction. *)
Theorem compiled_opcodes_known (source assembly : list string) :
  compile source = Some (Ok assembly) → Forall known_opcode assembly.
Proof.
  unfold compile. destruct (parse_from ∅ source) as [[ast fns]|e]; [|done].
  pose proof (yields_compile_all fns ast 0%nat) as Hall.
  destruct (compile_all fns ast 0%nat) as [[[code c]|e]|]; [|done|done].
  intros [= <-]. apply Hall.
Qed.

Lemma compiled_opcodes_known_witness : Forall known_opcode fib_assembly.
Proof. apply (compiled_opcodes_known fib_source). vm_compute. reflexivity. Defined.

(** ** The exceptions of [compile] *)

Lemma parse_line_error (st : pstate) (line : string) (e : exn)
      (fs : list (opener * list stmt)) :
  frames st = Some fs → parse_line st line = Err e →
  e = SyntaxError line ∧ classify line = LUnknown.
Proof.
  intros Hfs. unfold parse_line.
  destruct (classify line); try (by intros [= <-]);
    unfold open_block, append_node, pop_block, add_function; cbn [frames];
    rewrite Hfs; by destruct fs as [|[o items] [|[o' items'] fs]].
Qed.

(** The [IndexError] of [parse] comes after an [end] that had no block to
    close and was not the last line. *)
Lemma parse_lines_index_error (lines : list string) : ∀ st fs site,
  frames st = Some fs →
  parse_lines st lines = Err (IndexError site) →
  site = AtParseStack ∧ ends_matched (length fs) lines = false.
Proof.
  induction lines as [|line rest IH]; intros st fs site Hfs; [done|].
  intros Herr. split.
  { by destruct (parse_lines_error _ _ _ Herr) as [[= ->]|(l & [=] & _)]. }
  revert Herr. cbn [parse_lines ends_matched].
  destruct (parse_line st line) as [st1|e] eqn:Hline.
  - pose proof (parse_line_frames _ _ _ _ Hfs Hline) as Hfr. intros Herr.
    destruct (classify line) eqn:Hform; try done;
      try (destruct Hfr as (fs1 & Hfs1 & Hlen);
           destruct (IH st1 fs1 site Hfs1 Herr) as [_ Hends]; congruence).
    destruct fs as [|f fs].
    + by destruct rest.
    + destruct Hfr as (fs1 & Hfs1 & Hlen).
      destruct (IH st1 fs1 site Hfs1 Herr) as [_ Hends]. cbn [length]. congruence.
  - intros [= ->]. by apply (parse_line_error _ _ _ _ Hfs) in Hline as [[=] _].
Qed.

(** X13. The exceptions of [compile], each with its cause.  A
    [SyntaxError] carries a line of the source, stripped, that has none of
    the seven forms.  An [IndexError] is the one of the emptied stack of
    open bodies: some [end] had no block to close and was not the last
    line.  A [ValueError] is raised by the code generator, after [parse] has
    returned: every line has one of the seven forms and every [end] finds
    something to close. *)
Theorem compile_errors (source : list string) (e : exn) :
  compile source = Some (Err e) →
  (∀ l, e = SyntaxError l → l ∈ source_lines source ∧ classify l = LUnknown)
  ∧ (∀ site, e = IndexError site →
       site = AtParseStack ∧ ends_matched 0 (source_lines source) = false)
  ∧ (∀ what, e = ValueError what →
       Forall recognized (source_lines source)
       ∧ ends_matched 0 (source_lines source) = true).
Proof.
  unfold compile, parse_from.
  destruct (parse_lines _ (source_lines source)) as [st|e'] eqn:Hparse.
  - pose proof (yields_compile_all (function_names st) (ast_of st) 0%nat) as Hall.
    destruct (compile_all _ (ast_of st) 0%nat) as [[[code c]|e']|]; [done| |done].
    intros [= ->]. destruct Hall as [what ->].
    split; [done|]. split; [done|]. intros _ _.
    apply (parse_lines_returns (source_lines source) (PState [] (Some []) ∅) [] eq_refl).
    eauto.
  - intros [= ->]. split; [|split].
    + intros l ->. by apply parse_lines_syntax_error in Hparse.
    + intros site ->.
      by apply (parse_lines_index_error _ (PState [] (Some []) ∅) [] site eq_refl).
    + intros what ->. by destruct (parse_lines_error _ _ _ Hparse) as [[=]|(l & [=] & _)].
Qed.

Lemma compile_errors_witness :
  compile ["x = 1 + 2 + 3"] = Some (Err (ValueError "too many values to unpack (expected 2)"))
  ∧ Forall recognized (source_lines ["x = 1 + 2 + 3"])
  ∧ ends_matched 0 (source_lines ["x = 1 + 2 + 3"]) = true.
Proof.
  assert (H : compile ["x = 1 + 2 + 3"]
              = Some (Err (ValueError "too many values to unpack (expected 2)")))
    by (vm_compute; reflexivity).
  split; [exact H|].
  exact (proj2 (proj2 (compile_errors ["x = 1 + 2 + 3"] _ H)) _ eq_refl).
Defined.

(** ** Closed blocks *)

Lemma nested_parse_lines (lines : list string) (ast : list stmt) :
  nested lines ast →
  ∀ K, ∃ K', parse_lines (PState [] (Some []) K) lines = Ok (PState ast (Some []) K').
Proof.
  assert (Hleaf : ∀ line node lines ast,
    (∀ K, parse_line (PState [] (Some []) K) line = Ok (PState [node] (Some []) K)) →
    (∀ K, ∃ K', parse_lines (PState [] (Some []) K) lines = Ok (PState ast (Some []) K')) →
    ∀ K, ∃ K', parse_lines (PState [] (Some []) K) (line :: lines)
               = Ok (PState (node :: ast) (Some []) K')).
  { intros line node ls a Hline Hrest K. cbn [parse_lines]. rewrite Hline.
    destruct (Hrest K) as [K' HK']. exists K'.
    by apply (parse_lines_graft [node] []) in HK'. }
  induction 1 as [|line e lines ast Hline _ IH|line e lines ast Hline _ IH
                  |line var e lines ast Hline _ IH
                  |line o body items fin lines ast Hline _ IHbody Hfin _ IH].
  - intros K. by exists K.
  - apply Hleaf; [|done]. intros K. unfold parse_line. by rewrite Hline.
  - apply Hleaf; [|done]. intros K. unfold parse_line. by rewrite Hline.
  - apply Hleaf; [|done]. intros K. unfold parse_line. by rewrite Hline.
  - intros K. cbn [parse_lines].
    destruct (parse_line_opener (PState [] (Some []) K) line o [] eq_refl Hline)
      as [K1 ->].
    rewrite parse_lines_app. destruct (IHbody K1) as [K2 Hbody].
    apply (parse_lines_graft [] [(o, [])]) in Hbody; [|done].
    change (graft [] [(o, [])] (PState [] (Some []) K1))
      with (PState [] (Some [(o, [])]) K1) in Hbody.
    cbn [root] in Hbody |- *. rewrite Hbody. cbn [parse_lines graft frames root function_names app].
    unfold parse_line. rewrite Hfin. cbn [pop_block frames root function_names app].
    destruct (IH K2) as [K' Hrest]. exists K'.
    by apply (parse_lines_graft [close o items] []) in Hrest.
Qed.

(** X14. A text whose blocks are all closed parses to the tree that its
    nesting describes: a statement line gives a leaf, and an opening line,
    the lines of its body and the [end] that closes it give one node with
    the tree of the body. *)
Theorem parse_nested (lines : list string) (ast : list stmt) :
  nested (source_lines lines) ast → parse_ast lines = Ok ast.
Proof.
  intros Hnested. unfold parse_ast, parse, parse_from.
  destruct (nested_parse_lines _ _ Hnested ∅) as [K' ->]. done.
Qed.

Lemma parse_nested_witness :
  parse_ast fib_source
  = Ok [Def "fib" "n" [If "n < 2" [Return "n"];
                       Assign "a" "fib n - 1"; Assign "b" "fib n - 2";
                       Return "a + b"];
        Assign "main" "fib 9"; Print "main"].
Proof.
  apply parse_nested.
  change (source_lines fib_source)
    with ("def fib n"
            :: ("if n < 2" :: ["return n"] ++ "end"
                  :: ["a = fib n - 1"; "b = fib n - 2"; "return a + b"])
            ++ "end" :: ["main = fib 9"; "print main"]).
  apply (nested_block _ (ODef "fib" "n")); [reflexivity| |reflexivity|].
  - apply (nested_block _ (OIf "n < 2")); [reflexivity| |reflexivity|].
    + apply nested_return; [reflexivity|constructor].
    + apply nested_assign; [reflexivity|].
      apply nested_assign; [reflexivity|].
      apply nested_return; [reflexivity|constructor].
  - apply nested_assign; [reflexivity|].
    apply nested_print; [reflexivity|constructor].
Defined.

(** ** The function names *)

Lemma def_names_close (o : opener) (items : list stmt) :
  def_names (close o items) = opener_names o ∪ defs_of items.
Proof.
  assert (Hbody : (fix of_body (body : list stmt) : gset string :=
                     match body with
                     | [] => ∅
                     | s' :: body' => def_names s' ∪ of_body body'
                     end) items = defs_of items).
  { induction items as [|s items IH]; [done|]. cbn [defs_of]. by rewrite <- IH. }
  destruct o; cbn [close def_names opener_names]; rewrite Hbody; set_solver.
Qed.

Lemma defs_of_app (a b : list stmt) : defs_of (a ++ b) = defs_of a ∪ defs_of b.
Proof.
  induction a as [|s a IH]; cbn [app defs_of]; [set_solver|]. rewrite IH. set_solver.
Qed.

Lemma def_names_plug (fs : list (opener * list stmt)) : ∀ node,
  def_names (plug fs node) = def_names node ∪ frames_names fs.
Proof.
  induction fs as [|[o items] fs IH]; intros node; cbn [plug frames_names].
  { set_solver. }
  rewrite IH, def_names_close, defs_of_app. cbn [defs_of]. set_solver.
Qed.

Lemma defs_of_ast_of (st : pstate) : defs_of (ast_of st) = state_names st.
Proof.
  unfold ast_of, state_names.
  destruct (frames st) as [[|[o items] fs]|]; cbn [frames_names]; [set_solver| |set_solver].
  rewrite defs_of_app. cbn [defs_of].
  rewrite def_names_plug, def_names_close. set_solver.
Qed.

Lemma parse_line_names (K : gset string) (st st' : pstate) (line : string) :
  parse_line st line = Ok st' →
  function_names st = K ∪ state_names st →
  function_names st' = K ∪ state_names st'.
Proof.
  unfold parse_line, state_names.
  destruct (classify line);
    unfold open_block, append_node, pop_block, add_function;
    cbn [frames root function_names];
    destruct (frames st) as [[|[o items] [|[o' items'] fs]]|]; try done;
    intros [= <-]; cbn [frames root function_names frames_names opener_names];
    rewrite ?defs_of_app; cbn [defs_of def_names]; rewrite ?def_names_close;
    intros ->; set_solver.
Qed.

Lemma parse_lines_names (K : gset string) (lines : list string) : ∀ st st',
  parse_lines st lines = Ok st' →
  function_names st = K ∪ state_names st →
  function_names st' = K ∪ state_names st'.
Proof.
  induction lines as [|line rest IH]; intros st st'; cbn [parse_lines].
  { by intros [= ->]. }
  destruct (parse_line st line) as [st1|e] eqn:Hline; [|done].
  intros Hrest Hnames. apply (IH st1); [done|]. by apply (parse_line_names K st _ line).
Qed.

(** X15. The function names that [parse] records are the names of the [def]
    nodes of the tree it returns, at any depth, added to the names that
    were in the global set before: a [def] inside another block counts as
    well as one at the top level. *)
Theorem function_names_of_parse (known : gset string) (lines : list string)
        (ast : list stmt) (names : gset string) :
  parse_from known lines = Ok (ast, names) → names = known ∪ defs_of ast.
Proof.
  unfold parse_from.
  destruct (parse_lines _ (source_lines lines)) as [st|e] eqn:Hparse; [|done].
  intros [= <- <-]. rewrite defs_of_ast_of.
  apply (parse_lines_names known) in Hparse; [done|].
  unfold state_names. cbn. set_solver.
Qed.

Lemma function_names_of_parse_witness :
  ∃ ast names, parse_from {["g"]} ["if a < 2"; "def f n"; "return n"] = Ok (ast, names)
               ∧ names = {["g"]} ∪ defs_of ast.
Proof.
  destruct (parse_from {["g"]} ["if a < 2"; "def f n"; "return n"]) as [[ast names]|e]
    eqn:Hparse; [|vm_compute in Hparse; discriminate].
  exists ast, names. split; [done|].
  exact (function_names_of_parse _ _ _ _ Hparse).
Defined.

(** ** Layout of the source text *)

Lemma lstrip_blank (pad : string) : blank_text pad → PyStr.lstrip pad = EmptyString.
Proof.
  unfold blank_text. induction pad as [|c pad IH]; [done|]. cbn [PyStr.forallb PyStr.lstrip].
  intros [Hc Hpad]%andb_true_iff. rewrite Hc. by apply IH.
Qed.

Lemma rstrip_blank (pad : string) : blank_text pad → PyStr.rstrip pad = EmptyString.
Proof.
  unfold blank_text. induction pad as [|c pad IH]; [done|]. cbn [PyStr.forallb PyStr.rstrip].
  intros [Hc Hpad]%andb_true_iff. rewrite (IH Hpad), Hc. done.
Qed.

Lemma lstrip_blank_app (pad s : string) :
  blank_text pad → PyStr.lstrip (pad +:+ s) = PyStr.lstrip s.
Proof.
  unfold blank_text. induction pad as [|c pad IH]; [done|].
  change (String c pad +:+ s) with (String c (pad +:+ s)).
  cbn [PyStr.forallb PyStr.lstrip].
  intros [Hc Hpad]%andb_true_iff. rewrite Hc. by apply IH.
Qed.

Lemma rstrip_app_blank (s pad : string) :
  blank_text pad → PyStr.rstrip (s +:+ pad) = PyStr.rstrip s.
Proof.
  intros Hpad. induction s as [|c s IH]; [by apply rstrip_blank|].
  change (String c s +:+ pad) with (String c (s +:+ pad)).
  cbn [PyStr.rstrip]. by rewrite IH.
Qed.

Lemma strip_app_blank (s pad : string) :
  blank_text pad → PyStr.strip (s +:+ pad) = PyStr.strip s.
Proof.
  intros Hpad. unfold PyStr.strip. induction s as [|c s IH].
  - change (EmptyString +:+ pad) with pad. by rewrite (lstrip_blank pad).
  - change (String c s +:+ pad) with (String c (s +:+ pad)).
    cbn [PyStr.lstrip]. destruct (PyStr.is_space c); [done|].
    change (String c (s +:+ pad)) with (String c s +:+ pad).
    by apply rstrip_app_blank.
Qed.

Lemma strip_padded (pad l pad' : string) :
  blank_text pad → blank_text pad' →
  PyStr.strip (pad +:+ l +:+ pad') = PyStr.strip l.
Proof.
  intros Hpad Hpad'. rewrite <- (strip_app_blank l pad') by done.
  unfold PyStr.strip. by rewrite lstrip_blank_app.
Qed.

(** X16. The layout of the source does not matter to [parse]: whitespace
    around a line is stripped, so indentation and trailing blanks change
    nothing, and a line that is blank or, once stripped, begins with [#] is
    left out as if it were not there. *)
Theorem parse_ignores_layout (pre rest : list string) (l pad pad' : string) :
  blank_text pad → blank_text pad' →
  parse (pre ++ (pad +:+ l +:+ pad') :: rest) = parse (pre ++ l :: rest)
  ∧ (PyStr.strip l = EmptyString ∨ PyStr.startswith "#" (PyStr.strip l) = true →
     parse (pre ++ l :: rest) = parse (pre ++ rest)).
Proof.
  intros Hpad Hpad'. unfold parse, parse_from, source_lines. split.
  - rewrite !map_app. cbn [List.map]. by rewrite strip_padded.
  - intros Hskip. rewrite !map_app, !List.filter_app. cbn [List.map List.filter].
    destruct Hskip as [->| ->]; [done|]. by rewrite andb_false_r.
Qed.

Lemma parse_ignores_layout_witness :
  parse (["def f n"] ++ ("    " +:+ "return n" +:+ "  ") :: ["end"])
  = parse (["def f n"] ++ "return n" :: ["end"])
  ∧ parse (["def f n"] ++ "  # the body" :: ["end"]) = parse (["def f n"] ++ ["end"]).
Proof.
  split.
  - apply (parse_ignores_layout ["def f n"] ["end"] "return n" "    " "  "); reflexivity.
  - apply (parse_ignores_layout ["def f n"] ["end"] "  # the body" blank blank); [reflexivity..|].
    right. reflexivity.
Defined.

(** ** The fields of an instruction *)

Lemma words_from_token (w : string) :
  PyStr.forallb (λ a, negb (PyStr.is_space a)) w = true → PyStr.words_from w = (w, []).
Proof.
  induction w as [|a w IH]; [done|]. cbn [PyStr.forallb PyStr.words_from].
  intros [Ha Hw]%andb_true_iff. rewrite (IH Hw). apply negb_true_iff in Ha.
  by rewrite Ha.
Qed.

Lemma split_join (ws : list string) :
  Forall token ws → PyStr.split (PyStr.join " " ws) = ws.
Proof.
  induction 1 as [|w ws [Hne Hw] Hws IH]; [done|].
  destruct ws as [|w' ws].
  - cbn [PyStr.join]. unfold PyStr.split. rewrite words_from_token by done.
    unfold PyStr.cons_word. by rewrite Hne.
  - change (PyStr.join " " (w :: w' :: ws))
      with (w +:+ String " " (PyStr.join " " (w' :: ws))).
    unfold PyStr.split. rewrite words_from_word by done.
    unfold PyStr.split in IH. rewrite IH.
    unfold PyStr.cons_word. by rewrite Hne.
Qed.

(** X17. The instructions that the code generator formats are read back by
    the machine field by field: when the fields are tokens (not empty, no
    whitespace), [instr.split()] of the formatted instruction is the list
    of its fields. *)
Theorem instruction_fields (op a b c : string) :
  token op → token a → token b → token c →
  PyStr.split (instr1 op a) = [op; a]
  ∧ PyStr.split (instr2 op a b) = [op; a; b]
  ∧ PyStr.split (instr3 op a b c) = [op; a; b; c].
Proof.
  intros Hop Ha Hb Hc. split; [|split].
  - apply (split_join [op; a]). repeat first [apply Forall_nil_2 | apply Forall_cons_2; [assumption|]].
  - apply (split_join [op; a; b]). repeat first [apply Forall_nil_2 | apply Forall_cons_2; [assumption|]].
  - apply (split_join [op; a; b; c]). repeat first [apply Forall_nil_2 | apply Forall_cons_2; [assumption|]].
Qed.

Lemma instruction_fields_witness :
  PyStr.split (instr3 "ADD" "tmp1" "n" "tmp2") = ["ADD"; "tmp1"; "n"; "tmp2"].
Proof.
  apply (instruction_fields "ADD" "tmp1" "n" "tmp2"); split; reflexivity.
Defined.

(** ** The calling convention *)

(** X18. [CALL] with the argument on top of the stack: the return address
    [pc + 1] goes below the argument, a new empty scope is opened and
    control goes to the label; memory, registers and output are untouched.
    It needs one free cell: on an empty stack it raises the stack underflow
    and on a full one the stack overflow. *)
Theorem call_opens_frame (instr f : string) (rest : list string) (s : vm) :
  PyStr.split instr = "CALL" :: f :: rest →
  length (stack s) = stack_size →
  (∀ p arg k, sp s = S p → (S p < stack_size)%nat →
     stack s !! p = Some arg → labels s !! f = Some k →
     ∃ s1, exec instr s = (Ok Continue, s1)
           ∧ pc s1 = Z.of_nat k
           ∧ scope_stack s1 = ∅ :: scope_stack s
           ∧ sp s1 = S (S p)
           ∧ stack s1 !! p = Some (pc s + 1) ∧ stack s1 !! S p = Some arg
           ∧ (∀ i, (i < p)%nat → stack s1 !! i = stack s !! i)
           ∧ memory s1 = memory s ∧ registers s1 = registers s
           ∧ next_mem_addr s1 = next_mem_addr s ∧ output s1 = output s)
  ∧ (sp s = 0%nat → exec instr s = (Err StackUnderflow, s))
  ∧ (sp s = stack_size → (exec instr s).1 = Err StackOverflow).
Proof.
  intros Hsplit Hlen. unfold exec. rewrite Hsplit, part_0, vbind_vret.
  select_opcode "CALL". rewrite part_1, vbind_vret.
  split; [|split].
  - intros p arg k Hsp Hfree Harg Hk. eexists.
    unfold jump, label_index, push, pop, vbind, read, update, vret. cbv beta.
    rewrite Hsp. cbn [fst snd sp stack set_sp set_stack labels pc].
    rewrite Harg. cbn [fst snd sp stack set_sp set_stack labels pc].
    rewrite decide_False by lia.
    cbn [fst snd sp stack set_sp set_stack labels pc].
    rewrite decide_False by (rewrite length_insert; lia).
    cbn [fst snd sp stack set_sp set_stack set_scope_stack labels pc scope_stack].
    rewrite Hk. split; [reflexivity|].
    cbn [pc set_pc scope_stack set_scope_stack sp set_sp stack set_stack memory
         registers next_mem_addr output].
    replace (p + 1)%nat with (S p) by lia.
    repeat split.
    + f_equal. lia.
    + rewrite list_lookup_insert_ne by lia. by rewrite list_lookup_insert_eq by lia.
    + by rewrite list_lookup_insert_eq by (rewrite length_insert; lia).
    + intros i Hi. by rewrite !list_lookup_insert_ne by lia.
  - intros Hsp. unfold pop, vbind, read. cbv beta. by rewrite Hsp.
  - intros Hsp. unfold push, pop, vbind, read, update, vret. cbv beta.
    rewrite Hsp. change stack_size with 16%nat in *.
    cbn [fst snd sp stack set_sp set_stack labels pc].
    destruct (stack s !! 15%nat) as [arg|] eqn:Harg.
    + cbn [fst snd sp stack set_sp set_stack labels pc].
      rewrite decide_False by lia.
      cbn [fst snd sp stack set_sp set_stack labels pc].
      by rewrite decide_True by (rewrite length_insert; lia).
    + apply lookup_ge_None in Harg. lia.
Qed.

Lemma call_opens_frame_witness :
  ∃ s1, exec "CALL f" (set_labels {["f" := 7%nat]} (set_sp 1 new_vm)) = (Ok Continue, s1)
        ∧ pc s1 = 7 ∧ sp s1 = 2%nat ∧ stack s1 !! 0%nat = Some 1.
Proof.
  destruct (proj1 (call_opens_frame "CALL f" "f" []
                    (set_labels {["f" := 7%nat]} (set_sp 1 new_vm)) eq_refl eq_refl)
              0%nat 0 7%nat eq_refl) as (s1 & Hexec & Hpc & _ & Hsp & Hret & _).
  - unfold stack_size. lia.
  - reflexivity.
  - reflexivity.
  - exists s1. by repeat split.
Defined.

(** X19. [RET] after its value is evaluated: the return address is popped
    into [pc], the scope of the callee is dropped, and the value is stored
    under [_retval] in the scope of the caller, at its address there or
    else at a fresh one; from there the caller reads it back.  With no
    scope below the current one -- a [RET] outside every call -- it raises
    the [IndexError] of [scope_stack[-1]]. *)
Theorem return_to_caller (instr v : string) (rest : list string) (s s1 : vm)
        (val ret : Z) (p : nat) (callee : gmap string nat) :
  PyStr.split instr = "RET" :: v :: rest →
  eval_arg v s = (Ok val, s1) →
  sp s1 = S p → stack s1 !! p = Some ret →
  (∀ caller below,
     scope_stack s1 = callee :: caller :: below →
     let addr := default (next_mem_addr s1) (caller !! "_retval") in
     (addr < length (memory s1))%nat →
     ∃ s2, exec instr s = (Ok Continue, s2)
           ∧ pc s2 = ret ∧ sp s2 = p
           ∧ scope_stack s2 = <["_retval" := addr]> caller :: below
           ∧ memory s2 = <[addr := val]> (memory s1)
           ∧ eval_arg "_retval" s2 = (Ok val, s2))
  ∧ (scope_stack s1 = [callee] → (exec instr s).1 = Err (IndexError AtScopeTop)).
Proof.
  intros Hsplit Hval Hsp Hret.
  assert (Hexec : exec instr s
    = match scope_stack s1 with
      | [] => vraise (IndexError AtScopePop)
      | _ :: below =>
          (update (set_scope_stack below);;
           set_var "_retval" val;; update (set_pc ret);; vret Continue)%vm
      end (set_sp p s1)).
  { unfold exec. rewrite Hsplit, part_0, vbind_vret.
    select_opcode "RET". rewrite part_1, vbind_vret.
    unfold vbind at 1. rewrite Hval.
    unfold vbind at 1. unfold pop, vbind at 1, read at 1. rewrite Hsp.
    unfold vbind at 1, update at 1. cbn [fst snd].
    unfold vbind at 1, read at 1. cbn [stack set_sp]. rewrite Hret.
    unfold vret at 1. cbn [fst snd]. unfold vbind at 1, read at 1.
    reflexivity. }
  rewrite Hexec. clear Hexec. split.
  - intros caller below Hscopes addr Haddr. subst addr. rewrite Hscopes.
    unfold vbind at 1, update at 1. cbv beta iota.
    unfold vbind at 1. rewrite set_var_variable by reflexivity.
    unfold vbind at 1.
    rewrite (get_var_addr_top "_retval" _ caller below) by reflexivity.
    destruct (caller !! "_retval") as [a|] eqn:Hbound; cbn [default] in *.
    + unfold store, vbind, read, update, vret. cbv beta.
      cbn [memory set_scope_stack set_sp fst snd].
      rewrite decide_True by done. eexists. split; [reflexivity|].
      cbn [pc sp scope_stack memory set_pc set_memory set_scope_stack set_sp].
      rewrite insert_id by done. repeat split.
      rewrite eval_arg_variable by reflexivity. unfold vbind at 1.
      rewrite (get_var_addr_top "_retval" _ caller below) by reflexivity. rewrite Hbound.
      unfold load, vbind, read, vret. cbv beta.
      cbn [memory set_pc set_memory set_scope_stack set_sp].
      by rewrite list_lookup_insert_eq by done.
    + unfold store, vbind, read, update, vret, bound. cbv beta.
      cbn [memory next_mem_addr set_next_mem_addr set_scope_stack set_sp fst snd].
      rewrite decide_True by done. eexists. split; [reflexivity|].
      cbn [pc sp scope_stack memory next_mem_addr set_pc set_memory set_next_mem_addr
           set_scope_stack set_sp].
      repeat split.
      rewrite eval_arg_variable by reflexivity. unfold vbind at 1.
      rewrite (get_var_addr_top "_retval" _ (<["_retval" := next_mem_addr s1]> caller)
                 below) by reflexivity. rewrite lookup_insert_eq.
      unfold load, vbind, read, vret. cbv beta.
      cbn [memory set_pc set_memory set_next_mem_addr set_scope_stack set_sp].
      by rewrite list_lookup_insert_eq by done.
  - intros Hscopes. rewrite Hscopes.
    unfold vbind at 1, update at 1. cbv beta iota.
    unfold vbind at 1. rewrite set_var_variable by reflexivity.
    unfold vbind at 1.
    unfold get_var_addr. change (is_temp_var "_retval") with false. cbv iota.
    unfold vbind, read. cbv beta. cbn [scope_stack set_scope_stack]. reflexivity.
Qed.

Lemma return_to_caller_witness :
  ∃ s2, exec "RET 5" (set_sp 1 (set_scope_stack [∅; ∅] new_vm)) = (Ok Continue, s2)
        ∧ pc s2 = 0 ∧ eval_arg "_retval" s2 = (Ok 5, s2).
Proof.
  destruct (proj1 (return_to_caller "RET 5" "5" []
                     (set_sp 1 (set_scope_stack [∅; ∅] new_vm))
                     (set_sp 1 (set_scope_stack [∅; ∅] new_vm))
                     5 0 0%nat ∅ eq_refl eq_refl eq_refl eq_refl) ∅ [] eq_refl)
    as (s2 & Hexec & Hpc & _ & _ & _ & Hread).
  - apply Nat.ltb_lt. vm_compute. reflexivity.
  - exists s2. by repeat split.
Defined.

(** ** Programs that print numerals, end to end *)

Section Numeral.
Import PyStr.

Lemma digit_class (a : ascii) :
  is_digit a = true →
  is_space a = false ∧ Re.not_newline a = true
  ∧ Ascii.eqb a "+" = false ∧ Ascii.eqb a "-" = false.
Proof.
  destruct a as [[] [] [] [] [] [] [] []]; vm_compute; try done.
Qed.

Lemma numeral_digits (d : string) :
  isdigit d = true → is_empty d = false ∧ forallb is_digit d = true.
Proof.
  unfold isdigit. intros [Hne Hall]%andb_true_iff.
  by apply negb_true_iff in Hne.
Qed.

Lemma digits_no_space (d : string) :
  forallb is_digit d = true → forallb (λ a, negb (is_space a)) d = true.
Proof.
  induction d as [|a s IH]; [done|]. cbn [forallb].
  intros [Ha Hs]%andb_true_iff.
  destruct (digit_class a Ha) as (-> & _). by rewrite IH.
Qed.

Lemma digits_contains (d : string) (c : ascii) :
  c = "+"%char ∨ c = "-"%char → forallb is_digit d = true → contains c d = false.
Proof.
  intros Hc. induction d as [|a s IH]; [done|]. cbn [forallb contains].
  intros [Ha Hs]%andb_true_iff.
  destruct (digit_class a Ha) as (_ & _ & Hplus & Hminus).
  rewrite IH by done. by destruct Hc as [-> | ->]; rewrite ?Hplus, ?Hminus.
Qed.

Lemma digits_span (d : string) :
  forallb is_digit d = true → Re.span Re.not_newline d = (d, EmptyString).
Proof.
  induction d as [|a s IH]; [done|]. cbn [forallb Re.span].
  intros [Ha Hs]%andb_true_iff.
  destruct (digit_class a Ha) as (_ & -> & _). by rewrite IH.
Qed.

Lemma digits_rstrip (d : string) : forallb is_digit d = true → rstrip d = d.
Proof.
  induction d as [|a s IH]; [done|]. cbn [forallb rstrip].
  intros [Ha Hs]%andb_true_iff.
  destruct (digit_class a Ha) as (-> & _). rewrite IH by done.
  by rewrite andb_false_r.
Qed.

Lemma numeral_strip (d : string) : isdigit d = true → strip d = d.
Proof.
  intros [Hne Hall]%numeral_digits. unfold strip.
  rewrite <- (digits_rstrip d Hall) at 2. f_equal.
  destruct d as [|a s]; [done|]. cbn [lstrip].
  cbn [forallb] in Hall. apply andb_true_iff in Hall as [Ha _].
  by destruct (digit_class a Ha) as (-> & _).
Qed.

Lemma numeral_split (d : string) : isdigit d = true → split d = [d].
Proof.
  intros [Hne Hall]%numeral_digits.
  unfold split. rewrite words_from_token by by apply digits_no_space.
  unfold cons_word. by rewrite Hne.
Qed.

Lemma numeral_eval_arg (d : string) (s : vm) :
  isdigit d = true → eval_arg d s = (Ok (int_of_digits d), s).
Proof.
  intros Hd. unfold eval_arg. rewrite Hd. cbn [orb]. unfold py_int, int_of_token.
  apply numeral_digits in Hd as [Hne Hall].
  destruct d as [|c w] eqn:Heq; [done|].
  destruct (first_digit _ _ Hall) as [-> ->].
  by rewrite grouped_digits_all, remove_underscores_digits.
Qed.

Lemma classify_print_line (d : string) :
  isdigit d = true → classify (print_line d) = LPrint d.
Proof.
  intros [Hne Hall]%numeral_digits.
  unfold classify, Re.match_def, Re.match_if, Re.match_for, Re.match_return,
    Re.match_print, Re.after, print_line.
  change ("print " +:+ d) with (String "p" (String "r" (String "i" (String "n"
            (String "t" (String " " d)))))).
  cbn [startswith Ascii.eqb Bool.eqb andb mbind option_bind String.length drop].
  unfold Re.dot_plus_end. rewrite digits_span by done. rewrite Hne. reflexivity.
Qed.

Lemma strip_print_line (d : string) :
  isdigit d = true → strip (print_line d) = print_line d.
Proof.
  intros [Hne Hall]%numeral_digits. unfold strip, print_line.
  change (lstrip ("print " +:+ d)) with (String "p" (String "r" (String "i" (String "n"
            (String "t" (String " " d)))))).
  cbn [rstrip]. rewrite digits_rstrip by done.
  rewrite Hne. reflexivity.
Qed.

End Numeral.

Lemma source_lines_prints (ds : list string) :
  Forall (λ d, PyStr.isdigit d = true) ds →
  source_lines (List.map print_line ds) = List.map print_line ds.
Proof.
  unfold source_lines. induction 1 as [|d ds Hd _ IH]; [done|].
  cbn [List.map List.filter]. rewrite strip_print_line by done. rewrite IH.
  reflexivity.
Qed.

Lemma parse_lines_prints (ds : list string) : ∀ r K,
  Forall (λ d, PyStr.isdigit d = true) ds →
  parse_lines (PState r (Some []) K) (List.map print_line ds)
  = Ok (PState (r ++ List.map Print ds) (Some []) K).
Proof.
  induction ds as [|d ds IH]; intros r K Hds.
  { cbn. by rewrite app_nil_r. }
  apply Forall_cons in Hds as [Hd Hds]. cbn [List.map parse_lines].
  unfold parse_line. rewrite classify_print_line by done.
  cbn [append_node frames root function_names]. rewrite IH by done.
  by rewrite <- app_assoc.
Qed.

Lemma compile_expr_numeral (fns : gset string) (d : string) (c : nat) :
  PyStr.isdigit d = true → compile_expr fns d c = Some (Ok ((d, []), c)).
Proof.
  intros Hd. rewrite compile_expr_unfold, numeral_strip by done.
  unfold compile_expr_body, as_call. rewrite numeral_split by done.
  apply numeral_digits in Hd as [_ Hall].
  by rewrite !digits_contains by auto.
Qed.

Lemma compile_items_prints (fns : gset string) (ds : list string) :
  ∀ code main_code c,
  Forall (λ d, PyStr.isdigit d = true) ds →
  compile_items fns (List.map Print ds) code main_code c
  = Some (Ok ((code, main_code ++ List.map (instr1 "PRINT") ds), c)).
Proof.
  induction ds as [|d ds IH]; intros code main_code c Hds.
  { cbn. by rewrite app_nil_r. }
  apply Forall_cons in Hds as [Hd Hds]. cbn [List.map compile_items].
  unfold gbind at 1. cbn [compile_stmt]. unfold gbind at 1.
  rewrite compile_expr_numeral by done. cbn [gret app].
  rewrite IH by done. by rewrite <- app_assoc.
Qed.

Lemma compile_prints (ds : list string) :
  Forall (λ d, PyStr.isdigit d = true) ds →
  compile (List.map print_line ds)
  = Some (Ok ("JMP main" :: "LABEL main"
                :: List.map (instr1 "PRINT") ds ++ ["HALT"])).
Proof.
  intros Hds. unfold compile, parse_from.
  rewrite source_lines_prints, parse_lines_prints by done.
  cbn [ast_of frames root function_names app]. unfold compile_all, gbind.
  by rewrite compile_items_prints.
Qed.

Lemma label_map_prints (ds : list string) : ∀ i ls,
  label_map i (List.map (instr1 "PRINT") ds ++ ["HALT"]) ls = Ok ls.
Proof.
  induction ds as [|d ds IH]; intros i ls; [done|].
  cbn [List.map app label_map].
  change (PyStr.startswith "LABEL " (instr1 "PRINT" d)) with false. apply IH.
Qed.

Lemma split_print (d : string) :
  PyStr.isdigit d = true → PyStr.split (instr1 "PRINT" d) = ["PRINT"; d].
Proof.
  intros [Hne Hall]%numeral_digits. apply (split_join ["PRINT"; d]).
  repeat constructor; try done. by apply digits_no_space.
Qed.

Lemma exec_print (d : string) (s : vm) :
  PyStr.isdigit d = true →
  exec (instr1 "PRINT" d) s = (Ok Advance, set_output (output s ++ [printed d]) s).
Proof.
  intros Hd. unfold exec. rewrite split_print, part_0, vbind_vret by done.
  select_opcode "PRINT". rewrite part_1, vbind_vret.
  unfold vbind at 1. by rewrite numeral_eval_arg.
Qed.

Lemma fetch_at (s : vm) (i : nat) (instr : string) :
  pc s = Z.of_nat i → program s !! i = Some instr → fetch s = Ok instr.
Proof.
  intros Hpc Hi. unfold fetch. rewrite Hpc.
  destruct (decide (Z.of_nat i < 0)); [lia|].
  rewrite decide_False by lia. by rewrite Nat2Z.id, Hi.
Qed.

Lemma run_loop_prints (rest : list string) : ∀ before s,
  Forall (λ d, PyStr.isdigit d = true) rest →
  program s = "JMP main" :: "LABEL main"
                :: List.map (instr1 "PRINT") (before ++ rest) ++ ["HALT"] →
  pc s = Z.of_nat (2 + length before) →
  (run_loop (S (length rest)) s).1
  = Returned (output s ++ List.map printed rest).
Proof.
  induction rest as [|d rest IH]; intros before s Hds Hprog Hpc.
  - rewrite run_loop_step
      by (rewrite Hprog, Hpc; cbn [length]; rewrite length_app, length_map, length_app;
          cbn [length]; lia).
    rewrite (fetch_at s (2 + length before) "HALT" Hpc).
    + by rewrite app_nil_r.
    + rewrite Hprog, app_nil_r.
      change ((List.map (instr1 "PRINT") before ++ ["HALT"]) !! length before = Some "HALT").
      rewrite lookup_app_r by (by rewrite length_map).
      by rewrite length_map, Nat.sub_diag.
  - apply Forall_cons in Hds as [Hd Hds].
    rewrite run_loop_step
      by (rewrite Hprog, Hpc; cbn [length]; rewrite length_app, length_map, length_app;
          cbn [length]; lia).
    rewrite (fetch_at s (2 + length before) (instr1 "PRINT" d) Hpc).
    + rewrite exec_print by done.
      rewrite (IH (before ++ [d])); try done.
      * cbn [output set_pc set_output List.map]. by rewrite <- app_assoc.
      * cbn [program set_pc set_output]. by rewrite <- app_assoc.
      * cbn [pc set_pc set_output]. rewrite Hpc, length_app. cbn [length]. lia.
    + rewrite Hprog, List.map_app, <- app_assoc.
      change ((List.map (instr1 "PRINT") before
                 ++ List.map (instr1 "PRINT") (d :: rest) ++ ["HALT"]) !! length before
              = Some (instr1 "PRINT" d)).
      rewrite lookup_app_r by (by rewrite length_map).
      by rewrite length_map, Nat.sub_diag.
Qed.

(** X20. Printing numerals, end to end: a source of [print d] lines, each
    [d] a string of digits within the digit limit of [int()] and [str()],
    compiles, and the compiled program, run for three iterations more than
    it has lines, returns one output per line, in order: the decimal text
    of the value of [d]. *)
Theorem print_numerals (ds : list string) (fuel : nat) :
  Forall (λ d, PyStr.isdigit d = true ∧ (String.length d ≤ max_str_digits)%nat) ds →
  (length ds + 3 ≤ fuel)%nat →
  compile_and_execute fuel (List.map print_line ds)
  = Some (Returned (List.map printed ds)).
Proof.
  intros Hlimit Hfuel.
  assert (Hds : Forall (λ d, PyStr.isdigit d = true) ds).
  { eapply Forall_impl; [exact Hlimit|]. by intros d [Hd _]. }
  clear Hlimit.
  unfold compile_and_execute. rewrite compile_prints by done.
  f_equal. apply (execute_le (S (S (S (length ds))))); [|done|lia].
  unfold execute, execute_vm, load_program. cbn [label_map].
  change (PyStr.startswith "LABEL " "JMP main") with false.
  change (PyStr.startswith "LABEL " "LABEL main") with true.
  change (PyStr.split "LABEL main" !! 1%nat) with (Some "main"). cbv iota.
  rewrite label_map_prints. unfold run.
  set (prog := "JMP main" :: "LABEL main" :: List.map (instr1 "PRINT") ds ++ ["HALT"]).
  set (s0 := set_output [] (set_sp 0 (set_pc 0 (set_labels _ (set_program prog new_vm))))).
  assert (Hlen : ∀ s, program s = prog → pc s = 0 ∨ pc s = 1 →
                      pc s < Z.of_nat (length (program s))).
  { intros s -> Hs. unfold prog. cbn [length]. lia. }
  rewrite run_loop_step by (apply Hlen; [done|by left]).
  rewrite (fetch_at s0 0 "JMP main") by done.
  change (exec "JMP main" s0) with (Ok Continue, set_pc 1 s0). cbv beta iota.
  rewrite run_loop_step by (apply Hlen; [done|by right]).
  rewrite (fetch_at (set_pc 1 s0) 1 "LABEL main") by done.
  change (exec "LABEL main" (set_pc 1 s0)) with (Ok Advance, set_pc 1 s0). cbv beta iota.
  by rewrite (run_loop_prints ds []).
Qed.

Lemma print_numerals_witness :
  compile_and_execute 5 (List.map print_line ["007"; "42"])
  = Some (Returned (List.map printed ["007"; "42"]))
  ∧ List.map printed ["007"; "42"] = ["7"; "42"].
Proof.
  split; [|reflexivity].
  apply print_numerals; [|cbn; lia].
  repeat (apply Forall_cons_2;
            [split; [reflexivity|apply Nat.leb_le; vm_compute; reflexivity]|]).
  apply Forall_nil_2.
Defined.
